(** * mev-boost: the multi-relay fan-out engine of [server/service.go]

    A shallow embedding of the four HTTP handlers of the boost service
    ([handleStatus], [handleRegisterValidator], [handleGetHeader],
    [handleGetPayload]), of the bid cache with its sweeper
    ([startBidCacheCleanupTask]), of [CheckRelays], and of the life cycle
    of the service ([NewBoostService], [StartHTTPServer]).

    Conventions.
    - Go pointers that may be nil are [option]s; dereferencing nil is a panic,
      modelled by [None] in the result of the enclosing function.
    - Byte arrays ([types.Hash], [types.PublicKey], [types.Signature]) are
      [list byte]; [==] on arrays is list equality.
    - [types.U256Str] is the natural number it denotes; [String()] prints it
      in decimal and [Cmp] compares the numbers.
    - What the network answers is an input: every relay task is given the
      triple that [SendHTTPRequest] returned to it.
    - Goroutines are interleaved by explicit schedules.  Where a handler only
      touches shared state inside one mutex-protected block, the schedule is
      the order in which the tasks take the mutex; where the claim is about
      the interleaving itself, every statement of a task is a step of a
      transition system. *)

From Stdlib Require Import ZArith NArith Lia.
From Stdlib Require Import Strings.Byte Strings.Ascii Strings.String.
From stdpp Require Import base option list gmap strings pretty.

Open Scope Z_scope.

(* ===================================================================== *)
(** * 1. Types of go-boost-utils used by the service *)
(* ===================================================================== *)

#[global] Instance byte_eq_dec : EqDecision byte := Byte.byte_eq_dec.

Definition Hash := list byte.
Definition Root := list byte.
Definition PublicKey := list byte.
Definition Signature := list byte.
Definition Domain := list byte.

(** [types.U256Str]: a 256-bit unsigned number. *)
Definition U256Str := N.

(** Go's [error] interface: [None] is [nil]. *)
Definition error := option string.

(** [time.Time] and [time.Duration], both counted in nanoseconds. *)
Definition Time := Z.
Definition Duration := Z.
Definition Minute : Duration := 60 * 1000000000.

(** [var nilHash = types.Hash{}]: thirty-two zero bytes. *)
Definition nilHash : Hash := replicate 32 x00.

Definition hexDigit (n : N) : ascii :=
  match n with
  | 0 => "0" | 1 => "1" | 2 => "2" | 3 => "3" | 4 => "4" | 5 => "5"
  | 6 => "6" | 7 => "7" | 8 => "8" | 9 => "9" | 10 => "a" | 11 => "b"
  | 12 => "c" | 13 => "d" | 14 => "e" | _ => "f"
  end%N%char.

Fixpoint hexEncode (bs : list byte) : string :=
  match bs with
  | [] => EmptyString
  | b :: bs' =>
      String (hexDigit (Byte.to_N b / 16))
        (String (hexDigit (Byte.to_N b mod 16)) (hexEncode bs'))
  end.

(** [Hash.String()]: lower-case hexadecimal with the [0x] prefix. *)
Definition Hash_String (h : list byte) : string := "0x" +:+ hexEncode h.

(** [U256Str.String()]: the decimal rendering of the number. *)
Definition U256Str_String (v : U256Str) : string := pretty v.

(** [U256Str.Cmp]: [-1], [0] or [1]. *)
Definition U256Str_Cmp (a b : U256Str) : Z :=
  match N.compare a b with
  | Lt => -1
  | Eq => 0
  | Gt => 1
  end.

Record ExecutionPayloadHeader := {
  ParentHash : Hash;
  BlockHash : Hash;
  BlockNumber : Z;
  TransactionsRoot : Root
}.

Record BuilderBid := {
  Header : option ExecutionPayloadHeader;
  Value : U256Str;
  Pubkey : PublicKey
}.

Record SignedBuilderBid := {
  Message : option BuilderBid;
  bid_Signature : Signature
}.

Record GetHeaderResponse := {
  ghr_Version : string;
  ghr_Data : option SignedBuilderBid
}.

Record ExecutionPayload := {
  ep_ParentHash : Hash;
  ep_BlockHash : Hash;
  ep_BlockNumber : Z
}.

Record GetPayloadResponse := {
  gpr_Version : string;
  gpr_Data : option ExecutionPayload
}.

(** The part of [types.SignedBlindedBeaconBlock] the service reads:
    [Message.Slot] and [Message.Body.ExecutionPayloadHeader.BlockHash], for
    a block that has its message, body and execution payload header. *)
Record SignedBlindedBeaconBlock := {
  sbb_Slot : Z;
  sbb_BlockHash : Hash;
  sbb_Signature : Signature
}.

(** Modelled from the spec: the relay descriptor [RelayEntry], declared in a
    file of the repository that is not part of the sources at hand: a public
    key and the rendered string form [String()] used for logging and from
    which [GetURI] builds the request URLs. *)
Record RelayEntry := {
  PublicKey_of : PublicKey;
  RelayEntry_String : string
}.

Definition GetURI (relay : RelayEntry) (path : string) : string :=
  RelayEntry_String relay +:+ path.

#[global] Instance ExecutionPayloadHeader_eq_dec : EqDecision ExecutionPayloadHeader.
Proof. solve_decision. Defined.
#[global] Instance BuilderBid_eq_dec : EqDecision BuilderBid.
Proof. solve_decision. Defined.
#[global] Instance SignedBuilderBid_eq_dec : EqDecision SignedBuilderBid.
Proof. solve_decision. Defined.
#[global] Instance GetHeaderResponse_eq_dec : EqDecision GetHeaderResponse.
Proof. solve_decision. Defined.
#[global] Instance ExecutionPayload_eq_dec : EqDecision ExecutionPayload.
Proof. solve_decision. Defined.
#[global] Instance GetPayloadResponse_eq_dec : EqDecision GetPayloadResponse.
Proof. solve_decision. Defined.
#[global] Instance RelayEntry_eq_dec : EqDecision RelayEntry.
Proof. solve_decision. Defined.

(** What [SendHTTPRequest] handed back to a task: the status code, the
    error, and the value decoded into the destination it was given (the zero
    value when nothing was decoded). *)
Record httpResult (A : Type) := HttpResult {
  http_code : Z;
  http_err : error;
  http_dst : A
}.
Arguments HttpResult {A} _ _ _.
Arguments http_code {A} _.
Arguments http_err {A} _.
Arguments http_dst {A} _.

(** HTTP status codes of [net/http] used by the handlers. *)
Definition StatusOK : Z := 200.
Definition StatusNoContent : Z := 204.
Definition StatusBadRequest : Z := 400.
Definition StatusBadGateway : Z := 502.
Definition StatusServiceUnavailable : Z := 503.

Definition errInvalidSlot : string := "invalid slot".
Definition errInvalidHash : string := "invalid hash".
Definition errInvalidPubkey : string := "invalid pubkey".
Definition errNoSuccessfulRelayResponse : string := "no successful relay response".

(** [httpErrorResp] and the bodies the handlers write. *)
Inductive respBody :=
  | BodyNone
  | BodyNil (* nilResponse, the empty struct *)
  | BodyError (code : Z) (message : string)
  | BodyHeader (r : GetHeaderResponse)
  | BodyPayload (r : GetPayloadResponse).

Record reply := Reply { status : Z; body : respBody }.

Definition respondError (code : Z) (message : string) : reply :=
  Reply code (BodyError code message).

Definition respondOK (response : respBody) : reply :=
  Reply StatusOK response.

(* ===================================================================== *)
(** * 2. The bid cache *)
(* ===================================================================== *)

(** Modelled from the spec: the bid response record [bidResp] and its key
    [bidRespKey], declared in a file of the repository that is not part of
    the sources at hand; the fields are those [service.go] reads and
    writes. *)
Record bidResp := {
  t : Time;
  response : GetHeaderResponse;
  blockHash : string;
  relays : list string
}.

(** The zero value [bidResp{}]. *)
Definition bidResp_zero : bidResp :=
  {| t := 0;
     response := {| ghr_Version := ""; ghr_Data := None |};
     blockHash := "";
     relays := [] |}.

(** [bidRespKey{slot, blockHash}]. *)
Abbreviation bidRespKey := (Z * string)%type.

(** [m.bids]: [map[bidRespKey]bidResp]. *)
Abbreviation bidCache := (gmap bidRespKey bidResp).

(** Reading a Go map at an absent key yields the zero value. *)
Definition bids_load (bids : bidCache) (k : bidRespKey) : bidResp :=
  default bidResp_zero (bids !! k).

Definition bids_store (bids : bidCache) (k : bidRespKey) (r : bidResp) : bidCache :=
  <[k := r]> bids.

(** The service: the fields of [BoostService] the handlers read. *)
Record BoostService := {
  m_relays : list RelayEntry;
  relayCheck : bool;
  builderSigningDomain : Domain;
  bids : bidCache
}.

(* ===================================================================== *)
(** * 3. [handleGetHeader]: the auction *)
(* ===================================================================== *)

(** [strconv.ParseUint(s, 10, 64)] of the Go standard library: the loop over
    the bytes of [s], with its cutoff test before the multiplication and its
    wrap-around test after the addition. *)
Inductive numError := ErrSyntax | ErrRange.

Definition maxUint64 : Z := 2 ^ 64 - 1.
Definition wrap64 (n : Z) : Z := n mod 2 ^ 64.

Definition digitOf (c : ascii) : option Z :=
  let n := Z.of_N (N_of_ascii c) in
  if (48 <=? n) && (n <=? 57) then Some (n - 48) else None.

Fixpoint parseUintLoop (cs : list ascii) (n : Z) : numError + Z :=
  match cs with
  | [] => inr n
  | c :: cs' =>
      match digitOf c with
      | None => inl ErrSyntax
      | Some d =>
          if maxUint64 / 10 + 1 <=? n then inl ErrRange
          else
            let n10 := wrap64 (n * 10) in
            let n1 := wrap64 (n10 + d) in
            if (n1 <? n10) || (maxUint64 <? n1) then inl ErrRange
            else parseUintLoop cs' n1
      end
  end.

Definition ParseUint (s : string) : numError + Z :=
  match String.list_ascii_of_string s with
  | [] => inl ErrSyntax
  | cs => parseUintLoop cs 0
  end.

(** The number a string of decimal digits denotes, after the digits [n]. *)
Fixpoint decimalValue (cs : list ascii) (n : Z) : Z :=
  match cs with
  | [] => n
  | c :: cs' => decimalValue cs' (n * 10 + default 0 (digitOf c))
  end.

(** [s] is the decimal notation of the unsigned 64-bit number [n]. *)
Definition isUint64Decimal (s : string) (n : Z) : Prop :=
  s ≠ "" ∧
  Forall (λ c, is_Some (digitOf c)) (String.list_ascii_of_string s) ∧
  n = decimalValue (String.list_ascii_of_string s) 0 ∧
  n <= maxUint64.

(** [len(s)] of a Go string: its number of bytes. *)
Definition len (s : string) : Z := Z.of_nat (String.length s).

(** The URL variables of a header request. *)
Record headerVars := {
  slot : string;
  parent_hash : string;
  pubkey : string
}.

Definition emptyTxRoot : string :=
  "0x7ffe241ea60187fdb0187bfa22de35d1f9bed7ab061d9401fd47e34a54fbede1".

(** Why a relay task returned before the critical section. *)
Inductive dropped :=
  | RequestError
  | NoContent
  | InvalidPayload
  | PubkeyMismatch
  | SignatureError
  | SignatureInvalid
  | ParentHashMismatch
  | ZeroValue.

(** The state guarded by the handler's [mu]: the map [relays] from block
    hash to relay strings, and [result]. *)
Record auction := {
  au_relays : gmap string (list string);
  au_result : bidResp
}.

Definition auction_init : auction :=
  {| au_relays := ∅; au_result := bidResp_zero |}.

(** One relay's arrival: the relay, what [SendHTTPRequest] returned to its
    task, and what [time.Now()] reads if the task records its bid. *)
Record arrival := {
  ar_relay : RelayEntry;
  ar_http : httpResult GetHeaderResponse;
  ar_now : Time
}.

Section Auction.

(** [types.VerifySignature], the BLS check of go-boost-utils: a verdict and
    an error. *)
Variable VerifySignature :
  BuilderBid -> Domain -> PublicKey -> Signature -> bool * error.

Variable m : BoostService.

(** The body of a relay task up to [mu.Lock()]: the acceptance checks in the
    order the task makes them.  On success it yields the block-hash string
    the task computed. *)
Definition checkBid (parentHashHex : string) (relay : RelayEntry)
    (r : httpResult GetHeaderResponse) : dropped + string :=
  match http_err r with
  | Some _ => inl RequestError
  | None =>
  if bool_decide (http_code r = StatusNoContent) then inl NoContent else
  match ghr_Data (http_dst r) with
  | None => inl InvalidPayload
  | Some data =>
  match Message data with
  | None => inl InvalidPayload
  | Some msg =>
  match Header msg with
  | None => inl InvalidPayload
  | Some header =>
  if bool_decide (BlockHash header = nilHash) then inl InvalidPayload else
  let blockHash := Hash_String (BlockHash header) in
  if bool_decide (PublicKey_of relay ≠ Pubkey msg) then inl PubkeyMismatch else
  let '(ok, err) :=
    VerifySignature msg (builderSigningDomain m) (PublicKey_of relay)
      (bid_Signature data) in
  match err with
  | Some _ => inl SignatureError
  | None =>
  if negb ok then inl SignatureInvalid else
  let responseParentHash := Hash_String (ParentHash header) in
  if bool_decide (responseParentHash ≠ parentHashHex) then inl ParentHashMismatch else
  let isZeroValue := bool_decide (U256Str_String (Value msg) = "0") in
  let isEmptyListTxRoot :=
    bool_decide (Hash_String (TransactionsRoot header) = emptyTxRoot) in
  if isZeroValue || isEmptyListTxRoot then inl ZeroValue else
  inr blockHash
  end end end end end.

(** [r.Data.Message.Value] through the two pointers. *)
Definition valueOf (r : GetHeaderResponse) : option U256Str :=
  data ← ghr_Data r; msg ← Message data; Some (Value msg).

(** The first statement under [mu]: the relay is added to the relays of its
    block hash. *)
Definition recordRelay (relay : RelayEntry) (blockHash : string) (st : auction)
    : auction :=
  {| au_relays :=
       match au_relays st !! blockHash with
       | None => <[blockHash := [RelayEntry_String relay]]> (au_relays st)
       | Some l => <[blockHash := l ++ [RelayEntry_String relay]]> (au_relays st)
       end;
     au_result := au_result st |}.

(** The rest: the bid is skipped unless its value is greater than that of
    the current result, which it then replaces. *)
Definition selectBid (responsePayload : GetHeaderResponse) (blockHash : string)
    (now : Time) (st : auction) : option auction :=
  let take :=
    {| au_relays := au_relays st;
       au_result := {| t := now; response := responsePayload;
                       blockHash := blockHash;
                       relays := relays (au_result st) |} |} in
  match ghr_Data (response (au_result st)) with
  | None => Some take
  | Some _ =>
      v ← valueOf responsePayload;
      cur ← valueOf (response (au_result st));
      if U256Str_Cmp v cur <? 1 then Some st else Some take
  end.

(** The block between [mu.Lock()] and the deferred [mu.Unlock()]. *)
Definition criticalSection (relay : RelayEntry)
    (responsePayload : GetHeaderResponse) (blockHash : string) (now : Time)
    (st : auction) : option auction :=
  selectBid responsePayload blockHash now (recordRelay relay blockHash st).

(** A whole relay task, from the answer of the relay to [wg.Done()]. *)
Definition relayTask (parentHashHex : string) (a : arrival) (st : auction)
    : option auction :=
  match checkBid parentHashHex (ar_relay a) (ar_http a) with
  | inl _ => Some st
  | inr blockHash =>
      criticalSection (ar_relay a) (http_dst (ar_http a)) blockHash (ar_now a) st
  end.

(** The tasks in the order in which they take [mu]: the mutex makes the
    critical sections atomic, what a task does before [mu.Lock()] reads only
    its own variables and the request, and a task that returns early touches
    no shared state. *)
Fixpoint runAuction (parentHashHex : string) (arrivals : list arrival)
    (st : auction) : option auction :=
  match arrivals with
  | [] => Some st
  | a :: rest => st' ← relayTask parentHashHex a st; runAuction parentHashHex rest st'
  end.

(** What a handler did: its reply, the cache it leaves, and the relays whose
    tasks it spawned. *)
Record outcome := {
  out_reply : reply;
  out_bids : bidCache;
  out_contacted : list RelayEntry
}.

(** The handler after [wg.Wait()]. *)
Definition finishGetHeader (_slot : Z) (st : auction) (contacted : list RelayEntry)
    : outcome :=
  let result := au_result st in
  if bool_decide (blockHash result = "") then
    {| out_reply := Reply StatusNoContent BodyNone;
       out_bids := bids m; out_contacted := contacted |}
  else
    let result :=
      {| t := t result; response := response result;
         blockHash := blockHash result;
         relays := default [] (au_relays st !! blockHash result) |} in
    let bidKey := (_slot, blockHash result) in
    {| out_reply := respondOK (BodyHeader (response result));
       out_bids := bids_store (bids m) bidKey result;
       out_contacted := contacted |}.

(** [handleGetHeader].  [arrivals] lists the tasks spawned for the relays of
    [m.relays], each with what the network gave it, in the order in which
    they take [mu] (or return, for those that do not get that far).  [None]
    is a nil dereference. *)
Definition handleGetHeader (vars : headerVars) (arrivals : list arrival)
    : option outcome :=
  match ParseUint (slot vars) with
  | inl _ =>
      Some {| out_reply := respondError StatusBadRequest errInvalidSlot;
              out_bids := bids m; out_contacted := [] |}
  | inr _slot =>
      if bool_decide (len (pubkey vars) ≠ 98) then
        Some {| out_reply := respondError StatusBadRequest errInvalidPubkey;
                out_bids := bids m; out_contacted := [] |}
      else if bool_decide (len (parent_hash vars) ≠ 66) then
        Some {| out_reply := respondError StatusBadRequest errInvalidHash;
                out_bids := bids m; out_contacted := [] |}
      else
        st ← runAuction (parent_hash vars) arrivals auction_init;
        Some (finishGetHeader _slot st (m_relays m))
  end.

(** The arrivals whose task reaches the critical section, what they bid and
    for which block. *)
Definition accepted (parentHashHex : string) (a : arrival) : bool :=
  match checkBid parentHashHex (ar_relay a) (ar_http a) with
  | inr _ => true
  | inl _ => false
  end.

Definition acceptedBids (parentHashHex : string) (arrivals : list arrival)
    : list arrival :=
  filter (λ a, accepted parentHashHex a) arrivals.

Definition bidHash (parentHashHex : string) (a : arrival) : string :=
  match checkBid parentHashHex (ar_relay a) (ar_http a) with
  | inr h => h
  | inl _ => ""
  end.

Definition bidValue (a : arrival) : U256Str :=
  default 0%N (valueOf (http_dst (ar_http a))).

(** The acceptance conditions, as properties of the relay's answer: what
    relay [ar_relay a] delivered is a bid for the block with hash string [h]
    that passes every check. *)
Definition passedChecks (parentHashHex : string) (a : arrival) (h : string)
    : Prop :=
  ∃ data msg header,
    http_err (ar_http a) = None ∧
    http_code (ar_http a) ≠ StatusNoContent ∧
    ghr_Data (http_dst (ar_http a)) = Some data ∧
    Message data = Some msg ∧
    Header msg = Some header ∧
    BlockHash header ≠ nilHash ∧
    h = Hash_String (BlockHash header) ∧
    Pubkey msg = PublicKey_of (ar_relay a) ∧
    VerifySignature msg (builderSigningDomain m) (PublicKey_of (ar_relay a))
      (bid_Signature data) = (true, None) ∧
    Hash_String (ParentHash header) = parentHashHex ∧
    Value msg ≠ 0%N ∧
    Hash_String (TransactionsRoot header) ≠ emptyTxRoot.

(** The critical sections of the arrivals of [acc], one after the other. *)
Fixpoint runCritical (parentHashHex : string) (acc : list arrival)
    (st : auction) : option auction :=
  match acc with
  | [] => Some st
  | a :: rest =>
      st' ← criticalSection (ar_relay a) (http_dst (ar_http a))
              (bidHash parentHashHex a) (ar_now a) st;
      runCritical parentHashHex rest st'
  end.

(** The URL variables pass the three shape checks. *)
Definition validVars (vars : headerVars) (_slot : Z) : Prop :=
  ParseUint (slot vars) = inr _slot ∧
  len (pubkey vars) = 98 ∧
  len (parent_hash vars) = 66.

(** [a] is the first arrival of [acc] with the highest value: every
    earlier bid is strictly below it and no later bid is above it. *)
Definition firstHighest (acc : list arrival) (a : arrival) : Prop :=
  ∃ pre post,
    acc = pre ++ a :: post ∧
    Forall (λ b, (bidValue b < bidValue a)%N) pre ∧
    Forall (λ b, (bidValue b <= bidValue a)%N) post.

(** The relay strings of the arrivals of [acc] that bid for block [h], in
    arrival order. *)
Definition deliveredBy (parentHashHex : string) (acc : list arrival) (h : string)
    : list string :=
  (λ a, RelayEntry_String (ar_relay a))
    <$> filter (λ a, bidHash parentHashHex a = h) acc.

(** The state under [mu] once the accepted bids [acc] have been through the
    critical section. *)
Definition auction_inv (parentHashHex : string) (acc : list arrival)
    (st : auction) : Prop :=
  (∀ h, default [] (au_relays st !! h) = deliveredBy parentHashHex acc h) ∧
  relays (au_result st) = [] ∧
  match acc with
  | [] => au_result st = bidResp_zero
  | _ :: _ =>
      ∃ a, firstHighest acc a ∧
           response (au_result st) = http_dst (ar_http a) ∧
           blockHash (au_result st) = bidHash parentHashHex a ∧
           t (au_result st) = ar_now a
  end.

End Auction.

(* ===================================================================== *)
(** * 4. [handleGetPayload]: the race, task by task *)
(* ===================================================================== *)

(** [strings.Join]. *)
Fixpoint Join (elems : list string) (sep : string) : string :=
  match elems with
  | [] => ""
  | [e] => e
  | e :: rest => e +:+ sep +:+ Join rest sep
  end.

Definition GetPayloadResponse_zero : GetPayloadResponse :=
  {| gpr_Version := ""; gpr_Data := None |}.

Inductive payloadDropped :=
  | PayloadRequestError
  | PayloadEmpty
  | PayloadHashMismatch.

(** The body of a payload task up to [mu.Lock()]. *)
Definition checkPayload (payload : SignedBlindedBeaconBlock)
    (r : httpResult GetPayloadResponse) : payloadDropped + GetPayloadResponse :=
  match http_err r with
  | Some _ => inl PayloadRequestError
  | None =>
      match gpr_Data (http_dst r) with
      | None => inl PayloadEmpty
      | Some data =>
          if bool_decide (ep_BlockHash data = nilHash) then inl PayloadEmpty
          else if bool_decide (sbb_BlockHash payload ≠ ep_BlockHash data)
          then inl PayloadHashMismatch
          else inr (http_dst r)
      end
  end.

(** The answers whose task reaches [mu.Lock()]. *)
Definition validated (payload : SignedBlindedBeaconBlock)
    (a : httpResult GetPayloadResponse) : bool :=
  match checkPayload payload a with
  | inr _ => true
  | inl _ => false
  end.

(** The responses of the tasks that took [mu], in the order they took it. *)
Definition lockOrder (payload : SignedBlindedBeaconBlock)
    (arrivals : list (httpResult GetPayloadResponse)) : list GetPayloadResponse :=
  http_dst <$> filter (λ a, validated payload a) arrivals.

(** The state the tasks share: whether [requestCtx] has been cancelled
    ([requestCtx.Err() != nil]) and [*result]. *)
Record race := {
  requestCtx : bool;
  race_result : GetPayloadResponse
}.

Definition race_init : race :=
  {| requestCtx := false; race_result := GetPayloadResponse_zero |}.

(** The block between [mu.Lock()] and the deferred [mu.Unlock()]. *)
Definition payloadCritical (responsePayload : GetPayloadResponse) (st : race)
    : race :=
  if requestCtx st then st
  else {| requestCtx := true; race_result := responsePayload |}.

Definition payloadTask (payload : SignedBlindedBeaconBlock)
    (a : httpResult GetPayloadResponse) (st : race) : race :=
  match checkPayload payload a with
  | inl _ => st
  | inr responsePayload => payloadCritical responsePayload st
  end.

Definition runRace (payload : SignedBlindedBeaconBlock)
    (arrivals : list (httpResult GetPayloadResponse)) (st : race) : race :=
  foldl (λ st a, payloadTask payload a st) st arrivals.

(** What [handleGetPayload] did: its reply, the [relays] field of the
    error-level withholding line if it logged one, and the relays whose
    tasks it spawned. *)
Record payloadOutcome := {
  po_reply : reply;
  po_withholding : option string;
  po_contacted : list RelayEntry
}.

(** The handler after [wg.Wait()]. *)
Definition finishGetPayload (m : BoostService) (payload : SignedBlindedBeaconBlock)
    (result : GetPayloadResponse) (contacted : list RelayEntry) : payloadOutcome :=
  let withheld :=
    let bidKey := (sbb_Slot payload, Hash_String (sbb_BlockHash payload)) in
    let originalResp := bids_load (bids m) bidKey in
    {| po_reply := respondError StatusBadGateway errNoSuccessfulRelayResponse;
       po_withholding := Some (Join (relays originalResp) ", ");
       po_contacted := contacted |} in
  match gpr_Data result with
  | None => withheld
  | Some data =>
      if bool_decide (ep_BlockHash data = nilHash) then withheld
      else {| po_reply := respondOK (BodyPayload result);
              po_withholding := None;
              po_contacted := contacted |}
  end.

(** [handleGetPayload].  [decoded] is what [DecodeJSON] made of the request
    body: an error message or the block; [arrivals] lists what the network
    gave the tasks spawned for [m.relays], in the order in which the tasks
    take [mu] (or return, for those that do not get that far). *)
Definition handleGetPayload (m : BoostService)
    (decoded : string + SignedBlindedBeaconBlock)
    (arrivals : list (httpResult GetPayloadResponse)) : payloadOutcome :=
  match decoded with
  | inl msg =>
      {| po_reply := respondError StatusBadRequest msg;
         po_withholding := None; po_contacted := [] |}
  | inr payload =>
      finishGetPayload m payload
        (race_result (runRace payload arrivals race_init)) (m_relays m)
  end.

(* ===================================================================== *)
(** * 5. [CheckRelays] *)
(* ===================================================================== *)

(** Modelled from the spec: the route constants, declared in a file of the
    repository that is not part of the sources at hand. *)
Definition pathStatus : string := "/eth/v1/builder/status".
Definition pathRegisterValidator : string := "/eth/v1/builder/validators".
Definition pathGetPayload : string := "/eth/v1/builder/blinded_blocks".

(** The loop of [CheckRelays] from the [i]-th relay on.  [net i] is the
    error [SendHTTPRequest] returns for the [i]-th relay of [m.relays].  The
    result is the verdict and the URLs requested, in order. *)
Fixpoint CheckRelays_from (i : nat) (relays : list RelayEntry)
    (net : nat → error) : bool * list string :=
  match relays with
  | [] => (true, [])
  | relay :: rest =>
      let url := GetURI relay pathStatus in
      match net i with
      | Some _ => (false, [url])
      | None =>
          let '(ok, urls) := CheckRelays_from (S i) rest net in
          (ok, url :: urls)
      end
  end.

Definition CheckRelays (m : BoostService) (net : nat → error)
    : bool * list string :=
  CheckRelays_from 0 (m_relays m) net.

(* ===================================================================== *)
(** * 6. [startBidCacheCleanupTask]: the sweeper *)
(* ===================================================================== *)

(** [time.Duration] is an [int64]; [Time.Sub] saturates at its bounds. *)
Definition maxDuration : Duration := 2 ^ 63 - 1.
Definition minDuration : Duration := - 2 ^ 63.

Definition Sub (u v : Time) : Duration :=
  if maxDuration <? u - v then maxDuration
  else if u - v <? minDuration then minDuration
  else u - v.

(** [time.Since(t0)] when the clock reads [now]. *)
Definition Since (now t0 : Time) : Duration := Sub now t0.

(** One round of [for k, bidResp := range m.bids], the clock reading
    [clock k] when entry [k] is visited.  No entry is added during the loop,
    so the entries visited are those of the map at its start. *)
Definition sweep (clock : bidRespKey → Time) (bids : bidCache) : bidCache :=
  map_fold
    (λ k bidResp acc,
       if 3 * Minute <? Since (clock k) (t bidResp) then delete k acc else acc)
    bids bids.

(** [time.Sleep(d)] pauses for at least [d]: the clock afterwards, [late]
    being the time by which the goroutine overslept. *)
Definition Sleep (d : Duration) (late : N) (now : Time) : Time :=
  now + d + Z.of_N late.

(** What one iteration of the sweeper's loop meets: how late it wakes up,
    how long after waking it visits each entry, and how long after waking
    it is back at the head of the loop. *)
Record tick := {
  tk_late : N;
  tk_visit : bidRespKey → N;
  tk_busy : N
}.

(** One iteration of the [for] loop of [startBidCacheCleanupTask], on the
    clock and the cache; the sweep happens with [m.bidsLock] held. *)
Definition cleanupIteration (tk : tick) (st : Time * bidCache) : Time * bidCache :=
  let woke := Sleep (1 * Minute) (tk_late tk) st.1 in
  (woke + Z.of_N (tk_busy tk), sweep (λ k, woke + Z.of_N (tk_visit tk k)) st.2).

(** The first iterations of the endless loop. *)
Definition startBidCacheCleanupTask (ticks : list tick) (st : Time * bidCache)
    : Time * bidCache :=
  foldl (λ st tk, cleanupIteration tk st) st ticks.

(* ===================================================================== *)
(** * 7. Goroutines as transition systems *)
(* ===================================================================== *)

(** A handler and its tasks are a state and a partial step function over
    events: an event names the goroutine that moves and, where the outside
    world is involved, what the world answers.  [None] means the event
    cannot happen in that state (the goroutine is elsewhere in its code, or
    it is blocked).  An interleaving is a list of events. *)
Section Machine.

Context {State Event : Type}.
Variable step : State → Event → option State.

Fixpoint run (s : State) (tr : list Event) : option State :=
  match tr with
  | [] => Some s
  | e :: tr' => s' ← step s e; run s' tr'
  end.

Definition reachable (init s : State) : Prop := ∃ tr, run init tr = Some s.

End Machine.

(** Go's [sync.WaitGroup] counter and the [uint32] of [sync/atomic]. *)
Definition wrap32 (n : Z) : Z := n mod 2 ^ 32.

(* ===================================================================== *)
(** * 8. [handleStatus] *)
(* ===================================================================== *)

(** Where a status task is in its code. *)
Inductive statusPc :=
  | SSending                                 (* inside SendHTTPRequest *)
  | SReturned (err : error)                  (* it returned err; the test is next *)
  | SAdding (err : error)                    (* atomic.AddUint32 is next *)
  | SCancelling (err : error)                (* cancel() is next *)
  | SExiting (counted : bool) (err : error)  (* the deferred wg.Done() is next *)
  | SDone (counted : bool) (err : error).

Inductive statusEvent :=
  | SESpawn                            (* wg.Add(1); go func(relay) *)
  | SEReturn (i : nat) (err : error)   (* SendHTTPRequest returns to task i *)
  | SETest (i : nat)                   (* err != nil && ctx.Err() != context.Canceled *)
  | SEAdd (i : nat)
  | SECancel (i : nat)
  | SEWgDone (i : nat)
  | SEReply.                           (* the handler writes its response *)

Record statusState := {
  st_tasks : list statusPc;
  st_wg : Z;
  st_num : Z;                   (* numSuccessRequestsToRelay *)
  st_ctx : bool;                (* ctx.Err() == context.Canceled *)
  st_reply : option reply
}.

Definition status_init : statusState :=
  {| st_tasks := []; st_wg := 0; st_num := 0; st_ctx := false; st_reply := None |}.

Definition st_setTask (s : statusState) (i : nat) (pc : statusPc) : statusState :=
  {| st_tasks := <[i := pc]> (st_tasks s); st_wg := st_wg s; st_num := st_num s;
     st_ctx := st_ctx s; st_reply := st_reply s |}.

Definition status_step (m : BoostService) (s : statusState) (e : statusEvent)
    : option statusState :=
  match e with
  | SESpawn =>
      if relayCheck m && bool_decide (st_reply s = None)
         && bool_decide (length (st_tasks s) < length (m_relays m))%nat
      then Some {| st_tasks := st_tasks s ++ [SSending]; st_wg := st_wg s + 1;
                   st_num := st_num s; st_ctx := st_ctx s; st_reply := st_reply s |}
      else None
  | SEReturn i err =>
      match st_tasks s !! i with
      | Some SSending => Some (st_setTask s i (SReturned err))
      | _ => None
      end
  | SETest i =>
      match st_tasks s !! i with
      | Some (SReturned err) =>
          if bool_decide (err ≠ None) && negb (st_ctx s)
          then Some (st_setTask s i (SExiting false err))
          else Some (st_setTask s i (SAdding err))
      | _ => None
      end
  | SEAdd i =>
      match st_tasks s !! i with
      | Some (SAdding err) =>
          Some {| st_tasks := <[i := SCancelling err]> (st_tasks s);
                  st_wg := st_wg s; st_num := wrap32 (st_num s + 1);
                  st_ctx := st_ctx s; st_reply := st_reply s |}
      | _ => None
      end
  | SECancel i =>
      match st_tasks s !! i with
      | Some (SCancelling err) =>
          Some {| st_tasks := <[i := SExiting true err]> (st_tasks s);
                  st_wg := st_wg s; st_num := st_num s;
                  st_ctx := true; st_reply := st_reply s |}
      | _ => None
      end
  | SEWgDone i =>
      match st_tasks s !! i with
      | Some (SExiting counted err) =>
          Some {| st_tasks := <[i := SDone counted err]> (st_tasks s);
                  st_wg := st_wg s - 1; st_num := st_num s;
                  st_ctx := st_ctx s; st_reply := st_reply s |}
      | _ => None
      end
  | SEReply =>
      match st_reply s with
      | Some _ => None
      | None =>
          if negb (relayCheck m) then
            Some {| st_tasks := st_tasks s; st_wg := st_wg s; st_num := st_num s;
                    st_ctx := st_ctx s; st_reply := Some (respondOK BodyNil) |}
          else if bool_decide (length (st_tasks s) = length (m_relays m))
                  && bool_decide (st_wg s = 0)
          then
            Some {| st_tasks := st_tasks s; st_wg := st_wg s; st_num := st_num s;
                    st_ctx := true;   (* the deferred cancel() *)
                    st_reply := Some
                      (if 0 <? st_num s then respondOK BodyNil
                       else respondError StatusServiceUnavailable
                              "all relays are unavailable") |}
          else None
      end
  end.

(** Weights over the task table, for counting. *)
Definition st_pending (pc : statusPc) : nat :=
  match pc with SDone _ _ => 0 | _ => 1 end.

(** The task has executed [atomic.AddUint32]. *)
Definition st_counted (pc : statusPc) : nat :=
  match pc with
  | SCancelling _ | SExiting true _ | SDone true _ => 1
  | _ => 0
  end.

(** The task has executed [cancel()]. *)
Definition st_cancelled (pc : statusPc) : nat :=
  match pc with SExiting true _ | SDone true _ => 1 | _ => 0 end.

(** The task is past the test, on the success path. *)
Definition st_passed (pc : statusPc) : nat :=
  match pc with
  | SAdding _ | SCancelling _ | SExiting true _ | SDone true _ => 1
  | _ => 0
  end.

(** The task is past the test and its request returned no error. *)
Definition st_passedOk (pc : statusPc) : nat :=
  match pc with
  | SAdding None | SCancelling None | SExiting true None | SDone true None => 1
  | _ => 0
  end.

(** The task gave up although its request returned no error (no task does). *)
Definition st_lost (pc : statusPc) : nat :=
  match pc with SExiting false None | SDone false None => 1 | _ => 0 end.

(** The statements a task still has to execute. *)
Definition st_remaining (pc : statusPc) : nat :=
  match pc with
  | SSending => 5 | SReturned _ => 4 | SAdding _ => 3 | SCancelling _ => 2
  | SExiting _ _ => 1 | SDone _ _ => 0
  end.

Definition status_measure (m : BoostService) (s : statusState) : nat :=
  sum_list_with st_remaining (st_tasks s)
  + 6 * (length (m_relays m) - length (st_tasks s))
  + (match st_reply s with Some _ => 0 | None => 1 end).

(** What holds in every state an interleaving can reach. *)
Record status_inv (m : BoostService) (s : statusState) : Prop := {
  sti_spawned : (length (st_tasks s) <= length (m_relays m))%nat;
  sti_disabled : relayCheck m = false → st_tasks s = [];
  sti_wg : st_wg s = Z.of_nat (sum_list_with st_pending (st_tasks s));
  sti_num : st_num s = wrap32 (Z.of_nat (sum_list_with st_counted (st_tasks s)));
  sti_ctx : st_ctx s = true →
            st_reply s ≠ None ∨ (0 < sum_list_with st_cancelled (st_tasks s))%nat;
  sti_first : (0 < sum_list_with st_passed (st_tasks s))%nat →
              (0 < sum_list_with st_passedOk (st_tasks s))%nat;
  sti_lost : sum_list_with st_lost (st_tasks s) = 0%nat;
  sti_reply : ∀ r, st_reply s = Some r →
      sum_list_with st_pending (st_tasks s) = 0%nat ∧
      if relayCheck m then
        length (st_tasks s) = length (m_relays m) ∧
        r = (if 0 <? st_num s then respondOK BodyNil
             else respondError StatusServiceUnavailable "all relays are unavailable")
      else r = respondOK BodyNil
}.

(* ===================================================================== *)
(** * 9. [handleRegisterValidator] *)
(* ===================================================================== *)

(** Where a registration task is in its code. *)
Inductive regPc :=
  | GSending                 (* inside SendHTTPRequest, under context.Background() *)
  | GReturned (err : error)  (* relayRespCh <- err is next *)
  | GPushed (err : error)    (* the warning, if any, and the return are next *)
  | GDone (err : error).

Inductive regEvent :=
  | GEBadRequest                     (* DecodeJSON failed: respondError 400 *)
  | GESpawn                          (* go func(relay) *)
  | GEReturn (i : nat) (err : error)
  | GEPush (i : nat)                 (* relayRespCh <- err *)
  | GEFinish (i : nat)
  | GERecv                           (* respErr := <-relayRespCh and its test *)
  | GEGiveUp.                        (* the loop is over: respondError 502 *)

Record regState := {
  rg_tasks : list regPc;
  rg_chan : list error;      (* the buffer of relayRespCh, oldest first *)
  rg_got : list error;       (* what the handler has received; i is its length *)
  rg_reply : option reply
}.

Definition reg_init : regState :=
  {| rg_tasks := []; rg_chan := []; rg_got := []; rg_reply := None |}.

Definition rg_setTask (s : regState) (i : nat) (pc : regPc) : regState :=
  {| rg_tasks := <[i := pc]> (rg_tasks s); rg_chan := rg_chan s;
     rg_got := rg_got s; rg_reply := rg_reply s |}.

(** [decodeErr] is the error of [DecodeJSON] on the request body.  The
    channel is made with capacity [len(m.relays)]: a send blocks while the
    buffer holds that many values, a receive while it is empty. *)
Definition reg_step (m : BoostService) (decodeErr : error) (s : regState)
    (e : regEvent) : option regState :=
  let cap := length (m_relays m) in
  match e with
  | GEBadRequest =>
      match decodeErr, rg_reply s with
      | Some msg, None =>
          Some {| rg_tasks := rg_tasks s; rg_chan := rg_chan s; rg_got := rg_got s;
                  rg_reply := Some (respondError StatusBadRequest msg) |}
      | _, _ => None
      end
  | GESpawn =>
      if bool_decide (decodeErr = None) && bool_decide (rg_reply s = None)
         && bool_decide (length (rg_tasks s) < cap)%nat
      then Some {| rg_tasks := rg_tasks s ++ [GSending]; rg_chan := rg_chan s;
                   rg_got := rg_got s; rg_reply := rg_reply s |}
      else None
  | GEReturn i err =>
      match rg_tasks s !! i with
      | Some GSending => Some (rg_setTask s i (GReturned err))
      | _ => None
      end
  | GEPush i =>
      match rg_tasks s !! i with
      | Some (GReturned err) =>
          if bool_decide (length (rg_chan s) < cap)%nat
          then Some {| rg_tasks := <[i := GPushed err]> (rg_tasks s);
                       rg_chan := rg_chan s ++ [err];
                       rg_got := rg_got s; rg_reply := rg_reply s |}
          else None
      | _ => None
      end
  | GEFinish i =>
      match rg_tasks s !! i with
      | Some (GPushed err) => Some (rg_setTask s i (GDone err))
      | _ => None
      end
  | GERecv =>
      if bool_decide (decodeErr = None) && bool_decide (rg_reply s = None)
         && bool_decide (length (rg_tasks s) = cap)
         && bool_decide (length (rg_got s) < cap)%nat
      then
        match rg_chan s with
        | [] => None
        | respErr :: rest =>
            Some {| rg_tasks := rg_tasks s; rg_chan := rest;
                    rg_got := rg_got s ++ [respErr];
                    rg_reply := match respErr with
                                | None => Some (respondOK BodyNil)
                                | Some _ => None
                                end |}
        end
      else None
  | GEGiveUp =>
      if bool_decide (decodeErr = None) && bool_decide (rg_reply s = None)
         && bool_decide (length (rg_tasks s) = cap)
         && bool_decide (length (rg_got s) = cap)
      then Some {| rg_tasks := rg_tasks s; rg_chan := rg_chan s; rg_got := rg_got s;
                   rg_reply := Some (respondError StatusBadGateway
                                       errNoSuccessfulRelayResponse) |}
      else None
  end.

(** The task has sent its result on the channel. *)
Definition rg_pushed (pc : regPc) : nat :=
  match pc with GPushed _ | GDone _ => 1 | _ => 0 end.

(** The task has sent [nil] on the channel. *)
Definition rg_pushedNil (pc : regPc) : nat :=
  match pc with GPushed None | GDone None => 1 | _ => 0 end.

Definition isNil (err : error) : nat :=
  match err with None => 1 | Some _ => 0 end.

Definition rg_remaining (pc : regPc) : nat :=
  match pc with GSending => 3 | GReturned _ => 2 | GPushed _ => 1 | GDone _ => 0 end.

Definition reg_measure (m : BoostService) (s : regState) : nat :=
  sum_list_with rg_remaining (rg_tasks s)
  + 4 * (length (m_relays m) - length (rg_tasks s))
  + (match rg_reply s with
     | Some _ => 0
     | None => S (length (m_relays m) - length (rg_got s))
     end).

Record reg_inv (m : BoostService) (decodeErr : error) (s : regState) : Prop := {
  rgi_spawned : (length (rg_tasks s) <= length (m_relays m))%nat;
  rgi_rejected : decodeErr ≠ None → rg_tasks s = [] ∧ rg_got s = [];
  rgi_sent : (length (rg_got s) + length (rg_chan s))%nat
             = sum_list_with rg_pushed (rg_tasks s);
  rgi_nil : (sum_list_with isNil (rg_got s) + sum_list_with isNil (rg_chan s))%nat
            = sum_list_with rg_pushedNil (rg_tasks s);
  rgi_errors : rg_reply s = None → Forall is_Some (rg_got s);
  rgi_reply : ∀ r, rg_reply s = Some r →
      match decodeErr with
      | Some msg => r = respondError StatusBadRequest msg
      | None =>
          length (rg_tasks s) = length (m_relays m) ∧
          ((r = respondOK BodyNil ∧
            ∃ errs, rg_got s = errs ++ [None] ∧ Forall is_Some errs) ∨
           (r = respondError StatusBadGateway errNoSuccessfulRelayResponse ∧
            length (rg_got s) = length (m_relays m) ∧ Forall is_Some (rg_got s)))
      end
}.

(* ===================================================================== *)
(** * 10. [handleGetPayload]: the race, statement by statement *)
(* ===================================================================== *)

(** Where a payload task is in its code.  From [PLocked] to [PUnlocking] it
    holds [mu].  The later states remember the response the task wrote to
    [*result], if it did. *)
Inductive racePc :=
  | PSending                                   (* inside SendHTTPRequest *)
  | PValidated (a : httpResult GetPayloadResponse)   (* mu.Lock() is next *)
  | PLocked (r : GetPayloadResponse)           (* requestCtx.Err() != nil is next *)
  | PPassed (r : GetPayloadResponse)           (* requestCtxCancel() is next *)
  | PCancelled (r : GetPayloadResponse)        (* *result = *responsePayload is next *)
  | PUnlocking (wrote : option GetPayloadResponse)  (* the deferred mu.Unlock() *)
  | PExiting (wrote : option GetPayloadResponse)    (* the deferred wg.Done() *)
  | PDone (wrote : option GetPayloadResponse).

Inductive raceEvent :=
  | RESpawn                                    (* wg.Add(1); go func(relay) *)
  | REReturn (i : nat) (a : httpResult GetPayloadResponse)
  | RELock (i : nat)
  | RETest (i : nat)
  | RECancel (i : nat)
  | REWrite (i : nat)
  | REUnlock (i : nat)
  | REWgDone (i : nat)
  | REReply.                                   (* after wg.Wait() *)

Record raceState := {
  rs_tasks : list racePc;
  rs_wg : Z;
  rs_mu : bool;                                (* mu is locked *)
  rs_ctx : bool;                               (* requestCtx.Err() != nil *)
  rs_result : GetPayloadResponse;
  rs_arrivals : list (httpResult GetPayloadResponse);
    (* history: the answers, in the order in which their tasks took mu, or
       returned without taking it *)
  rs_reply : option payloadOutcome
}.

Definition race_start : raceState :=
  {| rs_tasks := []; rs_wg := 0; rs_mu := false; rs_ctx := false;
     rs_result := GetPayloadResponse_zero; rs_arrivals := []; rs_reply := None |}.

Definition rs_setTask (s : raceState) (i : nat) (pc : racePc) : raceState :=
  {| rs_tasks := <[i := pc]> (rs_tasks s); rs_wg := rs_wg s; rs_mu := rs_mu s;
     rs_ctx := rs_ctx s; rs_result := rs_result s; rs_arrivals := rs_arrivals s;
     rs_reply := rs_reply s |}.

(** The race for a decoded request [payload]. *)
Definition race_step (m : BoostService) (payload : SignedBlindedBeaconBlock)
    (s : raceState) (e : raceEvent) : option raceState :=
  match e with
  | RESpawn =>
      if bool_decide (rs_reply s = None)
         && bool_decide (length (rs_tasks s) < length (m_relays m))%nat
      then Some {| rs_tasks := rs_tasks s ++ [PSending]; rs_wg := rs_wg s + 1;
                   rs_mu := rs_mu s; rs_ctx := rs_ctx s; rs_result := rs_result s;
                   rs_arrivals := rs_arrivals s; rs_reply := rs_reply s |}
      else None
  | REReturn i a =>
      match rs_tasks s !! i with
      | Some PSending =>
          match checkPayload payload a with
          | inl _ =>
              Some {| rs_tasks := <[i := PExiting None]> (rs_tasks s);
                      rs_wg := rs_wg s; rs_mu := rs_mu s; rs_ctx := rs_ctx s;
                      rs_result := rs_result s;
                      rs_arrivals := rs_arrivals s ++ [a];
                      rs_reply := rs_reply s |}
          | inr _ => Some (rs_setTask s i (PValidated a))
          end
      | _ => None
      end
  | RELock i =>
      match rs_tasks s !! i with
      | Some (PValidated a) =>
          if rs_mu s then None
          else Some {| rs_tasks := <[i := PLocked (http_dst a)]> (rs_tasks s);
                       rs_wg := rs_wg s; rs_mu := true; rs_ctx := rs_ctx s;
                       rs_result := rs_result s;
                       rs_arrivals := rs_arrivals s ++ [a];
                       rs_reply := rs_reply s |}
      | _ => None
      end
  | RETest i =>
      match rs_tasks s !! i with
      | Some (PLocked r) =>
          if rs_ctx s then Some (rs_setTask s i (PUnlocking None))
          else Some (rs_setTask s i (PPassed r))
      | _ => None
      end
  | RECancel i =>
      match rs_tasks s !! i with
      | Some (PPassed r) =>
          Some {| rs_tasks := <[i := PCancelled r]> (rs_tasks s);
                  rs_wg := rs_wg s; rs_mu := rs_mu s; rs_ctx := true;
                  rs_result := rs_result s; rs_arrivals := rs_arrivals s;
                  rs_reply := rs_reply s |}
      | _ => None
      end
  | REWrite i =>
      match rs_tasks s !! i with
      | Some (PCancelled r) =>
          Some {| rs_tasks := <[i := PUnlocking (Some r)]> (rs_tasks s);
                  rs_wg := rs_wg s; rs_mu := rs_mu s; rs_ctx := rs_ctx s;
                  rs_result := r; rs_arrivals := rs_arrivals s;
                  rs_reply := rs_reply s |}
      | _ => None
      end
  | REUnlock i =>
      match rs_tasks s !! i with
      | Some (PUnlocking wrote) =>
          Some {| rs_tasks := <[i := PExiting wrote]> (rs_tasks s);
                  rs_wg := rs_wg s; rs_mu := false; rs_ctx := rs_ctx s;
                  rs_result := rs_result s; rs_arrivals := rs_arrivals s;
                  rs_reply := rs_reply s |}
      | _ => None
      end
  | REWgDone i =>
      match rs_tasks s !! i with
      | Some (PExiting wrote) =>
          Some {| rs_tasks := <[i := PDone wrote]> (rs_tasks s);
                  rs_wg := rs_wg s - 1; rs_mu := rs_mu s; rs_ctx := rs_ctx s;
                  rs_result := rs_result s; rs_arrivals := rs_arrivals s;
                  rs_reply := rs_reply s |}
      | _ => None
      end
  | REReply =>
      match rs_reply s with
      | Some _ => None
      | None =>
          if bool_decide (length (rs_tasks s) = length (m_relays m))
             && bool_decide (rs_wg s = 0)
          then Some {| rs_tasks := rs_tasks s; rs_wg := rs_wg s; rs_mu := rs_mu s;
                       rs_ctx := true;   (* the deferred requestCtxCancel() *)
                       rs_result := rs_result s; rs_arrivals := rs_arrivals s;
                       rs_reply := Some (finishGetPayload m payload (rs_result s)
                                           (m_relays m)) |}
          else None
      end
  end.

(** Weights over the task table. *)
Definition rs_pending (pc : racePc) : nat :=
  match pc with PDone _ => 0 | _ => 1 end.
Definition rs_recorded (pc : racePc) : nat :=
  match pc with PSending | PValidated _ => 0 | _ => 1 end.
Definition rs_atLocked (pc : racePc) : nat :=
  match pc with PLocked _ => 1 | _ => 0 end.
Definition rs_atPassed (pc : racePc) : nat :=
  match pc with PPassed _ => 1 | _ => 0 end.
Definition rs_atCancelled (pc : racePc) : nat :=
  match pc with PCancelled _ => 1 | _ => 0 end.
Definition rs_atUnlockingWinner (pc : racePc) : nat :=
  match pc with PUnlocking (Some _) => 1 | _ => 0 end.
Definition rs_atUnlockingLoser (pc : racePc) : nat :=
  match pc with PUnlocking None => 1 | _ => 0 end.
Definition rs_winnerGone (pc : racePc) : nat :=
  match pc with PExiting (Some _) | PDone (Some _) => 1 | _ => 0 end.
Definition rs_remaining (pc : racePc) : nat :=
  match pc with
  | PSending => 7 | PValidated _ => 6 | PLocked _ => 5 | PPassed _ => 4
  | PCancelled _ => 3 | PUnlocking _ => 2 | PExiting _ => 1 | PDone _ => 0
  end.

(** The task is between [mu.Lock()] and [mu.Unlock()]. *)
Definition rs_holdsMu (pc : racePc) : nat :=
  match pc with
  | PLocked _ | PPassed _ | PCancelled _ | PUnlocking _ => 1
  | _ => 0
  end.

(** The task found the context uncancelled: the response it writes. *)
Definition rs_won (pc : racePc) : option GetPayloadResponse :=
  match pc with
  | PPassed r | PCancelled r => Some r
  | PUnlocking w | PExiting w | PDone w => w
  | _ => None
  end.

(** The weight of a task that found the context uncancelled. *)
Definition rs_wonWeight (pc : racePc) : nat :=
  match rs_won pc with Some _ => 1 | None => 0 end.

(** The task has written [*result]: the response it wrote. *)
Definition rs_wrote (pc : racePc) : option GetPayloadResponse :=
  match pc with
  | PUnlocking w | PExiting w | PDone w => w
  | _ => None
  end.

Definition race_measure (m : BoostService) (s : raceState) : nat :=
  sum_list_with rs_remaining (rs_tasks s)
  + 8 * (length (m_relays m) - length (rs_tasks s))
  + (match rs_reply s with Some _ => 0 | None => 1 end).

(** What a task's position says about the shared state. *)
Definition race_task_ok (payload : SignedBlindedBeaconBlock) (s : raceState)
    (pc : racePc) : Prop :=
  (∀ a, pc = PValidated a → validated payload a) ∧
  (∀ r, pc = PLocked r → r ∈ lockOrder payload (rs_arrivals s)) ∧
  (∀ r, rs_won pc = Some r → head (lockOrder payload (rs_arrivals s)) = Some r) ∧
  (∀ r, rs_wrote pc = Some r → rs_result s = r).

Record race_inv (m : BoostService) (payload : SignedBlindedBeaconBlock)
    (s : raceState) : Prop := {
  rsi_spawned : (length (rs_tasks s) <= length (m_relays m))%nat;
  rsi_wg : rs_wg s = Z.of_nat (sum_list_with rs_pending (rs_tasks s));
  rsi_recorded : length (rs_arrivals s) = sum_list_with rs_recorded (rs_tasks s);
  rsi_mutex :
    (if rs_mu s then 1 else 0)%nat
    = (sum_list_with rs_atLocked (rs_tasks s)
       + sum_list_with rs_atPassed (rs_tasks s)
       + sum_list_with rs_atCancelled (rs_tasks s)
       + sum_list_with rs_atUnlockingWinner (rs_tasks s)
       + sum_list_with rs_atUnlockingLoser (rs_tasks s))%nat;
  rsi_one_winner :
    (sum_list_with rs_atPassed (rs_tasks s)
     + sum_list_with rs_atCancelled (rs_tasks s)
     + sum_list_with rs_atUnlockingWinner (rs_tasks s)
     + sum_list_with rs_winnerGone (rs_tasks s) <= 1)%nat;
  rsi_uncancelled :
    rs_ctx s = false →
    rs_reply s = None ∧
    (sum_list_with rs_atCancelled (rs_tasks s)
     + sum_list_with rs_atUnlockingWinner (rs_tasks s)
     + sum_list_with rs_winnerGone (rs_tasks s) = 0)%nat;
  rsi_cancelled :
    rs_ctx s = true →
    rs_reply s ≠ None ∨
    (0 < sum_list_with rs_atCancelled (rs_tasks s)
         + sum_list_with rs_atUnlockingWinner (rs_tasks s)
         + sum_list_with rs_winnerGone (rs_tasks s))%nat;
  rsi_unwritten :
    (sum_list_with rs_atUnlockingWinner (rs_tasks s)
     + sum_list_with rs_winnerGone (rs_tasks s) = 0)%nat →
    rs_result s = GetPayloadResponse_zero;
  rsi_first :
    lockOrder payload (rs_arrivals s) ≠ [] →
    (0 < sum_list_with rs_atPassed (rs_tasks s)
         + sum_list_with rs_atCancelled (rs_tasks s)
         + sum_list_with rs_atUnlockingWinner (rs_tasks s)
         + sum_list_with rs_winnerGone (rs_tasks s))%nat
    ∨ ((0 < sum_list_with rs_atLocked (rs_tasks s))%nat
       ∧ length (lockOrder payload (rs_arrivals s)) = 1%nat);
  rsi_tasks : Forall (race_task_ok payload s) (rs_tasks s);
  rsi_reply : ∀ out, rs_reply s = Some out →
      sum_list_with rs_pending (rs_tasks s) = 0%nat ∧
      length (rs_tasks s) = length (m_relays m) ∧
      out = finishGetPayload m payload (rs_result s) (m_relays m)
}.

(* ===================================================================== *)
(** * 11. [handleGetHeader]: the auction, statement by statement *)
(* ===================================================================== *)

(** Where a header task is in its code.  From [ALocked] to [AUnlocking] it
    holds [mu]. *)
Inductive auctionPc :=
  | ASending                       (* inside SendHTTPRequest *)
  | AChecked (relay : RelayEntry) (a : httpResult GetHeaderResponse)
      (blockHash : string)         (* mu.Lock() is next *)
  | ALocked (relay : RelayEntry) (a : httpResult GetHeaderResponse)
      (blockHash : string)         (* the update of relays[blockHash] is next *)
  | ARecorded (relay : RelayEntry) (a : httpResult GetHeaderResponse)
      (blockHash : string)         (* the comparison with result is next *)
  | AUnlocking                     (* the deferred mu.Unlock() *)
  | AExiting                       (* the deferred wg.Done() *)
  | ADone.

Inductive auctionEvent :=
  | AESpawn
  | AEReturn (i : nat) (a : httpResult GetHeaderResponse)
  | AELock (i : nat)
  | AERecord (i : nat)
  | AESelect (i : nat) (now : Time)   (* now: what time.Now() reads *)
  | AEUnlock (i : nat)
  | AEWgDone (i : nat)
  | AEReply.                          (* after wg.Wait() *)

Record auctionState := {
  as_tasks : list auctionPc;
  as_wg : Z;
  as_mu : bool;
  as_au : auction;                    (* relays and result *)
  as_arrivals : list arrival;
    (* history: the tasks in the order in which they went through the
       critical section, or returned without entering it *)
  as_reply : option outcome
}.

Definition auction_start : auctionState :=
  {| as_tasks := []; as_wg := 0; as_mu := false; as_au := auction_init;
     as_arrivals := []; as_reply := None |}.

Definition as_setTask (s : auctionState) (i : nat) (pc : auctionPc) : auctionState :=
  {| as_tasks := <[i := pc]> (as_tasks s); as_wg := as_wg s; as_mu := as_mu s;
     as_au := as_au s; as_arrivals := as_arrivals s; as_reply := as_reply s |}.

Section AuctionMachine.

Variable VerifySignature :
  BuilderBid -> Domain -> PublicKey -> Signature -> bool * error.
Variable m : BoostService.

(** The auction for a request that passed the shape checks: its parent hash
    and its parsed slot. *)
Variable parentHashHex : string.
Variable _slot : Z.

Definition auction_step (s : auctionState) (e : auctionEvent)
    : option auctionState :=
  match e with
  | AESpawn =>
      if bool_decide (as_reply s = None)
         && bool_decide (length (as_tasks s) < length (m_relays m))%nat
      then Some {| as_tasks := as_tasks s ++ [ASending]; as_wg := as_wg s + 1;
                   as_mu := as_mu s; as_au := as_au s;
                   as_arrivals := as_arrivals s; as_reply := as_reply s |}
      else None
  | AEReturn i a =>
      match as_tasks s !! i, m_relays m !! i with
      | Some ASending, Some relay =>
          match checkBid VerifySignature m parentHashHex relay a with
          | inl _ =>
              Some {| as_tasks := <[i := AExiting]> (as_tasks s);
                      as_wg := as_wg s; as_mu := as_mu s; as_au := as_au s;
                      as_arrivals := as_arrivals s
                        ++ [{| ar_relay := relay; ar_http := a; ar_now := 0 |}];
                      as_reply := as_reply s |}
          | inr blockHash => Some (as_setTask s i (AChecked relay a blockHash))
          end
      | _, _ => None
      end
  | AELock i =>
      match as_tasks s !! i with
      | Some (AChecked relay a blockHash) =>
          if as_mu s then None
          else Some {| as_tasks := <[i := ALocked relay a blockHash]> (as_tasks s);
                       as_wg := as_wg s; as_mu := true; as_au := as_au s;
                       as_arrivals := as_arrivals s; as_reply := as_reply s |}
      | _ => None
      end
  | AERecord i =>
      match as_tasks s !! i with
      | Some (ALocked relay a blockHash) =>
          Some {| as_tasks := <[i := ARecorded relay a blockHash]> (as_tasks s);
                  as_wg := as_wg s; as_mu := as_mu s;
                  as_au := recordRelay relay blockHash (as_au s);
                  as_arrivals := as_arrivals s; as_reply := as_reply s |}
      | _ => None
      end
  | AESelect i now =>
      match as_tasks s !! i with
      | Some (ARecorded relay a blockHash) =>
          au ← selectBid (http_dst a) blockHash now (as_au s);
          Some {| as_tasks := <[i := AUnlocking]> (as_tasks s);
                  as_wg := as_wg s; as_mu := as_mu s; as_au := au;
                  as_arrivals := as_arrivals s
                    ++ [{| ar_relay := relay; ar_http := a; ar_now := now |}];
                  as_reply := as_reply s |}
      | _ => None
      end
  | AEUnlock i =>
      match as_tasks s !! i with
      | Some AUnlocking =>
          Some {| as_tasks := <[i := AExiting]> (as_tasks s);
                  as_wg := as_wg s; as_mu := false; as_au := as_au s;
                  as_arrivals := as_arrivals s; as_reply := as_reply s |}
      | _ => None
      end
  | AEWgDone i =>
      match as_tasks s !! i with
      | Some AExiting =>
          Some {| as_tasks := <[i := ADone]> (as_tasks s);
                  as_wg := as_wg s - 1; as_mu := as_mu s; as_au := as_au s;
                  as_arrivals := as_arrivals s; as_reply := as_reply s |}
      | _ => None
      end
  | AEReply =>
      match as_reply s with
      | Some _ => None
      | None =>
          if bool_decide (length (as_tasks s) = length (m_relays m))
             && bool_decide (as_wg s = 0)
          then Some {| as_tasks := as_tasks s; as_wg := as_wg s; as_mu := as_mu s;
                       as_au := as_au s; as_arrivals := as_arrivals s;
                       as_reply := Some (finishGetHeader m _slot (as_au s)
                                           (m_relays m)) |}
          else None
      end
  end.

Definition as_pending (pc : auctionPc) : nat :=
  match pc with ADone => 0 | _ => 1 end.
Definition as_atLocked (pc : auctionPc) : nat :=
  match pc with ALocked _ _ _ => 1 | _ => 0 end.
Definition as_atRecorded (pc : auctionPc) : nat :=
  match pc with ARecorded _ _ _ => 1 | _ => 0 end.
Definition as_atUnlocking (pc : auctionPc) : nat :=
  match pc with AUnlocking => 1 | _ => 0 end.

(** The task is between [mu.Lock()] and [mu.Unlock()]. *)
Definition as_holdsMu (pc : auctionPc) : nat :=
  match pc with ALocked _ _ _ | ARecorded _ _ _ | AUnlocking => 1 | _ => 0 end.
Definition as_finished (pc : auctionPc) : nat :=
  match pc with AUnlocking | AExiting | ADone => 1 | _ => 0 end.
Definition as_remaining (pc : auctionPc) : nat :=
  match pc with
  | ASending => 6 | AChecked _ _ _ => 5 | ALocked _ _ _ => 4
  | ARecorded _ _ _ => 3 | AUnlocking => 2 | AExiting => 1 | ADone => 0
  end.

Definition auction_measure (s : auctionState) : nat :=
  sum_list_with as_remaining (as_tasks s)
  + 7 * (length (m_relays m) - length (as_tasks s))
  + (match as_reply s with Some _ => 0 | None => 1 end).

(** What a task's position says: it carries a bid that passed the checks,
    and between its two statements under [mu] the shared state is that of
    the history with the relay recorded. *)
Definition auction_task_ok (s : auctionState) (pc : auctionPc) : Prop :=
  match pc with
  | AChecked relay a h | ALocked relay a h =>
      checkBid VerifySignature m parentHashHex relay a = inr h
  | ARecorded relay a h =>
      checkBid VerifySignature m parentHashHex relay a = inr h ∧
      ∃ au0, runAuction VerifySignature m parentHashHex (as_arrivals s)
               auction_init = Some au0
             ∧ as_au s = recordRelay relay h au0
  | _ => True
  end.

Record auction_machine_inv (s : auctionState) : Prop := {
  asi_spawned : (length (as_tasks s) <= length (m_relays m))%nat;
  asi_wg : as_wg s = Z.of_nat (sum_list_with as_pending (as_tasks s));
  asi_recorded : length (as_arrivals s) = sum_list_with as_finished (as_tasks s);
  asi_mutex :
    (sum_list_with as_atLocked (as_tasks s)
     + sum_list_with as_atRecorded (as_tasks s)
     + sum_list_with as_atUnlocking (as_tasks s))%nat
    = (if as_mu s then 1 else 0)%nat;
  asi_state : sum_list_with as_atRecorded (as_tasks s) = 0%nat →
              runAuction VerifySignature m parentHashHex (as_arrivals s)
                auction_init = Some (as_au s);
  asi_tasks : Forall (auction_task_ok s) (as_tasks s);
  asi_reply : ∀ out, as_reply s = Some out →
      sum_list_with as_pending (as_tasks s) = 0%nat ∧
      length (as_tasks s) = length (m_relays m) ∧
      out = finishGetHeader m _slot (as_au s) (m_relays m)
}.

End AuctionMachine.

(* ===================================================================== *)
(** * 12. The three users of [m.bidsLock] *)
(* ===================================================================== *)

(** The accesses to [m.bids]: the store at the end of [handleGetHeader], the
    load in [handleGetPayload], and the loop of the sweeper.  Each stands in
    the code between [m.bidsLock.Lock()] and [m.bidsLock.Unlock()]. *)
Inductive cacheOp :=
  | OpStore (k : bidRespKey) (r : bidResp)
  | OpLoad (k : bidRespKey)
  | OpSweep (clock : bidRespKey → Time).

(** Where a goroutine is around its access; a load remembers what it read. *)
Inductive cachePc :=
  | CWaiting (op : cacheOp)             (* m.bidsLock.Lock() is next *)
  | CHolding (op : cacheOp)             (* the access is next *)
  | CAccessed (read : option bidResp)   (* m.bidsLock.Unlock() is next *)
  | CReleased.

Inductive cacheEvent :=
  | CEArrive (op : cacheOp)   (* a handler, or the sweeper waking up, gets to its Lock *)
  | CELock (i : nat)
  | CEAccess (i : nat)
  | CEUnlock (i : nat).

Record cacheState := {
  cs_bids : bidCache;
  cs_lock : bool;
  cs_ops : list cachePc;
  cs_done : list cacheOp      (* history: the accesses made, oldest first *)
}.

Definition cache_init (bids : bidCache) : cacheState :=
  {| cs_bids := bids; cs_lock := false; cs_ops := []; cs_done := [] |}.

(** What an access does to the map, and what it reads. *)
Definition applyOp (op : cacheOp) (bids : bidCache) : bidCache :=
  match op with
  | OpStore k r => bids_store bids k r
  | OpLoad _ => bids
  | OpSweep clock => sweep clock bids
  end.

Definition readOp (op : cacheOp) (bids : bidCache) : option bidResp :=
  match op with
  | OpLoad k => Some (bids_load bids k)
  | _ => None
  end.

(** The access itself does not look at the lock: that the accesses exclude
    each other is a property of where they stand in the code. *)
Definition cache_step (s : cacheState) (e : cacheEvent) : option cacheState :=
  match e with
  | CEArrive op =>
      Some {| cs_bids := cs_bids s; cs_lock := cs_lock s;
              cs_ops := cs_ops s ++ [CWaiting op]; cs_done := cs_done s |}
  | CELock i =>
      match cs_ops s !! i with
      | Some (CWaiting op) =>
          if cs_lock s then None
          else Some {| cs_bids := cs_bids s; cs_lock := true;
                       cs_ops := <[i := CHolding op]> (cs_ops s);
                       cs_done := cs_done s |}
      | _ => None
      end
  | CEAccess i =>
      match cs_ops s !! i with
      | Some (CHolding op) =>
          Some {| cs_bids := applyOp op (cs_bids s); cs_lock := cs_lock s;
                  cs_ops := <[i := CAccessed (readOp op (cs_bids s))]> (cs_ops s);
                  cs_done := cs_done s ++ [op] |}
      | _ => None
      end
  | CEUnlock i =>
      match cs_ops s !! i with
      | Some (CAccessed _) =>
          Some {| cs_bids := cs_bids s; cs_lock := false;
                  cs_ops := <[i := CReleased]> (cs_ops s);
                  cs_done := cs_done s |}
      | _ => None
      end
  end.

(** The goroutine is between [Lock()] and [Unlock()]. *)
Definition cs_inside (pc : cachePc) : nat :=
  match pc with CHolding _ | CAccessed _ => 1 | _ => 0 end.

(* ===================================================================== *)
(** * Fixtures: two relays and the bids of one slot *)
(* ===================================================================== *)

Module Fixture.

Definition key1 : PublicKey := replicate 48 x01.
Definition key2 : PublicKey := replicate 48 x02.
Definition R1 : RelayEntry :=
  {| PublicKey_of := key1; RelayEntry_String := "https://relay1.example" |}.
Definition R2 : RelayEntry :=
  {| PublicKey_of := key2; RelayEntry_String := "https://relay2.example" |}.

Definition parent : Hash := replicate 32 x0a.
Definition blockA : Hash := replicate 32 xab.
Definition blockB : Hash := replicate 32 xcd.
Definition txRoot : Root := replicate 32 x11.

(** A verifier that accepts the signatures made of [xff] bytes only. *)
Definition verify (msg : BuilderBid) (d : Domain) (pk : PublicKey)
    (sig : Signature) : bool * error :=
  (bool_decide (sig = replicate 96 xff), None).

Definition service : BoostService :=
  {| m_relays := [R1; R2]; relayCheck := true;
     builderSigningDomain := replicate 32 x00; bids := ∅ |}.

Definition bidOf (key : PublicKey) (block : Hash) (value : U256Str)
    (sig : Signature) : GetHeaderResponse :=
  {| ghr_Version := "bellatrix";
     ghr_Data := Some
       {| Message := Some
            {| Header := Some {| ParentHash := parent; BlockHash := block;
                                 BlockNumber := 7; TransactionsRoot := txRoot |};
               Value := value; Pubkey := key |};
          bid_Signature := sig |} |}.

Definition goodSig : Signature := replicate 96 xff.
Definition badSig : Signature := replicate 96 x00.

Definition arrive (relay : RelayEntry) (r : GetHeaderResponse) (now : Time)
    : arrival :=
  {| ar_relay := relay; ar_http := HttpResult StatusOK None r; ar_now := now |}.

Definition vars : headerVars :=
  {| slot := "42";
     parent_hash := Hash_String parent;
     pubkey := Hash_String (replicate 48 x33) |}.

(** Relay 1 bids 5 for block A, then relay 2 bids 5 for the same block. *)
Definition tie : list arrival :=
  [arrive R1 (bidOf key1 blockA 5%N goodSig) 1000;
   arrive R2 (bidOf key2 blockA 5%N goodSig) 2000].

(** Relay 1 bids 10 under a bad signature, relay 2 bids 1 for block B. *)
Definition oneGood : list arrival :=
  [arrive R1 (bidOf key1 blockA 10%N badSig) 1000;
   arrive R2 (bidOf key2 blockB 1%N goodSig) 2000].

(** A status check in which both relays answer before either task gets to
    [cancel()]. *)
Definition statusRun : list statusEvent :=
  [SESpawn; SESpawn;
   SEReturn 0 None; SEReturn 1 None;
   SETest 0; SETest 1; SEAdd 0; SEAdd 1].

Definition statusRunToEnd : list statusEvent :=
  statusRun ++ [SECancel 0; SECancel 1; SEWgDone 0; SEWgDone 1; SEReply].

(** A status check in which relay 1 answers, the context is cancelled, and
    the request to relay 2 fails for that reason. *)
Definition statusRunCancelled : list statusEvent :=
  [SESpawn; SESpawn;
   SEReturn 0 None; SETest 0; SEAdd 0; SECancel 0;
   SEReturn 1 (Some "context canceled"); SETest 1; SEAdd 1].

(** A registration: relay 1 fails, relay 2 succeeds; the handler replies
    while the first task has not returned yet. *)
Definition registerRun : list regEvent :=
  [GESpawn; GESpawn;
   GEReturn 1 None; GEPush 1; GERecv;
   GEReturn 0 (Some "timeout"); GEPush 0; GEFinish 0; GEFinish 1].

(** A payload request for block A, and the answers of the relays. *)
Definition blinded : SignedBlindedBeaconBlock :=
  {| sbb_Slot := 42; sbb_BlockHash := blockA; sbb_Signature := goodSig |}.

Definition payloadOf (block : Hash) : httpResult GetPayloadResponse :=
  HttpResult StatusOK None
    {| gpr_Version := "bellatrix";
       gpr_Data := Some {| ep_ParentHash := parent; ep_BlockHash := block;
                           ep_BlockNumber := 7 |} |}.

(** Both relays deliver the payload; the task of relay 2 takes the mutex
    first, the task of relay 1 finds the context cancelled. *)
Definition raceRun : list raceEvent :=
  [RESpawn; RESpawn;
   REReturn 0 (payloadOf blockA); REReturn 1 (payloadOf blockA);
   RELock 1; RETest 1; RECancel 1; REWrite 1; REUnlock 1;
   RELock 0; RETest 0; REUnlock 0;
   REWgDone 0; REWgDone 1; REReply].

(** The network of a relay check in which the second relay is down. *)
Definition secondFails (i : nat) : error :=
  if decide (i = 1)%nat then Some "timeout" else None.

(** A request whose slot and pubkey are both malformed. *)
Definition badVars : headerVars :=
  {| slot := "x"; parent_hash := Hash_String parent; pubkey := "0x00" |}.

(** The cache after the auction [oneGood], and a store racing a sweep. *)
Definition stored : bidResp :=
  {| t := 2000; response := bidOf key2 blockB 1%N goodSig;
     blockHash := Hash_String blockB; relays := ["https://relay2.example"] |}.

Definition cacheRun : list cacheEvent :=
  [CEArrive (OpStore (42, Hash_String blockB) stored);
   CEArrive (OpSweep (λ _, 2000 + 4 * Minute));
   CELock 0; CEAccess 0; CEUnlock 0;
   CELock 1; CEAccess 1].

(** The auction [tie] under way: the task of relay 1 holds the mutex, the
    task of relay 2 has not returned yet. *)
Definition auctionRun : list auctionEvent :=
  [AESpawn; AESpawn;
   AEReturn 0 (HttpResult StatusOK None (bidOf key1 blockA 5%N goodSig));
   AELock 0].

Definition auctionMid : auctionState :=
  Eval vm_compute in
    default auction_start
      (run (auction_step verify service (Hash_String parent) 42) auction_start
         auctionRun).

(** The states these interleavings lead to. *)
Definition statusMid : statusState :=
  Eval vm_compute in
    default status_init (run (status_step service) status_init statusRun).

Definition statusEnd : statusState :=
  Eval vm_compute in
    default status_init (run (status_step service) status_init statusRunToEnd).

Definition registerEnd : regState :=
  Eval vm_compute in
    default reg_init (run (reg_step service None) reg_init registerRun).

Definition raceEnd : raceState :=
  Eval vm_compute in
    default race_start (run (race_step service blinded) race_start raceRun).

Definition cacheMid : cacheState :=
  Eval vm_compute in
    default (cache_init ∅) (run cache_step (cache_init ∅) cacheRun).

End Fixture.

(* ===================================================================== *)
(** * 13. [NewBoostService] and [StartHTTPServer] *)
(* ===================================================================== *)

(** [BoostServiceOpts], without its logger. *)
Record BoostServiceOpts := {
  ListenAddr : string;
  Relays : list RelayEntry;
  GenesisForkVersionHex : string;
  RelayRequestTimeout : Duration;
  RelayCheck : bool
}.

(** [types.DomainType] and [types.DomainTypeAppBuilder] of go-boost-utils. *)
Definition DomainType := list byte.
Definition DomainTypeAppBuilder : DomainType := [x00; x00; x00; x01].

(** [http.Server], reduced to its address: its handler comes from
    [getRouter] and its limits from the [config] package. *)
Record httpServer := { Addr : string }.

(** The whole [BoostService] struct: the fields the handlers read, and
    [listenAddr], the timeout of [httpClient] and [srv]. *)
Record serviceInstance := {
  svc : BoostService;
  listenAddr : string;
  httpClient_Timeout : Duration;
  srv : option httpServer
}.

Section NewBoostService.

(** [ComputeDomain] of the repository's utilities: a domain and an error. *)
Variable ComputeDomain : DomainType → string → string → Domain * error.

(** [NewBoostService]: the error text, or the new service. *)
Definition NewBoostService (opts : BoostServiceOpts) : string + serviceInstance :=
  if bool_decide (length (Relays opts) = 0%nat) then inl "no relays" else
  let '(domain, err) :=
    ComputeDomain DomainTypeAppBuilder (GenesisForkVersionHex opts)
      (Hash_String (replicate 32 x00)) in
  match err with
  | Some e => inl e
  | None =>
      inr {| svc := {| m_relays := Relays opts;
                       relayCheck := RelayCheck opts;
                       builderSigningDomain := domain;
                       bids := ∅ |};
             listenAddr := ListenAddr opts;
             httpClient_Timeout := RelayRequestTimeout opts;
             srv := None |}
  end.

End NewBoostService.

(** [http.ErrServerClosed] and [errServerAlreadyRunning]: errors are told
    apart by their text. *)
Definition ErrServerClosed : string := "http: Server closed".
Definition errServerAlreadyRunning : string := "server already running".

(** Where a call of [StartHTTPServer] is in its code. *)
Inductive startPc :=
  | HTesting                  (* if m.srv != nil is next *)
  | HSpawning                 (* go m.startBidCacheCleanupTask() is next *)
  | HAssigning                (* m.srv = &http.Server{...} is next *)
  | HListening                (* inside m.srv.ListenAndServe() *)
  | HReturned (listened : bool) (err : error).
      (* it returned err, after ListenAndServe or without calling it *)

Inductive startEvent :=
  | HECall                              (* a call of m.StartHTTPServer() begins *)
  | HETest (i : nat)
  | HEGo (i : nat)
  | HEAssign (i : nat)
  | HEListenReturns (i : nat) (err : error).  (* ListenAndServe returns err *)

Record startState := {
  ss_srv : option httpServer;     (* m.srv *)
  ss_sweepers : nat;              (* goroutines running startBidCacheCleanupTask *)
  ss_calls : list startPc
}.

Definition start_init : startState :=
  {| ss_srv := None; ss_sweepers := 0; ss_calls := [] |}.

Definition ss_setCall (s : startState) (i : nat) (pc : startPc) : startState :=
  {| ss_srv := ss_srv s; ss_sweepers := ss_sweepers s;
     ss_calls := <[i := pc]> (ss_calls s) |}.

(** The calls of [StartHTTPServer] on a service whose address is
    [listenAddr], statement by statement. *)
Definition start_step (listenAddr : string) (s : startState) (e : startEvent)
    : option startState :=
  match e with
  | HECall =>
      Some {| ss_srv := ss_srv s; ss_sweepers := ss_sweepers s;
              ss_calls := ss_calls s ++ [HTesting] |}
  | HETest i =>
      match ss_calls s !! i with
      | Some HTesting =>
          match ss_srv s with
          | Some _ =>
              Some (ss_setCall s i (HReturned false (Some errServerAlreadyRunning)))
          | None => Some (ss_setCall s i HSpawning)
          end
      | _ => None
      end
  | HEGo i =>
      match ss_calls s !! i with
      | Some HSpawning =>
          Some {| ss_srv := ss_srv s; ss_sweepers := S (ss_sweepers s);
                  ss_calls := <[i := HAssigning]> (ss_calls s) |}
      | _ => None
      end
  | HEAssign i =>
      match ss_calls s !! i with
      | Some HAssigning =>
          Some {| ss_srv := Some {| Addr := listenAddr |};
                  ss_sweepers := ss_sweepers s;
                  ss_calls := <[i := HListening]> (ss_calls s) |}
      | _ => None
      end
  | HEListenReturns i err =>
      match ss_calls s !! i with
      | Some HListening =>
          if bool_decide (err = Some ErrServerClosed)
          then Some (ss_setCall s i (HReturned true None))
          else Some (ss_setCall s i (HReturned true err))
      | _ => None
      end
  end.

(** The call found [m.srv] nil and has started its sweeper. *)
Definition ss_started (pc : startPc) : nat :=
  match pc with HAssigning | HListening | HReturned true _ => 1 | _ => 0 end.

(** The call is between its test of [m.srv] and its assignment to it. *)
Definition ss_window (pc : startPc) : nat :=
  match pc with HSpawning | HAssigning => 1 | _ => 0 end.

(** The call has assigned [m.srv]. *)
Definition ss_assigned (pc : startPc) : nat :=
  match pc with HListening | HReturned true _ => 1 | _ => 0 end.

(** The call was turned away. *)
Definition ss_refused (pc : startPc) : Prop :=
  pc = HTesting ∨ pc = HReturned false (Some errServerAlreadyRunning).

(* ===================================================================== *)
(** * 14. Measures used in the further properties *)
(* ===================================================================== *)

(** [m] once [m.bids] has become [b]. *)
Definition withBids (m : BoostService) (b : bidCache) : BoostService :=
  {| m_relays := m_relays m; relayCheck := relayCheck m;
     builderSigningDomain := builderSigningDomain m; bids := b |}.

(** The value of the bid a reply carries, if it carries one. *)
Definition replyValue (r : reply) : option U256Str :=
  match body r with
  | BodyHeader h => valueOf h
  | _ => None
  end.

(** The value of the bid held in [result], 0 while there is none. *)
Definition resultValue (au : auction) : U256Str :=
  default 0%N (valueOf (response (au_result au))).

(** The status task has executed [cancel()] after a request that returned
    no error. *)
Definition st_cancelledOk (pc : statusPc) : nat :=
  match pc with SExiting true None | SDone true None => 1 | _ => 0 end.

(** The status task took the success path although its request returned an
    error. *)
Definition st_passedErr (pc : statusPc) : nat :=
  match pc with
  | SAdding (Some _) | SCancelling (Some _) | SExiting true (Some _)
  | SDone true (Some _) => 1
  | _ => 0
  end.

(** While a status check is under way the context is only cancelled by a
    task whose request returned no error, and a task whose request failed
    is on the success path only once such a task has cancelled. *)
Definition status_cancel_inv (s : statusState) : Prop :=
  (st_ctx s = true → st_reply s = None →
   (0 < sum_list_with st_cancelledOk (st_tasks s))%nat) ∧
  ((0 < sum_list_with st_passedErr (st_tasks s))%nat →
   (0 < sum_list_with st_cancelledOk (st_tasks s))%nat).

(** The shared state of one auction has grown from [au] to [au']: the value
    of the bid held is no lower, and every list of relays is extended. *)
Definition auction_le (au au' : auction) : Prop :=
  (resultValue au <= resultValue au')%N ∧
  ∀ h l, au_relays au !! h = Some l → ∃ l', au_relays au' !! h = Some (l ++ l').

(** The relay a header task carries once its bid has passed the checks. *)
Definition taskRelay (pc : auctionPc) : option RelayEntry :=
  match pc with
  | AChecked relay _ _ | ALocked relay _ _ | ARecorded relay _ _ => Some relay
  | _ => None
  end.

(** The relays whose task has accounted for its answer: it has been
    through the critical section or has returned without entering it. *)
Fixpoint accounted (tasks : list auctionPc) (relays : list RelayEntry)
    : list RelayEntry :=
  match tasks, relays with
  | pc :: tasks', relay :: relays' =>
      if bool_decide (as_finished pc = 1%nat)
      then relay :: accounted tasks' relays'
      else accounted tasks' relays'
  | _, _ => []
  end.

(** A task carries the relay of its place in [m.relays], and the relays of
    the history are those of the tasks that have accounted for their
    answer. *)
Definition relays_inv (m : BoostService) (s : auctionState) : Prop :=
  (∀ i pc relay, as_tasks s !! i = Some pc → taskRelay pc = Some relay →
                 m_relays m !! i = Some relay) ∧
  ar_relay <$> as_arrivals s ≡ₚ accounted (as_tasks s) (m_relays m).

(** A sweeper that is never late: it wakes up on time and takes no time
    over the loop. *)
Definition punctual (tk : tick) : Prop :=
  tk_late tk = 0%N ∧ tk_busy tk = 0%N ∧ ∀ k, tk_visit tk k = 0%N.

(* ===================================================================== *)
(** * Scenarios for the further properties *)
(* ===================================================================== *)

Module Scenario.

(** The request of [Fixture.vars] with the parent hash in upper case. *)
Definition upperVars : headerVars :=
  {| slot := "42";
     parent_hash :=
       "0x0A0A0A0A0A0A0A0A0A0A0A0A0A0A0A0A0A0A0A0A0A0A0A0A0A0A0A0A0A0A0A0A";
     pubkey := Hash_String (replicate 48 x33) |}.

(** A slot one above the largest unsigned 64-bit number. *)
Definition lateVars : headerVars :=
  {| slot := "18446744073709551616";
     parent_hash := Hash_String Fixture.parent;
     pubkey := Hash_String (replicate 48 x33) |}.

(** [Fixture.tie] with the tasks taking the mutex in the other order. *)
Definition tieSwapped : list arrival :=
  [Fixture.arrive Fixture.R2
     (Fixture.bidOf Fixture.key2 Fixture.blockA 5%N Fixture.goodSig) 2000;
   Fixture.arrive Fixture.R1
     (Fixture.bidOf Fixture.key1 Fixture.blockA 5%N Fixture.goodSig) 1000].

(** The outcome of the auction [Fixture.oneGood]. *)
Definition oneGoodOutcome : outcome :=
  {| out_reply :=
       respondOK (BodyHeader
         (Fixture.bidOf Fixture.key2 Fixture.blockB 1%N Fixture.goodSig));
     out_bids := <[(42, Hash_String Fixture.blockB) := Fixture.stored]> ∅;
     out_contacted := [Fixture.R1; Fixture.R2] |}.

(** The payload request for block B, and relays that do not deliver. *)
Definition blindedB : SignedBlindedBeaconBlock :=
  {| sbb_Slot := 42; sbb_BlockHash := Fixture.blockB;
     sbb_Signature := Fixture.goodSig |}.

Definition withholding : list (httpResult GetPayloadResponse) :=
  [HttpResult 0 (Some "timeout") GetPayloadResponse_zero;
   Fixture.payloadOf Fixture.blockA].

(** A payload request for the zero hash. *)
Definition blindedZero : SignedBlindedBeaconBlock :=
  {| sbb_Slot := 42; sbb_BlockHash := nilHash; sbb_Signature := Fixture.goodSig |}.

Definition zeroAnswers : list (httpResult GetPayloadResponse) :=
  [Fixture.payloadOf nilHash; Fixture.payloadOf Fixture.blockA].

(** A service without relays. *)
Definition noRelays : BoostService :=
  {| m_relays := []; relayCheck := true;
     builderSigningDomain := replicate 32 x00; bids := ∅ |}.

(** A sweeper iteration that is on time. *)
Definition onTime : tick :=
  {| tk_late := 0; tk_visit := λ _, 0%N; tk_busy := 0 |}.

Definition cacheB : bidCache :=
  {[ (42, Hash_String Fixture.blockB) := Fixture.stored ]}.

(** The status check of [Fixture.statusRunCancelled], up to the increment
    by the task whose request failed. *)
Definition statusCancelled : statusState :=
  Eval vm_compute in
    default status_init
      (run (status_step Fixture.service) status_init Fixture.statusRunCancelled).

(** A start of the server that cannot listen, and a second attempt. *)
Definition startRun : list startEvent :=
  [HECall; HETest 0; HEGo 0; HEAssign 0;
   HEListenReturns 0 (Some "listen tcp :18550: bind: address already in use")].

Definition startFailed : startState :=
  Eval vm_compute in
    default start_init (run (start_step ":18550") start_init startRun).

Definition startAgain : list startEvent := [HECall; HETest 1].

(** Options for a new service, and a domain computation that succeeds. *)
Definition opts : BoostServiceOpts :=
  {| ListenAddr := ":18550"; Relays := [Fixture.R1; Fixture.R2];
     GenesisForkVersionHex := "0x00000000";
     RelayRequestTimeout := 2000000000; RelayCheck := true |}.

Definition computeDomain (d : DomainType) (fork root : string) : Domain * error :=
  (replicate 32 x00, None).

(** The auction [Fixture.oneGood] from the first task spawned to the reply
    of the handler. *)
Definition auctionToEnd : list auctionEvent :=
  [AESpawn; AESpawn;
   AEReturn 1 (HttpResult StatusOK None
                 (Fixture.bidOf Fixture.key2 Fixture.blockB 1%N Fixture.goodSig));
   AEReturn 0 (HttpResult StatusOK None
                 (Fixture.bidOf Fixture.key1 Fixture.blockA 10%N Fixture.badSig));
   AELock 1; AERecord 1; AESelect 1 2000; AEUnlock 1;
   AEWgDone 0; AEWgDone 1; AEReply].

(** The registration of [Fixture.registerRun] at the moment the handler has
    replied: the task of relay 1 is still waiting for its relay. *)
Definition registerEarly : list regEvent :=
  [GESpawn; GESpawn; GEReturn 1 None; GEPush 1; GERecv].

Definition registerReplied : regState :=
  Eval vm_compute in
    default reg_init (run (reg_step Fixture.service None) reg_init registerEarly).

End Scenario.

(* ===================================================================== *)
(** * Properties *)
(* ===================================================================== *)

Lemma Hash_String_nonempty h : Hash_String h ≠ "".
Proof. unfold Hash_String. simpl. discriminate. Qed.

Lemma U256Str_String_zero v : U256Str_String v = "0" ↔ v = 0%N.
Proof.
  unfold U256Str_String. split.
  - intros H. apply (inj (pretty : N → string)). exact H.
  - intros ->. reflexivity.
Qed.

Lemma U256Str_Cmp_lt1 a b : (U256Str_Cmp a b <? 1) = true ↔ (a <= b)%N.
Proof.
  unfold U256Str_Cmp. destruct (N.compare_spec a b); rewrite Z.ltb_lt; lia.
Qed.

Section AuctionProofs.

Variable VerifySignature :
  BuilderBid -> Domain -> PublicKey -> Signature -> bool * error.
Variable m : BoostService.
Variable p : string.

Lemma checkBid_inr a h :
  checkBid VerifySignature m p (ar_relay a) (ar_http a) = inr h
  ↔ passedChecks VerifySignature m p a h.
Proof.
  unfold checkBid. split.
  - intros H.
    destruct (http_err (ar_http a)) eqn:He; [done|].
    case_bool_decide as Hc; [done|].
    destruct (ghr_Data (http_dst (ar_http a))) as [data|] eqn:Hd; [|done].
    destruct (Message data) as [msg|] eqn:Hm; [|done].
    destruct (Header msg) as [header|] eqn:Hh; [|done].
    case_bool_decide as Hb; [done|].
    case_bool_decide as Hk; [done|].
    destruct (VerifySignature _ _ _ _) as [ok err] eqn:Hv.
    destruct err; [done|]. destruct ok; [|done]. simpl in H.
    case_bool_decide as Hp; [done|].
    destruct (bool_decide (U256Str_String (Value msg) = "0")) eqn:Hz; [done|].
    destruct (bool_decide (Hash_String (TransactionsRoot header) = emptyTxRoot))
      eqn:Ht; [done|].
    simpl in H. injection H as <-.
    apply bool_decide_eq_false in Hz, Ht.
    exists data, msg, header.
    assert (Pubkey msg = PublicKey_of (ar_relay a))
      by (destruct (decide (PublicKey_of (ar_relay a) = Pubkey msg)); [done|by destruct Hk]).
    assert (Hash_String (ParentHash header) = p)
      by (destruct (decide (Hash_String (ParentHash header) = p)); [done|by destruct Hp]).
    assert (Value msg ≠ 0%N) by (by rewrite <- U256Str_String_zero).
    repeat split; done.
  - intros (data & msg & header & He & Hc & Hd & Hm & Hh & Hb & -> & Hk & Hv
            & Hp & Hz & Ht).
    rewrite He. rewrite bool_decide_eq_false_2 by done.
    rewrite Hd, Hm, Hh. rewrite bool_decide_eq_false_2 by done.
    rewrite bool_decide_eq_false_2 by (intros Hn; apply Hn; done).
    rewrite Hv. simpl.
    rewrite bool_decide_eq_false_2 by (intros Hn; apply Hn; done).
    rewrite (bool_decide_eq_false_2 (U256Str_String _ = _))
      by (by rewrite U256Str_String_zero).
    rewrite bool_decide_eq_false_2 by done. done.
Qed.

Lemma accepted_inr a : accepted VerifySignature m p a ↔
  ∃ h, checkBid VerifySignature m p (ar_relay a) (ar_http a) = inr h.
Proof.
  unfold accepted. destruct (checkBid _ _ _ _ _) as [d|h]; simpl.
  - split; [done|]. by intros [h Hh].
  - split; [eauto|done].
Qed.

Lemma accepted_value a :
  accepted VerifySignature m p a →
  valueOf (http_dst (ar_http a)) = Some (bidValue a) ∧ bidValue a ≠ 0%N
  ∧ ghr_Data (http_dst (ar_http a)) ≠ None
  ∧ bidHash VerifySignature m p a ≠ "".
Proof.
  intros [h Hh]%accepted_inr. unfold bidHash, bidValue. rewrite Hh.
  apply checkBid_inr in Hh as (data & msg & header & _ & _ & Hd & Hm & _ & _
    & -> & _ & _ & _ & Hz & _).
  unfold valueOf. rewrite Hd. simpl. rewrite Hm. simpl.
  split_and!; first [done | apply Hash_String_nonempty].
Qed.

Lemma acceptedBids_all l :
  Forall (λ a, accepted VerifySignature m p a) (acceptedBids VerifySignature m p l).
Proof.
  unfold acceptedBids. apply Forall_forall. intros a Ha.
  by apply list_elem_of_filter in Ha as [Ha _].
Qed.

Lemma runAuction_app l1 l2 st :
  runAuction VerifySignature m p (l1 ++ l2) st
  = runAuction VerifySignature m p l1 st ≫= runAuction VerifySignature m p l2.
Proof.
  revert st. induction l1 as [|a l1 IH]; intros st; simpl; [done|].
  destruct (relayTask _ _ _ a st) as [st'|]; simpl; [apply IH|done].
Qed.

Lemma deliveredBy_snoc acc x h :
  deliveredBy VerifySignature m p (acc ++ [x]) h
  = deliveredBy VerifySignature m p acc h
    ++ (if decide (bidHash VerifySignature m p x = h)
        then [RelayEntry_String (ar_relay x)] else []).
Proof.
  unfold deliveredBy. rewrite filter_app, fmap_app. f_equal.
  destruct (decide _) as [Heq|Hne].
  - by rewrite filter_cons_True, filter_nil.
  - by rewrite filter_cons_False, filter_nil.
Qed.

Lemma firstHighest_snoc_keep acc a x :
  firstHighest acc a → (bidValue x <= bidValue a)%N → firstHighest (acc ++ [x]) a.
Proof.
  intros (pre & post & -> & Hpre & Hpost) Hle.
  exists pre, (post ++ [x]). split_and!.
  - by rewrite <- app_assoc.
  - done.
  - apply Forall_app. split; [done|]. by apply Forall_singleton.
Qed.

Lemma firstHighest_snoc_take acc a x :
  firstHighest acc a → (bidValue a < bidValue x)%N → firstHighest (acc ++ [x]) x.
Proof.
  intros (pre & post & -> & Hpre & Hpost) Hlt.
  exists (pre ++ a :: post), []. split_and!; [done| |done].
  apply Forall_app. split.
  - eapply Forall_impl; [exact Hpre|]. simpl. intros; lia.
  - apply Forall_cons. split; [done|].
    eapply Forall_impl; [exact Hpost|]. simpl. intros; lia.
Qed.

(** The step of the invariant: an accepted bid goes through the critical
    section without a nil dereference and keeps [auction_inv]. *)
Lemma criticalSection_inv acc x h st :
  Forall (λ a, accepted VerifySignature m p a) acc →
  checkBid VerifySignature m p (ar_relay x) (ar_http x) = inr h →
  auction_inv VerifySignature m p acc st →
  ∃ st', criticalSection (ar_relay x) (http_dst (ar_http x)) h (ar_now x) st
           = Some st'
         ∧ auction_inv VerifySignature m p (acc ++ [x]) st'.
Proof.
  intros Hall Hx (Hrel & Hnil & Hbest).
  assert (Hacc : accepted VerifySignature m p x) by (apply accepted_inr; eauto).
  destruct (accepted_value x Hacc) as (Hvx & _ & _ & _).
  assert (Hbh : bidHash VerifySignature m p x = h) by (unfold bidHash; by rewrite Hx).
  assert (Hrel' : ∀ relays', relays' =
      match au_relays st !! h with
      | Some l => <[h:=l ++ [RelayEntry_String (ar_relay x)]]> (au_relays st)
      | None => <[h:=[RelayEntry_String (ar_relay x)]]> (au_relays st)
      end →
      ∀ h', default [] (relays' !! h')
            = deliveredBy VerifySignature m p (acc ++ [x]) h').
  { intros relays' -> h'. rewrite deliveredBy_snoc, <- Hrel, Hbh.
    destruct (decide (h = h')) as [<-|Hne].
    - destruct (au_relays st !! h); by rewrite lookup_insert_eq.
    - rewrite app_nil_r.
      destruct (au_relays st !! h); by rewrite lookup_insert_ne. }
  unfold criticalSection, selectBid, recordRelay. simpl.
  destruct acc as [|a0 acc0].
  - rewrite Hbest. simpl. eexists. split; [done|].
    split_and!; [by apply Hrel'|done|]. simpl.
    exists x. split_and!; try done. exists [], []. by split_and!.
  - destruct Hbest as (a & Hfh & Hresp & Hhash & Htime).
    assert (Ha : accepted VerifySignature m p a).
    { destruct Hfh as (pre & post & Heq & _). rewrite Heq in Hall.
      apply Forall_app in Hall as [_ Hall]. by apply Forall_cons in Hall as [? _]. }
    destruct (accepted_value a Ha) as (Hva & _ & Hda & _).
    rewrite Hresp. destruct (ghr_Data (http_dst (ar_http a))) eqn:Hd; [|done].
    rewrite Hvx, Hva. simpl.
    destruct (U256Str_Cmp (bidValue x) (bidValue a) <? 1) eqn:Hcmp.
    + apply U256Str_Cmp_lt1 in Hcmp. eexists. split; [done|].
      split_and!; [by apply Hrel'|done|]. simpl.
      exists a. split_and!; try done. by apply (firstHighest_snoc_keep (a0 :: acc0)).
    + assert (bidValue a < bidValue x)%N.
      { destruct (N.le_gt_cases (bidValue x) (bidValue a)) as [Hle|Hgt]; [|lia].
        apply U256Str_Cmp_lt1 in Hle. congruence. }
      eexists. split; [done|].
      split_and!; [by apply Hrel'|done|]. simpl.
      exists x. split_and!; try done. by apply (firstHighest_snoc_take (a0 :: acc0) a).
Qed.

Lemma runAuction_inv l :
  ∃ st, runAuction VerifySignature m p l auction_init = Some st
        ∧ auction_inv VerifySignature m p (acceptedBids VerifySignature m p l) st.
Proof.
  induction l as [|x l IH] using rev_ind.
  - exists auction_init. split; [done|]. by split_and!.
  - destruct IH as (st & Hrun & Hinv).
    rewrite runAuction_app, Hrun. simpl. unfold relayTask, acceptedBids.
    rewrite filter_app.
    destruct (checkBid VerifySignature m p (ar_relay x) (ar_http x)) as [d|h] eqn:Hx.
    + exists st. split; [done|].
      rewrite filter_cons_False, filter_nil, app_nil_r; [done|].
      unfold accepted. rewrite Hx. simpl. tauto.
    + rewrite filter_cons_True, filter_nil by (unfold accepted; rewrite Hx; simpl; tauto).
      destruct (criticalSection_inv _ x h st (acceptedBids_all l) Hx Hinv)
        as (st' & Hcs & Hinv').
      exists st'. split; [|done]. by rewrite Hcs.
Qed.

Lemma runAuction_runCritical l st :
  runAuction VerifySignature m p l st
  = runCritical VerifySignature m p (acceptedBids VerifySignature m p l) st.
Proof.
  revert st. induction l as [|a l IH]; intros st; [done|].
  simpl. unfold acceptedBids, relayTask.
  destruct (checkBid VerifySignature m p (ar_relay a) (ar_http a)) as [d|h] eqn:Ha.
  - rewrite filter_cons_False by (unfold accepted; rewrite Ha; simpl; tauto).
    simpl. apply IH.
  - rewrite filter_cons_True by (unfold accepted; rewrite Ha; simpl; tauto).
    simpl. unfold bidHash at 1. rewrite Ha.
    destruct (criticalSection _ _ _ _ _) as [st'|]; simpl; [apply IH|done].
Qed.

Lemma handleGetHeader_valid vars _slot arrivals :
  validVars vars _slot →
  handleGetHeader VerifySignature m vars arrivals
  = st ← runAuction VerifySignature m (parent_hash vars) arrivals auction_init;
    Some (finishGetHeader m _slot st (m_relays m)).
Proof.
  intros (Hs & Hp & Hh). unfold handleGetHeader. rewrite Hs.
  rewrite bool_decide_eq_false_2 by (intros Hn; by apply Hn).
  rewrite bool_decide_eq_false_2 by (intros Hn; by apply Hn). done.
Qed.

End AuctionProofs.


(** ** [strconv.ParseUint] *)

Lemma digitOf_range c d : digitOf c = Some d → 0 <= d <= 9.
Proof.
  unfold digitOf. destruct (_ && _) eqn:H; [|done].
  apply andb_true_iff in H as [H1 H2]. intros [= <-]. lia.
Qed.

Lemma decimalValue_ge cs n :
  0 <= n → Forall (λ c, is_Some (digitOf c)) cs → n <= decimalValue cs n.
Proof.
  revert n. induction cs as [|c cs IH]; intros n Hn Hall; simpl; [lia|].
  apply Forall_cons in Hall as [[d Hd] Hall]. rewrite Hd. simpl.
  pose proof (digitOf_range _ _ Hd).
  etrans; [|apply IH; [lia|done]]. lia.
Qed.

Lemma parseUintLoop_spec cs n v :
  0 <= n <= maxUint64 →
  parseUintLoop cs n = inr v
  ↔ Forall (λ c, is_Some (digitOf c)) cs ∧ v = decimalValue cs n ∧ v <= maxUint64.
Proof.
  revert n. induction cs as [|c cs IH]; intros n Hn; simpl.
  - split.
    + intros [= <-]. split_and!; [constructor|done|lia].
    + intros (_ & -> & _). done.
  - destruct (digitOf c) as [d|] eqn:Hd; simpl.
    2:{ split; [done|]. intros (Hall & _). apply Forall_cons in Hall as [[? ?] _].
        congruence. }
    pose proof (digitOf_range _ _ Hd) as Hr.
    unfold maxUint64, wrap64 in *.
    destruct (_ <=? n) eqn:Hcut.
    { apply Z.leb_le in Hcut. split; [done|].
      intros (Hall & -> & Hle). apply Forall_cons in Hall as [_ Hall].
      pose proof (decimalValue_ge cs (n * 10 + d) ltac:(lia) Hall). exfalso.
      assert (2 ^ 64 - 1 = 18446744073709551615) as Hm by reflexivity.
      rewrite Hm in *. change (18446744073709551615 / 10) with 1844674407370955161 in Hcut.
      lia. }
    apply Z.leb_gt in Hcut.
    assert (2 ^ 64 = 18446744073709551616) as Hp by reflexivity.
    rewrite Hp in *.
    change ((18446744073709551616 - 1) / 10) with 1844674407370955161 in Hcut.
    rewrite (Z.mod_small (n * 10)) by lia.
    destruct (decide (n * 10 + d < 18446744073709551616)) as [Hfit|Hover].
    + rewrite (Z.mod_small (n * 10 + d)) by lia.
      replace (n * 10 + d <? n * 10) with false by (symmetry; apply Z.ltb_ge; lia).
      replace (18446744073709551616 - 1 <? n * 10 + d) with false
        by (symmetry; apply Z.ltb_ge; lia).
      simpl. rewrite IH by lia. rewrite Forall_cons. split.
      * intros (? & ? & ?). split_and!; [eauto|done|done|done].
      * intros ((_ & ?) & ? & ?). done.
    + assert (n * 10 + d - 18446744073709551616 < n * 10) by lia.
      replace ((n * 10 + d) mod 18446744073709551616)
        with (n * 10 + d - 18446744073709551616).
      2:{ apply Z.mod_unique with 1; lia. }
      replace (n * 10 + d - 18446744073709551616 <? n * 10) with true
        by (symmetry; apply Z.ltb_lt; lia).
      simpl. split; [done|].
      intros (Hall & -> & Hle). apply Forall_cons in Hall as [_ Hall].
      pose proof (decimalValue_ge cs (n * 10 + d) ltac:(lia) Hall). lia.
Qed.

Lemma ParseUint_spec s n : ParseUint s = inr n ↔ isUint64Decimal s n.
Proof.
  unfold ParseUint, isUint64Decimal.
  destruct s as [|c s]; simpl String.list_ascii_of_string.
  - split; [done|]. by intros [? _].
  - rewrite parseUintLoop_spec by (unfold maxUint64; lia).
    split; [intros (? & ? & ?)|intros (_ & ? & ? & ?)]; done.
Qed.

(** ** The shape checks of [handleGetHeader] *)

Lemma ParseUint_error s :
  (∃ e, ParseUint s = inl e) ↔ ¬ ∃ n, isUint64Decimal s n.
Proof.
  split.
  - intros [e He] [n Hn]. apply ParseUint_spec in Hn. congruence.
  - intros Hno. destruct (ParseUint s) as [e|n] eqn:Hp; [eauto|].
    destruct Hno. exists n. by apply ParseUint_spec.
Qed.

(** C9 (as amended). The three checks are made in the order slot, pubkey,
    parent hash, and the first that fails decides the error: a slot that is
    not the decimal notation of an unsigned 64-bit number gives 400
    [invalid slot]; with a well-formed slot, a pubkey whose length is not 98
    gives 400 [invalid pubkey]; with both well formed, a parent hash whose
    length is not 66 gives 400 [invalid hash].  In each case no relay is
    contacted and the cache is unchanged. *)
Theorem header_request_rejected VerifySignature m vars arrivals :
  let rejected message :=
    Some {| out_reply := respondError StatusBadRequest message;
            out_bids := bids m; out_contacted := [] |} in
  ((¬ ∃ n, isUint64Decimal (slot vars) n) →
     handleGetHeader VerifySignature m vars arrivals = rejected errInvalidSlot) ∧
  ((∃ n, isUint64Decimal (slot vars) n) → len (pubkey vars) ≠ 98 →
     handleGetHeader VerifySignature m vars arrivals = rejected errInvalidPubkey) ∧
  ((∃ n, isUint64Decimal (slot vars) n) → len (pubkey vars) = 98 →
   len (parent_hash vars) ≠ 66 →
     handleGetHeader VerifySignature m vars arrivals = rejected errInvalidHash).
Proof.
  intros rejected. unfold handleGetHeader. split_and!.
  - intros [e He]%ParseUint_error. by rewrite He.
  - intros [n Hn%ParseUint_spec] Hk. rewrite Hn.
    by rewrite bool_decide_eq_true_2.
  - intros [n Hn%ParseUint_spec] Hk Hh. rewrite Hn.
    rewrite bool_decide_eq_false_2 by (intros Hne; by apply Hne).
    by rewrite bool_decide_eq_true_2.
Qed.

(** ** [handleGetPayload], task by task *)

Lemma lockOrder_app payload l1 l2 :
  lockOrder payload (l1 ++ l2) = lockOrder payload l1 ++ lockOrder payload l2.
Proof. unfold lockOrder. by rewrite filter_app, fmap_app. Qed.

Lemma lockOrder_dropped payload a d :
  checkPayload payload a = inl d → lockOrder payload [a] = [].
Proof.
  intros Ha. unfold lockOrder.
  rewrite filter_cons_False; [done|]. unfold validated. rewrite Ha. simpl. tauto.
Qed.

Lemma lockOrder_validated payload a :
  validated payload a → lockOrder payload [a] = [http_dst a].
Proof. intros Ha. unfold lockOrder. by rewrite filter_cons_True. Qed.

Lemma validated_inr payload a r :
  checkPayload payload a = inr r →
  validated payload a ∧ r = http_dst a ∧
  ∃ data, gpr_Data r = Some data ∧ ep_BlockHash data ≠ nilHash
          ∧ ep_BlockHash data = sbb_BlockHash payload.
Proof.
  intros Ha. split; [unfold validated; by rewrite Ha|].
  unfold checkPayload in Ha. destruct (http_err a); [done|].
  destruct (gpr_Data (http_dst a)) as [data|] eqn:Hd; [|done].
  case_bool_decide as Hz; [done|]. case_bool_decide as Hh; [done|].
  injection Ha as <-. split; [done|]. exists data. split_and!; [done|done|].
  destruct (decide (sbb_BlockHash payload = ep_BlockHash data)); [done|].
  by destruct Hh.
Qed.

(** The sequential race: its result is the first validated answer. *)
Lemma runRace_cons payload a l st :
  runRace payload (a :: l) st = runRace payload l (payloadTask payload a st).
Proof. done. Qed.

Lemma runRace_cancelled payload l st :
  requestCtx st = true → runRace payload l st = st.
Proof.
  revert st. induction l as [|a l IH]; intros st Hc; [done|].
  rewrite runRace_cons. unfold payloadTask, payloadCritical.
  rewrite Hc. destruct (checkPayload payload a); by apply IH.
Qed.

Lemma runRace_result payload l :
  race_result (runRace payload l race_init)
  = default GetPayloadResponse_zero (head (lockOrder payload l)).
Proof.
  induction l as [|a l IH]; [done|].
  change (a :: l) with ([a] ++ l) at 2. rewrite lockOrder_app.
  rewrite runRace_cons. unfold payloadTask.
  destruct (checkPayload payload a) as [d|r] eqn:Ha.
  - by rewrite (lockOrder_dropped _ _ _ Ha).
  - destruct (validated_inr _ _ _ Ha) as (Hv & -> & _).
    rewrite (lockOrder_validated _ _ Hv). simpl.
    by rewrite (runRace_cancelled payload l).
Qed.

(** C4. A decoded payload request: if some relay's answer passes the checks
    of its task, the reply is 200 with the first such answer to take the
    mutex, whose block hash is the request's; if none does, the handler
    reads the cache at [(slot, block hash)] (the zero record when the key is
    absent), logs the relays of that record and replies 502
    [no successful relay response]. *)
Theorem payload_reply m payload arrivals :
  let out := handleGetPayload m (inr payload) arrivals in
  let bidKey := (sbb_Slot payload, Hash_String (sbb_BlockHash payload)) in
  po_contacted out = m_relays m ∧
  match filter (λ a, validated payload a) arrivals with
  | [] =>
      po_reply out = respondError StatusBadGateway errNoSuccessfulRelayResponse ∧
      po_withholding out = Some (Join (relays (bids_load (bids m) bidKey)) ", ") ∧
      bids_load (bids m) bidKey
      = match bids m !! bidKey with Some r => r | None => bidResp_zero end
  | a :: _ =>
      ∃ data,
        po_reply out = respondOK (BodyPayload (http_dst a)) ∧
        po_withholding out = None ∧
        gpr_Data (http_dst a) = Some data ∧
        ep_BlockHash data = sbb_BlockHash payload
  end.
Proof.
  intros out bidKey.
  split; [subst out; unfold handleGetPayload, finishGetPayload; by repeat case_match|].
  subst out. unfold handleGetPayload. rewrite runRace_result. unfold lockOrder.
  destruct (filter _ arrivals) as [|a rest] eqn:Hf; simpl.
  - by split_and!.
  - assert (Ha : validated payload a).
    { assert (a ∈ filter (λ a, validated payload a) arrivals) as Hin
        by (rewrite Hf; left).
      by apply list_elem_of_filter in Hin as [? _]. }
    unfold validated in Ha.
    destruct (checkPayload payload a) as [d|r] eqn:Hc; [done|].
    destruct (validated_inr _ _ _ Hc) as (_ & -> & data & Hd & Hz & Hh).
    exists data. unfold finishGetPayload. rewrite Hd.
    rewrite bool_decide_eq_false_2 by done. by split_and!.
Qed.

(** ** [CheckRelays] *)

Lemma CheckRelays_from_spec relays i net :
  match CheckRelays_from i relays net with
  | (true, urls) =>
      (∀ j, (j < length relays)%nat → net (i + j)%nat = None) ∧
      urls = (λ r, GetURI r pathStatus) <$> relays
  | (false, urls) =>
      ∃ k, (k < length relays)%nat ∧ net (i + k)%nat ≠ None ∧
           (∀ j, (j < k)%nat → net (i + j)%nat = None) ∧
           urls = (λ r, GetURI r pathStatus) <$> take (S k) relays
  end.
Proof.
  revert i. induction relays as [|relay rest IH]; intros i; simpl.
  - split; [intros; lia|done].
  - destruct (net i) as [e|] eqn:Hi.
    + exists 0%nat. rewrite Nat.add_0_r, Hi. split_and!; try done; [lia|].
      intros; lia.
    + specialize (IH (S i)).
      destruct (CheckRelays_from (S i) rest net) as [[] urls].
      * destruct IH as [Hall ->]. split; [|done].
        intros [|j] Hj; [by rewrite Nat.add_0_r|].
        replace (i + S j)%nat with (S i + j)%nat by lia. apply Hall. lia.
      * destruct IH as (k & Hk & Hfail & Hbefore & ->).
        exists (S k). split_and!; [lia| |..|done].
        -- by replace (i + S k)%nat with (S i + k)%nat by lia.
        -- intros [|j] Hj; [by rewrite Nat.add_0_r|].
           replace (i + S j)%nat with (S i + j)%nat by lia. apply Hbefore. lia.
Qed.

(** ** Interleavings *)

Section MachineFacts.

Context {State Event : Type}.
Variable step : State → Event → option State.

Lemma run_app s tr1 tr2 :
  run step s (tr1 ++ tr2) = run step s tr1 ≫= λ s', run step s' tr2.
Proof.
  revert s. induction tr1 as [|e tr1 IH]; intros s; simpl; [done|].
  destruct (step s e) as [s'|]; simpl; [apply IH|done].
Qed.

Lemma reachable_refl s : reachable step s s.
Proof. by exists []. Qed.

Lemma reachable_step init s e s' :
  reachable step init s → step s e = Some s' → reachable step init s'.
Proof.
  intros [tr Htr] He. exists (tr ++ [e]).
  rewrite run_app, Htr. simpl. by rewrite He.
Qed.

Lemma reachable_run init s tr s' :
  reachable step init s → run step s tr = Some s' → reachable step init s'.
Proof.
  intros [tr0 Htr0] Htr. exists (tr0 ++ tr). by rewrite run_app, Htr0.
Qed.

(** Invariants: what holds at the start and is kept by every step holds in
    every reachable state. *)
Lemma reachable_inv (P : State → Prop) init :
  P init →
  (∀ s e s', P s → step s e = Some s' → P s') →
  ∀ s, reachable step init s → P s.
Proof.
  intros Hinit Hstep s [tr Htr]. revert s Htr.
  induction tr as [|e tr IH] using rev_ind; intros s Htr.
  - by injection Htr as <-.
  - rewrite run_app in Htr.
    destruct (run step init tr) as [s0|] eqn:H0; [|done]. simpl in Htr.
    destruct (step s0 e) as [s1|] eqn:H1; [|done]. injection Htr as <-.
    eapply Hstep; [by apply IH|done].
Qed.

Lemma run_inv (P : State → Prop) :
  (∀ s e s', P s → step s e = Some s' → P s') →
  ∀ tr s s', P s → run step s tr = Some s' → P s'.
Proof.
  intros Hstep. induction tr as [|e tr IH]; intros s s' Hs Htr; simpl in Htr.
  - by injection Htr as <-.
  - destruct (step s e) as [s1|] eqn:H1; [|done]. simpl in Htr.
    eapply IH; [|done]. by eapply Hstep.
Qed.

(** Termination: if every step lowers a measure and every reachable state
    that is not final has a step, then every state reachable from [init] is
    continued to a final one, and no interleaving is longer than the measure
    of its first state. *)
Lemma run_bounded (μ : State → nat) :
  (∀ s e s', step s e = Some s' → μ s' < μ s)%nat →
  ∀ tr s s', run step s tr = Some s' → (length tr + μ s' <= μ s)%nat.
Proof.
  intros Hdec. induction tr as [|e tr IH]; intros s s' Htr; simpl in Htr.
  - injection Htr as <-. simpl. lia.
  - destruct (step s e) as [s1|] eqn:H1; [|done]. simpl in Htr.
    apply IH in Htr. apply Hdec in H1. simpl. lia.
Qed.

Lemma eventually_final (final : State → Prop) (μ : State → nat) init :
  (∀ s e s', step s e = Some s' → μ s' < μ s)%nat →
  (∀ s, reachable step init s → final s ∨ ∃ e s', step s e = Some s') →
  ∀ s, reachable step init s → ∃ tr s', run step s tr = Some s' ∧ final s'.
Proof.
  intros Hdec Hprog s. remember (μ s) as n eqn:Hn. revert s Hn.
  induction n as [n IH] using lt_wf_ind. intros s -> Hs.
  destruct (Hprog s Hs) as [Hf|(e & s1 & H1)].
  - exists [], s. done.
  - destruct (IH (μ s1) (Hdec _ _ _ H1) s1 eq_refl) as (tr & s' & Htr & Hf).
    { by eapply reachable_step. }
    exists (e :: tr), s'. simpl. rewrite H1. done.
Qed.

End MachineFacts.

(** ** Counting over a task table *)

Lemma sum_list_with_insert {A} (w : A → nat) (l : list A) i x y :
  l !! i = Some x →
  (sum_list_with w (<[i:=y]> l) + w x = sum_list_with w l + w y)%nat.
Proof.
  revert i. induction l as [|a l IH]; intros [|i] Hi; simpl in *; try done.
  - injection Hi as ->. lia.
  - specialize (IH i Hi). lia.
Qed.

Lemma sum_list_with_lookup {A} (w : A → nat) (l : list A) i x :
  l !! i = Some x → (w x <= sum_list_with w l)%nat.
Proof.
  intros Hi. apply sum_list_with_in. apply list_elem_of_lookup. eauto.
Qed.

Lemma sum_list_with_pos {A} (w : A → nat) (l : list A) :
  (0 < sum_list_with w l)%nat ↔ ∃ i x, l !! i = Some x ∧ (0 < w x)%nat.
Proof.
  induction l as [|a l IH]; simpl.
  - split; [lia|]. by intros (i & x & ? & _).
  - split.
    + intros Hpos. destruct (decide (0 < w a)%nat) as [Ha|Ha].
      * by exists 0%nat, a.
      * destruct IH as [IH _]. destruct IH as (i & x & Hi & Hx); [lia|].
        by exists (S i), x.
    + intros ([|i] & x & Hi & Hx); simpl in Hi.
      * injection Hi as ->. lia.
      * assert (0 < sum_list_with w l)%nat by (apply IH; eauto). lia.
Qed.

Lemma sum_list_with_zero {A} (w : A → nat) (l : list A) :
  sum_list_with w l = 0%nat ↔ Forall (λ x, w x = 0%nat) l.
Proof.
  induction l as [|a l IH]; simpl.
  - split; [constructor|done].
  - rewrite Forall_cons, <- IH. lia.
Qed.

Lemma sum_list_with_le {A} (w v : A → nat) (l : list A) :
  (∀ x, w x <= v x)%nat → (sum_list_with w l <= sum_list_with v l)%nat.
Proof.
  intros Hle. induction l as [|a l IH]; simpl; [lia|]. specialize (Hle a). lia.
Qed.

Lemma sum_list_with_bound {A} (w : A → nat) (l : list A) :
  (∀ x, w x <= 1)%nat → (sum_list_with w l <= length l)%nat.
Proof.
  intros Hle. induction l as [|a l IH]; simpl; [lia|]. specialize (Hle a). lia.
Qed.

(** Two entries of weight one in a table of total weight at most one are
    the same entry. *)
Lemma sum_list_with_unique {A} (w : A → nat) (l : list A) i j x y :
  (sum_list_with w l <= 1)%nat →
  l !! i = Some x → l !! j = Some y → (0 < w x)%nat → (0 < w y)%nat → i = j.
Proof.
  revert i j. induction l as [|a l IH]; intros i j Hle Hi Hj Hx Hy; [done|].
  simpl in Hle. destruct i as [|i], j as [|j]; simpl in *; simplify_eq; try done.
  - assert (0 < sum_list_with w l)%nat by (apply sum_list_with_pos; eauto). lia.
  - assert (0 < sum_list_with w l)%nat by (apply sum_list_with_pos; eauto). lia.
  - f_equal. eapply IH; eauto. lia.
Qed.

(** Replacing the one entry of positive weight. *)
Lemma Forall_insert_unique {A} (P Q : A → Prop) (w : A → nat) (l : list A) i x y :
  l !! i = Some x → (sum_list_with w l <= 1)%nat → (0 < w x)%nat →
  Forall P l → (∀ z, w z = 0%nat → P z → Q z) → Q y →
  Forall Q (<[i:=y]> l).
Proof.
  intros Hi Hle Hx HP HPQ Hy. apply Forall_lookup. intros j z Hj.
  apply list_lookup_insert_Some in Hj as [(_ & <- & _)|(Hne & Hj)]; [done|].
  apply HPQ; [|by eapply Forall_lookup_1].
  destruct (w z) as [|n] eqn:Hz; [done|]. destruct Hne.
  apply (sum_list_with_unique w l i j x z); try done. lia.
Qed.

(** ** [handleGetHeader]: the auction as a transition system *)

Section AuctionMachineProofs.

Variable VerifySignature :
  BuilderBid -> Domain -> PublicKey -> Signature -> bool * error.
Variable m : BoostService.
Variable p : string.
Variable _slot : Z.

Local Abbreviation step := (auction_step VerifySignature m p _slot).
Local Abbreviation inv := (auction_machine_inv VerifySignature m p _slot).
Local Abbreviation task_ok := (auction_task_ok VerifySignature m p).

Lemma runAuction_snoc l a st :
  runAuction VerifySignature m p l auction_init = Some st →
  runAuction VerifySignature m p (l ++ [a]) auction_init
  = relayTask VerifySignature m p a st.
Proof.
  intros Hl. rewrite runAuction_app, Hl. simpl.
  by destruct (relayTask VerifySignature m p a st).
Qed.

Ltac auction_weigh Hi pc' :=
  pose proof (sum_list_with_lookup as_pending _ _ _ Hi);
  pose proof (sum_list_with_lookup as_atLocked _ _ _ Hi);
  pose proof (sum_list_with_lookup as_atRecorded _ _ _ Hi);
  pose proof (sum_list_with_lookup as_atUnlocking _ _ _ Hi);
  pose proof (sum_list_with_insert as_pending _ _ _ pc' Hi);
  pose proof (sum_list_with_insert as_finished _ _ _ pc' Hi);
  pose proof (sum_list_with_insert as_atLocked _ _ _ pc' Hi);
  pose proof (sum_list_with_insert as_atRecorded _ _ _ pc' Hi);
  pose proof (sum_list_with_insert as_atUnlocking _ _ _ pc' Hi);
  pose proof (sum_list_with_insert as_remaining _ _ _ pc' Hi).

(** A task that is not between its two statements under [mu] does not
    depend on the shared state. *)
Lemma auction_task_ok_other s s' pc :
  as_atRecorded pc = 0%nat → task_ok s pc → task_ok s' pc.
Proof. by destruct pc. Qed.

Lemma auction_tasks_other s s' :
  sum_list_with as_atRecorded (as_tasks s) = 0%nat →
  Forall (task_ok s) (as_tasks s) → Forall (task_ok s') (as_tasks s).
Proof.
  intros Hz%sum_list_with_zero Hall. rewrite Forall_forall in Hz, Hall.
  apply Forall_forall. intros pc Hin.
  apply (auction_task_ok_other s); auto.
Qed.

Lemma auction_tasks_same s s' :
  as_au s' = as_au s → as_arrivals s' = as_arrivals s →
  Forall (task_ok s) (as_tasks s) → Forall (task_ok s') (as_tasks s).
Proof.
  intros Hau Harr Hall. eapply Forall_impl; [exact Hall|].
  intros pc. unfold auction_task_ok. by rewrite Hau, Harr.
Qed.

Lemma auction_start_inv : inv auction_start.
Proof. split; simpl; try done; lia. Qed.

Lemma auction_step_inv s e s' : inv s → step s e = Some s' → inv s'.
Proof.
  intros [Hsp Hwg Hrec Hmu Hst Htasks Hreply] Hstep.
  destruct e as [|i a|i|i|i now|i|i|]; simpl in Hstep.
  - (* spawn *)
    case_bool_decide as Hr; [|done]. case_bool_decide as Hlen; [|done].
    simpl in Hstep. injection Hstep as <-.
    split; simpl; rewrite ?length_app, ?sum_list_with_app; simpl;
      rewrite ?Nat.add_0_r; try done; try lia.
    + apply Forall_app. split; [done|]. by apply Forall_singleton.
    + intros out Hout. congruence.
  - (* SendHTTPRequest returns *)
    destruct (as_tasks s !! i) as [[]|] eqn:Hi; try done.
    destruct (m_relays m !! i) as [relay|] eqn:Hrelay; [|done].
    destruct (checkBid VerifySignature m p relay a) as [d|h] eqn:Ha;
      injection Hstep as <-.
    + auction_weigh Hi AExiting.
      set (x := {| ar_relay := relay; ar_http := a; ar_now := 0 |}).
      assert (Hx : ∀ st,
        runAuction VerifySignature m p (as_arrivals s) auction_init = Some st →
        runAuction VerifySignature m p (as_arrivals s ++ [x]) auction_init = Some st).
      { intros st Hrun. rewrite (runAuction_snoc _ _ _ Hrun).
        unfold relayTask. simpl. by rewrite Ha. }
      split; simpl in *; rewrite ?length_insert, ?length_app; simpl;
        [lia|lia|lia|lia| | |].
      * intros Hz. apply Hx, Hst. lia.
      * apply Forall_insert; [|done].
        eapply Forall_impl; [exact Htasks|]. intros pc. unfold auction_task_ok.
        destruct pc; try done. simpl. intros [? (au0 & ? & ?)]. eauto.
      * intros out Hout. destruct (Hreply out Hout) as (? & _). lia.
    + auction_weigh Hi (AChecked relay a h).
      split; simpl in *; rewrite ?length_insert; simpl; [lia|lia|lia|lia| | |].
      * intros Hz. apply Hst. lia.
      * apply Forall_insert; [by apply (auction_tasks_same s)|done].
      * intros out Hout. destruct (Hreply out Hout) as (? & _). lia.
  - (* mu.Lock() *)
    destruct (as_tasks s !! i) as [[|relay a h| | | | |]|] eqn:Hi; try done.
    destruct (as_mu s) eqn:Hm; [done|]. injection Hstep as <-.
    assert (Hok : task_ok s (AChecked relay a h)).
    { rewrite Forall_forall in Htasks. apply Htasks, list_elem_of_lookup. eauto. }
    auction_weigh Hi (ALocked relay a h).
    split; simpl in *; rewrite ?length_insert; simpl; [lia|lia|lia|lia| | |].
    + intros Hz. apply Hst. lia.
    + apply Forall_insert; [by apply (auction_tasks_same s)|done].
    + intros out Hout. destruct (Hreply out Hout) as (? & _). lia.
  - (* relays[blockHash] = ... *)
    destruct (as_tasks s !! i) as [[| |relay a h| | | |]|] eqn:Hi; try done.
    injection Hstep as <-.
    assert (Hok : task_ok s (ALocked relay a h)).
    { rewrite Forall_forall in Htasks. apply Htasks, list_elem_of_lookup. eauto. }
    auction_weigh Hi (ARecorded relay a h).
    assert (Hz : sum_list_with as_atRecorded (as_tasks s) = 0%nat)
      by (simpl in *; destruct (as_mu s); lia).
    split; simpl in *; rewrite ?length_insert; simpl; [lia|lia|lia|lia| | |].
    + intros ?. lia.
    + apply Forall_insert; [by apply (auction_tasks_other s)|].
      split; [done|]. exists (as_au s). split; [by apply Hst|done].
    + intros out Hout. destruct (Hreply out Hout) as (? & _). lia.
  - (* the comparison and the assignment *)
    destruct (as_tasks s !! i) as [[| | |relay a h| | |]|] eqn:Hi; try done.
    destruct (selectBid (http_dst a) h now (as_au s)) as [au|] eqn:Hsel; [|done].
    simpl in Hstep. injection Hstep as <-.
    assert (Hok : task_ok s (ARecorded relay a h)).
    { rewrite Forall_forall in Htasks. apply Htasks, list_elem_of_lookup. eauto. }
    destruct Hok as (Ha & au0 & Hrun & Hau).
    auction_weigh Hi AUnlocking.
    split; simpl in *; rewrite ?length_insert, ?length_app; simpl;
      [lia|lia|lia|lia| | |].
    + intros _. rewrite (runAuction_snoc _ _ _ Hrun). unfold relayTask. simpl.
      rewrite Ha. unfold criticalSection. simpl. by rewrite <- Hau.
    + apply (Forall_insert_unique (task_ok s) _ as_atRecorded _ _
               (ARecorded relay a h)); try done.
      * destruct (as_mu s); lia.
      * simpl. lia.
      * intros pc. apply auction_task_ok_other.
    + intros out Hout. destruct (Hreply out Hout) as (? & _). lia.
  - (* mu.Unlock() *)
    destruct (as_tasks s !! i) as [[| | | | | |]|] eqn:Hi; try done.
    injection Hstep as <-. auction_weigh Hi AExiting.
    split; simpl in *; rewrite ?length_insert; simpl;
      [lia|lia|lia|destruct (as_mu s); lia| | |].
    + intros Hz. apply Hst. lia.
    + apply Forall_insert; [by apply (auction_tasks_same s)|done].
    + intros out Hout. destruct (Hreply out Hout) as (? & _). lia.
  - (* wg.Done() *)
    destruct (as_tasks s !! i) as [[| | | | | |]|] eqn:Hi; try done.
    injection Hstep as <-. auction_weigh Hi ADone.
    split; simpl in *; rewrite ?length_insert; simpl; [lia|lia|lia|lia| | |].
    + intros Hz. apply Hst. lia.
    + apply Forall_insert; [by apply (auction_tasks_same s)|done].
    + intros out Hout. destruct (Hreply out Hout) as (? & _). lia.
  - (* the reply *)
    destruct (as_reply s) eqn:Hr; [done|].
    case_bool_decide as Hlen; [|done]. case_bool_decide as Hz; [|done].
    simpl in Hstep. injection Hstep as <-.
    split; simpl; try done.
    intros out [= <-]. split_and!; [lia|done|done].
Qed.

Lemma auction_reachable_inv s : reachable step auction_start s → inv s.
Proof.
  apply reachable_inv; [apply auction_start_inv|].
  intros ???. apply auction_step_inv.
Qed.

Lemma auction_step_measure s e s' :
  step s e = Some s' → (auction_measure m s' < auction_measure m s)%nat.
Proof.
  intros Hstep. unfold auction_measure.
  destruct e as [|i a|i|i|i now|i|i|]; simpl in Hstep.
  - case_bool_decide as Hr; [|done]. case_bool_decide as Hlen; [|done].
    simpl in Hstep. injection Hstep as <-. simpl.
    rewrite length_app, sum_list_with_app, Hr. simpl. lia.
  - destruct (as_tasks s !! i) as [[]|] eqn:Hi; try done.
    destruct (m_relays m !! i) as [relay|]; [|done].
    destruct (checkBid VerifySignature m p relay a) as [d|h];
      injection Hstep as <-.
    + auction_weigh Hi AExiting. simpl in *. rewrite length_insert. lia.
    + auction_weigh Hi (AChecked relay a h). simpl in *. rewrite length_insert. lia.
  - destruct (as_tasks s !! i) as [[|relay a h| | | | |]|] eqn:Hi; try done.
    destruct (as_mu s); [done|]. injection Hstep as <-.
    auction_weigh Hi (ALocked relay a h). simpl in *. rewrite length_insert. lia.
  - destruct (as_tasks s !! i) as [[| |relay a h| | | |]|] eqn:Hi; try done.
    injection Hstep as <-. auction_weigh Hi (ARecorded relay a h).
    simpl in *. rewrite length_insert. lia.
  - destruct (as_tasks s !! i) as [[| | |relay a h| | |]|] eqn:Hi; try done.
    destruct (selectBid _ _ _ _); [|done]. simpl in Hstep. injection Hstep as <-.
    auction_weigh Hi AUnlocking. simpl in *. rewrite length_insert. lia.
  - destruct (as_tasks s !! i) as [[| | | | | |]|] eqn:Hi; try done.
    injection Hstep as <-. auction_weigh Hi AExiting.
    simpl in *. rewrite length_insert. lia.
  - destruct (as_tasks s !! i) as [[| | | | | |]|] eqn:Hi; try done.
    injection Hstep as <-. auction_weigh Hi ADone.
    simpl in *. rewrite length_insert. lia.
  - destruct (as_reply s) eqn:Hr; [done|].
    destruct (_ && _); [|done]. injection Hstep as <-. simpl. lia.
Qed.

Lemma as_holdsMu_sum l :
  sum_list_with as_holdsMu l
  = (sum_list_with as_atLocked l + sum_list_with as_atRecorded l
     + sum_list_with as_atUnlocking l)%nat.
Proof.
  induction l as [|pc l IH]; simpl; [done|]. rewrite IH.
  destruct pc; simpl; lia.
Qed.

(** No deadlock and no nil dereference: while the handler has not replied,
    some goroutine can move, and a task that holds [mu] always can. *)
Lemma auction_progress s :
  reachable step auction_start s →
  is_Some (as_reply s) ∨ ∃ e s', step s e = Some s'.
Proof.
  intros [Hsp Hwg Hrec Hmu Hst Htasks Hreply]%auction_reachable_inv.
  destruct (as_reply s) as [out|] eqn:Hr; [left; eauto|right].
  destruct (decide (length (as_tasks s) < length (m_relays m))%nat) as [Hlt|Hge].
  { exists AESpawn. simpl. rewrite Hr. simpl.
    rewrite bool_decide_eq_true_2 by done. eauto. }
  destruct (decide (sum_list_with as_pending (as_tasks s) = 0)%nat) as [Hz|Hnz].
  { exists AEReply. simpl. rewrite Hr.
    rewrite bool_decide_eq_true_2 by lia.
    rewrite bool_decide_eq_true_2 by lia. simpl. eauto. }
  rewrite <- as_holdsMu_sum in Hmu.
  destruct (decide (0 < sum_list_with as_holdsMu (as_tasks s))%nat) as [Hh|Hfree].
  - apply sum_list_with_pos in Hh as (i & pc & Hi & Hpc).
    assert (Hok : task_ok s pc).
    { rewrite Forall_forall in Htasks. apply Htasks, list_elem_of_lookup. eauto. }
    destruct pc as [|relay a h|relay a h|relay a h| | |]; simpl in Hpc; try lia.
    + exists (AERecord i). simpl. rewrite Hi. eauto.
    + destruct Hok as (Ha & au0 & Hrun & Hau).
      destruct (runAuction_inv VerifySignature m p (as_arrivals s))
        as (st & Hrun' & Hinv).
      assert (st = au0) as -> by congruence.
      destruct (criticalSection_inv VerifySignature m p _
                  {| ar_relay := relay; ar_http := a; ar_now := 0 |} h au0
                  (acceptedBids_all VerifySignature m p (as_arrivals s)) Ha Hinv)
        as (st' & Hcs & _).
      exists (AESelect i 0). simpl. rewrite Hi, Hau.
      unfold criticalSection in Hcs. simpl in Hcs. rewrite Hcs. simpl. eauto.
    + exists (AEUnlock i). simpl. rewrite Hi. eauto.
  - assert (as_mu s = false) as Hm by (destruct (as_mu s); [lia|done]).
    assert (0 < sum_list_with as_pending (as_tasks s))%nat as Hpos by lia.
    apply sum_list_with_pos in Hpos as (i & pc & Hi & Hpc).
    pose proof (sum_list_with_lookup as_holdsMu _ _ _ Hi) as Hle.
    destruct pc as [|relay a h|relay a h|relay a h| | |]; simpl in Hpc, Hle; try lia.
    + assert (is_Some (m_relays m !! i)) as [relay Hrelay].
      { apply lookup_lt_is_Some. apply lookup_lt_Some in Hi. lia. }
      exists (AEReturn i (HttpResult 0 (Some "") {| ghr_Version := ""; ghr_Data := None |})).
      simpl. rewrite Hi, Hrelay. simpl. eauto.
    + exists (AELock i). simpl. rewrite Hi, Hm. eauto.
    + exists (AEWgDone i). simpl. rewrite Hi. eauto.
Qed.

Lemma auction_eventually_replies s :
  reachable step auction_start s →
  ∃ tr s', run step s tr = Some s' ∧ is_Some (as_reply s').
Proof.
  apply (eventually_final step (λ s, is_Some (as_reply s)) (auction_measure m)).
  - intros ???. apply auction_step_measure.
  - apply auction_progress.
Qed.

(** The interleaved auction refines the sequential one: when the handler
    replies, every task is done, and the outcome is that of
    [handleGetHeader] on the tasks in the order in which they went through
    the critical section. *)
Lemma auction_refines vars s out :
  validVars vars _slot → parent_hash vars = p →
  reachable step auction_start s →
  as_reply s = Some out →
  Forall (λ pc, pc = ADone) (as_tasks s) ∧
  length (as_arrivals s) = length (m_relays m) ∧
  handleGetHeader VerifySignature m vars (as_arrivals s) = Some out.
Proof.
  intros Hvalid Hp [Hsp Hwg Hrec Hmu Hst Htasks Hreply]%auction_reachable_inv Hout.
  destruct (Hreply out Hout) as (Hz & Hlen & ->).
  assert (Hdone : Forall (λ pc, pc = ADone) (as_tasks s)).
  { apply sum_list_with_zero in Hz. eapply Forall_impl; [exact Hz|].
    by intros []. }
  split_and!; [done| |].
  - rewrite Hrec, <- Hlen. clear -Hdone.
    induction Hdone as [|pc l Hpc _ IH]; simpl; [done|]. subst pc. simpl.
    by rewrite IH.
  - rewrite (handleGetHeader_valid _ _ _ _ _ Hvalid), Hp, Hst; [done|].
    apply sum_list_with_zero. eapply Forall_impl; [exact Hdone|]. by intros ? ->.
Qed.

End AuctionMachineProofs.

Section AuctionClaims.

Variable VerifySignature :
  BuilderBid -> Domain -> PublicKey -> Signature -> bool * error.
Variable m : BoostService.

Lemma firstHighest_accepted p arrivals a :
  firstHighest (acceptedBids VerifySignature m p arrivals) a →
  accepted VerifySignature m p a ∧
  ∀ b, b ∈ acceptedBids VerifySignature m p arrivals →
       (bidValue b <= bidValue a)%N.
Proof.
  intros (pre & post & Heq & Hpre & Hpost).
  pose proof (acceptedBids_all VerifySignature m p arrivals) as Hall.
  rewrite Heq in Hall |- *. split.
  - apply Forall_app in Hall as [_ Hall]. by apply Forall_cons in Hall as [? _].
  - intros b Hb. apply elem_of_app in Hb as [Hb|Hb].
    + rewrite Forall_forall in Hpre. specialize (Hpre b Hb). simpl in Hpre. lia.
    + apply elem_of_cons in Hb as [->|Hb]; [lia|].
      rewrite Forall_forall in Hpost. by apply Hpost.
Qed.

(** The sequential auction with valid URL variables: its outcome in terms of
    the accepted bids. *)
Lemma handleGetHeader_outcome vars _slot arrivals :
  validVars vars _slot →
  ∃ out,
    handleGetHeader VerifySignature m vars arrivals = Some out ∧
    out_contacted out = m_relays m ∧
    match acceptedBids VerifySignature m (parent_hash vars) arrivals with
    | [] =>
        out_reply out = Reply StatusNoContent BodyNone ∧
        out_bids out = bids m
    | acc =>
        ∃ a, firstHighest acc a ∧
          out_reply out = respondOK (BodyHeader (http_dst (ar_http a))) ∧
          out_bids out
          = <[(_slot, bidHash VerifySignature m (parent_hash vars) a) :=
                {| t := ar_now a; response := http_dst (ar_http a);
                   blockHash := bidHash VerifySignature m (parent_hash vars) a;
                   relays := deliveredBy VerifySignature m (parent_hash vars) acc
                               (bidHash VerifySignature m (parent_hash vars) a) |}]>
              (bids m)
    end.
Proof.
  intros Hvalid.
  destruct (runAuction_inv VerifySignature m (parent_hash vars) arrivals)
    as (st & Hrun & Hrel & Hnil & Hbest).
  rewrite (handleGetHeader_valid _ _ _ _ _ Hvalid), Hrun. simpl.
  eexists. split; [done|].
  pose proof (firstHighest_accepted (parent_hash vars) arrivals) as Hacc.
  destruct (acceptedBids _ _ _ _) as [|a0 acc0] eqn:Heq.
  - unfold finishGetHeader. rewrite Hbest. done.
  - destruct Hbest as (a & Hfh & Hresp & Hhash & Htime).
    destruct (Hacc a Hfh) as [Ha _].
    destruct (accepted_value _ _ _ a Ha) as (_ & _ & _ & Hbh).
    unfold finishGetHeader.
    rewrite bool_decide_eq_false_2 by (by rewrite Hhash).
    simpl. split; [done|]. exists a. split; [done|].
    rewrite Hresp, Hhash, Htime, Hrel. by unfold bids_store.
Qed.

(** C1. In an auction with at least one accepted bid the handler answers
    200 with the response of an accepted bid [a] that is the first arrival
    with the highest value: every accepted bid that arrived before it has a
    strictly smaller value, and none that arrived after it has a greater one
    (so an equal-value later arrival does not displace it).  This holds of
    the sequential auction on any arrival order, and so of every
    interleaving of the tasks, the arrival order being the order in which
    they take the mutex. *)
Theorem best_bid_is_first_highest vars _slot :
  validVars vars _slot →
  (∀ arrivals,
     acceptedBids VerifySignature m (parent_hash vars) arrivals ≠ [] →
     ∃ out a,
       handleGetHeader VerifySignature m vars arrivals = Some out ∧
       out_reply out = respondOK (BodyHeader (http_dst (ar_http a))) ∧
       firstHighest (acceptedBids VerifySignature m (parent_hash vars) arrivals) a ∧
       (∀ b, b ∈ acceptedBids VerifySignature m (parent_hash vars) arrivals →
             (bidValue b <= bidValue a)%N)) ∧
  (∀ s out,
     reachable (auction_step VerifySignature m (parent_hash vars) _slot)
       auction_start s →
     as_reply s = Some out →
     acceptedBids VerifySignature m (parent_hash vars) (as_arrivals s) ≠ [] →
     ∃ a,
       out_reply out = respondOK (BodyHeader (http_dst (ar_http a))) ∧
       firstHighest
         (acceptedBids VerifySignature m (parent_hash vars) (as_arrivals s)) a ∧
       (∀ b, b ∈ acceptedBids VerifySignature m (parent_hash vars) (as_arrivals s) →
             (bidValue b <= bidValue a)%N)).
Proof.
  intros Hvalid.
  assert (Hseq : ∀ arrivals,
     acceptedBids VerifySignature m (parent_hash vars) arrivals ≠ [] →
     ∃ out a,
       handleGetHeader VerifySignature m vars arrivals = Some out ∧
       out_reply out = respondOK (BodyHeader (http_dst (ar_http a))) ∧
       firstHighest (acceptedBids VerifySignature m (parent_hash vars) arrivals) a ∧
       (∀ b, b ∈ acceptedBids VerifySignature m (parent_hash vars) arrivals →
             (bidValue b <= bidValue a)%N)).
  { intros arrivals Hne.
    destruct (handleGetHeader_outcome vars _slot arrivals Hvalid)
      as (out & Hout & _ & Hacc).
    pose proof (firstHighest_accepted (parent_hash vars) arrivals) as Hfa.
    destruct (acceptedBids _ _ _ _) as [|a0 acc0]; [done|].
    destruct Hacc as (a & Hfh & Hreply & _).
    exists out, a. split_and!; try done. by apply Hfa. }
  split; [exact Hseq|].
  intros s out Hs Hout Hne.
  destruct (auction_refines VerifySignature m (parent_hash vars) _slot vars s out
              Hvalid eq_refl Hs Hout) as (_ & _ & Hrun).
  destruct (Hseq _ Hne) as (out' & a & Hrun' & ? & ? & ?).
  exists a. split_and!; try done. congruence.
Qed.

(** C2. The tasks that go through the critical section are exactly the
    accepted arrivals, in arrival order, and each of them passed every
    acceptance check: message pubkey equal to the relay's public key, BLS
    signature verified under the builder signing domain and that key,
    parent hash equal to the request's, value not 0 and transactions root
    not the empty-list sentinel.  In every interleaving, a task that waits
    for the mutex or holds it carries such a bid. *)
Theorem critical_section_only_after_checks p _slot arrivals st :
  runAuction VerifySignature m p arrivals st
  = runCritical VerifySignature m p (acceptedBids VerifySignature m p arrivals) st
  ∧ Forall (λ a, passedChecks VerifySignature m p a (bidHash VerifySignature m p a))
      (acceptedBids VerifySignature m p arrivals)
  ∧ ∀ s, reachable (auction_step VerifySignature m p _slot) auction_start s →
      Forall (λ pc, ∀ relay a h,
                pc = AChecked relay a h ∨ pc = ALocked relay a h
                ∨ pc = ARecorded relay a h →
                ∀ now, passedChecks VerifySignature m p
                         {| ar_relay := relay; ar_http := a; ar_now := now |} h)
        (as_tasks s).
Proof.
  split_and!; [apply runAuction_runCritical| |].
  - eapply Forall_impl; [apply acceptedBids_all|]. simpl.
    intros a [h Hh]%accepted_inr. unfold bidHash. rewrite Hh.
    by apply checkBid_inr.
  - intros s [_ _ _ _ _ Htasks _]%auction_reachable_inv.
    eapply Forall_impl; [exact Htasks|]. intros pc Hok relay a h Hpc now.
    apply checkBid_inr. simpl.
    destruct Hpc as [Hpc|[Hpc|Hpc]]; subst pc; simpl in Hok;
      [done|done|by destruct Hok].
Qed.

(** C3. A completed auction at slot [_slot]: without an accepted bid the
    reply is 204 and the cache is unchanged; otherwise the reply carries the
    best bid, of block hash [H], and the cache differs exactly at key
    [(_slot, H)], where the stored record lists the relays whose accepted
    bids were for [H].  Every interleaving of the tasks ends with the reply
    of the handler, which is then the outcome of the sequential auction on
    the order in which the tasks took the mutex. *)
Theorem auction_fills_bid_cache vars _slot :
  validVars vars _slot →
  (∀ arrivals, ∃ out,
    handleGetHeader VerifySignature m vars arrivals = Some out ∧
    out_contacted out = m_relays m ∧
    match acceptedBids VerifySignature m (parent_hash vars) arrivals with
    | [] =>
        out_reply out = Reply StatusNoContent BodyNone ∧
        out_bids out = bids m
    | acc =>
        ∃ a, firstHighest acc a ∧
          let H := bidHash VerifySignature m (parent_hash vars) a in
          let stored :=
            {| t := ar_now a; response := http_dst (ar_http a); blockHash := H;
               relays := deliveredBy VerifySignature m (parent_hash vars) acc H |} in
          out_reply out = respondOK (BodyHeader (http_dst (ar_http a))) ∧
          out_bids out = <[(_slot, H) := stored]> (bids m) ∧
          out_bids out !! (_slot, H) = Some stored ∧
          (∀ k, k ≠ (_slot, H) → out_bids out !! k = bids m !! k)
    end) ∧
  (∀ s,
     reachable (auction_step VerifySignature m (parent_hash vars) _slot)
       auction_start s →
     (∃ tr s', run (auction_step VerifySignature m (parent_hash vars) _slot) s tr
               = Some s' ∧ is_Some (as_reply s')) ∧
     ∀ out, as_reply s = Some out →
       Forall (λ pc, pc = ADone) (as_tasks s) ∧
       length (as_arrivals s) = length (m_relays m) ∧
       handleGetHeader VerifySignature m vars (as_arrivals s) = Some out).
Proof.
  intros Hvalid. split.
  - intros arrivals.
    destruct (handleGetHeader_outcome vars _slot arrivals Hvalid)
      as (out & Hout & Hcont & Hacc).
    exists out. split_and!; [done|done|].
    destruct (acceptedBids _ _ _ _) as [|a0 acc0]; [done|].
    destruct Hacc as (a & Hfh & Hreply & Hbids). exists a. split; [done|].
    simpl. split_and!; [done|done| |].
    + rewrite Hbids. apply lookup_insert_eq.
    + intros k Hk. rewrite Hbids. by apply lookup_insert_ne.
  - intros s Hs. split; [by apply auction_eventually_replies|].
    intros out Hout.
    by apply (auction_refines VerifySignature m (parent_hash vars) _slot vars).
Qed.

End AuctionClaims.

(** ** [handleStatus]: the invariant *)

Ltac status_weigh Hi pc' :=
  pose proof (sum_list_with_lookup st_pending _ _ _ Hi);
  pose proof (sum_list_with_insert st_pending _ _ _ pc' Hi);
  pose proof (sum_list_with_insert st_counted _ _ _ pc' Hi);
  pose proof (sum_list_with_insert st_cancelled _ _ _ pc' Hi);
  pose proof (sum_list_with_insert st_passed _ _ _ pc' Hi);
  pose proof (sum_list_with_insert st_passedOk _ _ _ pc' Hi);
  pose proof (sum_list_with_insert st_lost _ _ _ pc' Hi);
  pose proof (sum_list_with_insert st_remaining _ _ _ pc' Hi).

Lemma wrap32_succ n : wrap32 (wrap32 n + 1) = wrap32 (n + 1).
Proof. unfold wrap32. by rewrite Z.add_mod_idemp_l. Qed.

Lemma status_init_inv m : status_inv m status_init.
Proof. split; simpl; try done; lia. Qed.

(** The fields of the invariant that a step changes by bookkeeping only. *)
Ltac status_field :=
  match goal with
  | |- (_ <= _)%nat => lia
  | Hdis : relayCheck ?m = false → st_tasks ?s = [], Hi : st_tasks ?s !! _ = Some _
    |- relayCheck ?m = false → _ =>
      let Hd := fresh in intros Hd; rewrite (Hdis Hd) in Hi; done
  | |- _ = Z.of_nat _ => lia
  | Hnum : st_num ?s = _ |- st_num ?s = wrap32 _ => rewrite Hnum; f_equal; lia
  | Hctx : st_ctx ?s = true → _ |- st_ctx ?s = true → _ =>
      let Hc := fresh in
      intros Hc; destruct (Hctx Hc); [by left|right; simpl in *; lia]
  | |- (0 < _)%nat → (0 < _)%nat => simpl in *; lia
  | |- _ = 0%nat => simpl in *; lia
  | Hreply : ∀ r, st_reply ?s = Some r → _ |- ∀ r, st_reply ?s = Some r → _ =>
      let r := fresh in let Hr := fresh in let Hp := fresh in
      intros r Hr; destruct (Hreply r Hr) as [Hp _]; simpl in *; lia
  end.

Lemma status_step_inv m s e s' :
  status_inv m s → status_step m s e = Some s' → status_inv m s'.
Proof.
  intros [Hsp Hdis Hwg Hnum Hctx Hfirst Hlost Hreply] Hstep.
  destruct e as [|i err|i|i|i|i|]; simpl in Hstep.
  - (* spawn *)
    destruct (relayCheck m) eqn:Hrc; [|done]. simpl in Hstep.
    case_bool_decide as Hr; [|done]. case_bool_decide as Hlen; [|done].
    simpl in Hstep. injection Hstep as <-.
    split; simpl; rewrite ?length_app, ?sum_list_with_app; simpl;
      rewrite ?Nat.add_0_r.
    + lia.
    + intros; congruence.
    + lia.
    + done.
    + done.
    + done.
    + lia.
    + intros r Hr'. congruence.
  - (* SendHTTPRequest returns *)
    destruct (st_tasks s !! i) as [[]|] eqn:Hi; try done.
    injection Hstep as <-. status_weigh Hi (SReturned err).
    split; simpl in *; rewrite ?length_insert; status_field.
  - (* the test *)
    destruct (st_tasks s !! i) as [[|err| | | |]|] eqn:Hi; try done.
    destruct (bool_decide (err ≠ None) && negb (st_ctx s)) eqn:Hg;
      injection Hstep as <-.
    + status_weigh Hi (SExiting false err).
      apply andb_true_iff in Hg as [Hg%bool_decide_eq_true _].
      destruct err; [|done].
      split; simpl in *; rewrite ?length_insert; status_field.
    + status_weigh Hi (SAdding err).
      split; simpl in *; rewrite ?length_insert;
        [status_field..| |status_field|status_field].
      intros _. apply andb_false_iff in Hg as [Hg|Hg].
      * apply bool_decide_eq_false in Hg.
        assert (err = None) as -> by (destruct err; [by destruct Hg|done]).
        simpl in *. lia.
      * apply negb_false_iff in Hg. destruct (Hctx Hg) as [Hr|Hc].
        -- destruct (st_reply s) as [r|] eqn:Hr'; [|done].
           destruct (Hreply r eq_refl) as [Hp _]. lia.
        -- assert (0 < sum_list_with st_passed (st_tasks s))%nat.
           { eapply Nat.lt_le_trans; [exact Hc|].
             apply sum_list_with_le. by intros [| | | |[]|[]]; simpl; lia. }
           specialize (Hfirst ltac:(done)). destruct err; simpl in *; lia.
  - (* atomic.AddUint32 *)
    destruct (st_tasks s !! i) as [[| |err| | |]|] eqn:Hi; try done.
    injection Hstep as <-. status_weigh Hi (SCancelling err).
    destruct err; split; simpl in *; rewrite ?length_insert; try status_field.
    all: rewrite Hnum, wrap32_succ; f_equal; lia.
  - (* cancel() *)
    destruct (st_tasks s !! i) as [[| | |err| |]|] eqn:Hi; try done.
    injection Hstep as <-. status_weigh Hi (SExiting true err).
    destruct err; split; simpl in *; rewrite ?length_insert; try status_field.
    all: intros _; right; lia.
  - (* wg.Done() *)
    destruct (st_tasks s !! i) as [[| | | |c err|]|] eqn:Hi; try done.
    injection Hstep as <-. status_weigh Hi (SDone c err).
    destruct c, err; split; simpl in *; rewrite ?length_insert; status_field.
  - (* the reply *)
    destruct (st_reply s) eqn:Hr; [done|].
    destruct (relayCheck m) eqn:Hrc; simpl in Hstep.
    + case_bool_decide as Hlen; [|done]. case_bool_decide as Hz; [|done].
      simpl in Hstep. injection Hstep as <-.
      split; simpl; try done.
      * intros; congruence.
      * intros _. by left.
      * intros r [= <-]. rewrite Hrc. split; [lia|done].
    + injection Hstep as <-. split; simpl; try done.
      * intros _. by apply Hdis.
      * intros Hc. by left.
      * intros r [= <-]. rewrite Hrc. rewrite (Hdis eq_refl). done.
Qed.

Lemma status_reachable_inv m s :
  reachable (status_step m) status_init s → status_inv m s.
Proof.
  apply reachable_inv; [apply status_init_inv|].
  intros ???. apply status_step_inv.
Qed.

Lemma status_step_measure m s e s' :
  status_step m s e = Some s' → (status_measure m s' < status_measure m s)%nat.
Proof.
  intros Hstep. unfold status_measure.
  destruct e as [|i err|i|i|i|i|]; simpl in Hstep.
  - destruct (relayCheck m); [|done]. simpl in Hstep.
    case_bool_decide as Hr; [|done]. case_bool_decide as Hlen; [|done].
    simpl in Hstep. injection Hstep as <-. simpl.
    rewrite length_app, sum_list_with_app. simpl. lia.
  - destruct (st_tasks s !! i) as [[]|] eqn:Hi; try done.
    injection Hstep as <-. status_weigh Hi (SReturned err).
    simpl in *. rewrite length_insert. lia.
  - destruct (st_tasks s !! i) as [[|err| | | |]|] eqn:Hi; try done.
    destruct (bool_decide (err ≠ None) && negb (st_ctx s)); injection Hstep as <-.
    + status_weigh Hi (SExiting false err). simpl in *. rewrite length_insert. lia.
    + status_weigh Hi (SAdding err). simpl in *. rewrite length_insert. lia.
  - destruct (st_tasks s !! i) as [[| |err| | |]|] eqn:Hi; try done.
    injection Hstep as <-. status_weigh Hi (SCancelling err).
    simpl in *. rewrite length_insert. lia.
  - destruct (st_tasks s !! i) as [[| | |err| |]|] eqn:Hi; try done.
    injection Hstep as <-. status_weigh Hi (SExiting true err).
    simpl in *. rewrite length_insert. lia.
  - destruct (st_tasks s !! i) as [[| | | |c err|]|] eqn:Hi; try done.
    injection Hstep as <-. status_weigh Hi (SDone c err).
    simpl in *. rewrite length_insert. lia.
  - destruct (st_reply s) eqn:Hr; [done|].
    destruct (negb (relayCheck m)); [injection Hstep as <-; simpl; lia|].
    destruct (_ && _); [|done]. injection Hstep as <-. simpl. lia.
Qed.

(** No deadlock: while the handler has not replied, some goroutine can move. *)
Lemma status_progress m s :
  reachable (status_step m) status_init s →
  is_Some (st_reply s) ∨ ∃ e s', status_step m s e = Some s'.
Proof.
  intros [Hsp Hdis Hwg Hnum Hctx Hfirst Hlost Hreply]%status_reachable_inv.
  destruct (st_reply s) as [r|] eqn:Hr; [left; eauto|right].
  destruct (relayCheck m) eqn:Hrc.
  2:{ exists SEReply. simpl. rewrite Hr, Hrc. simpl. eauto. }
  destruct (decide (length (st_tasks s) < length (m_relays m))%nat) as [Hlt|Hge].
  { exists SESpawn. simpl. rewrite Hrc, Hr. simpl.
    rewrite bool_decide_eq_true_2 by done. simpl. eauto. }
  destruct (decide (sum_list_with st_pending (st_tasks s) = 0)%nat) as [Hz|Hnz].
  { exists SEReply. simpl. rewrite Hr, Hrc. simpl.
    rewrite bool_decide_eq_true_2 by lia.
    rewrite bool_decide_eq_true_2 by lia. simpl. eauto. }
  assert (0 < sum_list_with st_pending (st_tasks s))%nat as Hpos by lia.
  apply sum_list_with_pos in Hpos as (i & pc & Hi & Hpc).
  destruct pc as [|err|err|err|c err|c err]; simpl in Hpc; [..|lia].
  - exists (SEReturn i None). simpl. rewrite Hi. eauto.
  - exists (SETest i). simpl. rewrite Hi. destruct (_ && _); eauto.
  - exists (SEAdd i). simpl. rewrite Hi. eauto.
  - exists (SECancel i). simpl. rewrite Hi. eauto.
  - exists (SEWgDone i). simpl. rewrite Hi. eauto.
Qed.

(** The verdict of a status check with [relay_check] on: with fewer than
    [2^32] relays, the handler answers 200 if the request of some relay
    returned without error and 503 if every request returned an error. *)
Lemma status_verdict m s r :
  reachable (status_step m) status_init s →
  relayCheck m = true →
  Z.of_nat (length (m_relays m)) < 2 ^ 32 →
  st_reply s = Some r →
  st_num s = Z.of_nat (sum_list_with st_counted (st_tasks s)) ∧
  ((0 < st_num s ∧ r = respondOK BodyNil ∧
    ∃ i, st_tasks s !! i = Some (SDone true None)) ∨
   (st_num s = 0 ∧
    r = respondError StatusServiceUnavailable "all relays are unavailable" ∧
    Forall (λ pc, ∃ e, pc = SDone false (Some e)) (st_tasks s))).
Proof.
  intros [Hsp Hdis Hwg Hnum Hctx Hfirst Hlost Hreply]%status_reachable_inv Hrc Hn Hr.
  destruct (Hreply r Hr) as [Hp Hrest]. rewrite Hrc in Hrest.
  destruct Hrest as [Hlen ->].
  assert (Hdone : Forall (λ pc, st_pending pc = 0%nat) (st_tasks s))
    by (by apply sum_list_with_zero).
  apply sum_list_with_zero in Hlost.
  assert (Hcnt : st_num s = Z.of_nat (sum_list_with st_counted (st_tasks s))).
  { rewrite Hnum. unfold wrap32. apply Z.mod_small.
    pose proof (sum_list_with_bound st_counted (st_tasks s)
                  ltac:(by intros [| | | |[]|[]]; simpl; lia)). lia. }
  split; [done|].
  destruct (decide (0 < sum_list_with st_counted (st_tasks s))%nat) as [Hpos|Hzero].
  - left. replace (0 <? st_num s) with true by (symmetry; apply Z.ltb_lt; lia).
    split_and!; [lia|done|].
    assert (0 < sum_list_with st_passed (st_tasks s))%nat as Hpass.
    { eapply Nat.lt_le_trans; [exact Hpos|].
      apply sum_list_with_le. by intros [| | | |[]|[]]; simpl; lia. }
    apply Hfirst, sum_list_with_pos in Hpass as (i & pc & Hi & Hpc).
    exists i. rewrite Forall_forall in Hdone.
    assert (pc ∈ st_tasks s) as Hin by (apply list_elem_of_lookup; eauto).
    specialize (Hdone pc Hin).
    by destruct pc as [|[]|[]|[]|[] []|[] []]; simpl in *; try lia.
  - right. replace (0 <? st_num s) with false by (symmetry; apply Z.ltb_ge; lia).
    split_and!; [lia|done|].
    assert (Hz : sum_list_with st_counted (st_tasks s) = 0%nat) by lia.
    apply sum_list_with_zero in Hz.
    rewrite Forall_forall in Hz, Hdone, Hlost. apply Forall_forall. intros pc Hin.
    specialize (Hz pc Hin). specialize (Hdone pc Hin). specialize (Hlost pc Hin).
    destruct pc as [| | | |c err|c err]; simpl in *; try lia.
    destruct c; [lia|]. destruct err as [e|]; [eauto|lia].
Qed.

Lemma status_eventually_replies m s :
  reachable (status_step m) status_init s →
  ∃ tr s', run (status_step m) s tr = Some s' ∧ is_Some (st_reply s').
Proof.
  apply (eventually_final (status_step m) (λ s, is_Some (st_reply s))
           (status_measure m)).
  - intros ???. apply status_step_measure.
  - apply status_progress.
Qed.

Lemma status_reply_ok_iff m s r :
  reachable (status_step m) status_init s →
  relayCheck m = true →
  Z.of_nat (length (m_relays m)) < 2 ^ 32 →
  st_reply s = Some r →
  r = respondOK BodyNil ↔ ∃ i, st_tasks s !! i = Some (SDone true None).
Proof.
  intros Hs Hrc Hn Hr.
  destruct (status_verdict m s r Hs Hrc Hn Hr) as [_ [(_ & -> & Hex)|(_ & -> & Hall)]].
  - done.
  - split; [done|]. intros [i Hi]. rewrite Forall_forall in Hall.
    destruct (Hall (SDone true None)) as [e He]; [|done].
    apply list_elem_of_lookup. eauto.
Qed.

(** C7 (as amended). With [relay_check] off the handler answers 200 at once
    and no task is ever spawned.  With it on: the counter is the number of
    tasks that executed the increment (modulo [2^32]); every task whose
    request returned no error takes the success path, on which it increments
    the counter and cancels the context, and whenever some task is on the
    success path one of them had no error; the handler replies only when
    every task of every relay is done, 200 if the counter is positive and
    503 otherwise; with fewer than [2^32] relays the counter is positive
    exactly when the request of some relay returned without error.  And in
    every interleaving the handler does reply. *)
Theorem status_check m s :
  reachable (status_step m) status_init s →
  (is_Some (st_reply s) ∨ ∃ e s', status_step m s e = Some s') ∧
  (∀ tr s', run (status_step m) s tr = Some s' →
            (length tr <= status_measure m s)%nat) ∧
  (∃ tr s', run (status_step m) s tr = Some s' ∧ is_Some (st_reply s')) ∧
  st_num s = wrap32 (Z.of_nat (sum_list_with st_counted (st_tasks s))) ∧
  ((∃ i pc, st_tasks s !! i = Some pc ∧ (0 < st_passed pc)%nat) →
   ∃ i pc, st_tasks s !! i = Some pc ∧ (0 < st_passedOk pc)%nat) ∧
  Forall (λ pc, pc ≠ SExiting false None ∧ pc ≠ SDone false None) (st_tasks s) ∧
  (relayCheck m = false → st_tasks s = []) ∧
  ∀ r, st_reply s = Some r →
    if relayCheck m then
      length (st_tasks s) = length (m_relays m) ∧
      Forall (λ pc, ∃ c e, pc = SDone c e) (st_tasks s) ∧
      r = (if 0 <? st_num s then respondOK BodyNil
           else respondError StatusServiceUnavailable "all relays are unavailable") ∧
      (Z.of_nat (length (m_relays m)) < 2 ^ 32 →
       (0 < st_num s ↔ ∃ i, st_tasks s !! i = Some (SDone true None)) ∧
       (r = respondOK BodyNil ↔ ∃ i, st_tasks s !! i = Some (SDone true None)))
    else r = respondOK BodyNil.
Proof.
  intros Hs. pose proof (status_reachable_inv m s Hs)
    as [Hsp Hdis Hwg Hnum Hctx Hfirst Hlost Hreply].
  split_and!; [by apply status_progress| |by apply status_eventually_replies|done| | |done|].
  - intros tr s' Hrun.
    pose proof (run_bounded (status_step m) (status_measure m)
                  (status_step_measure m) tr s s' Hrun). lia.
  - intros Hex. apply sum_list_with_pos, Hfirst. by apply sum_list_with_pos.
  - apply sum_list_with_zero in Hlost. eapply Forall_impl; [exact Hlost|].
    by intros [| | | |[] []|[] []].
  - intros r Hr. destruct (Hreply r Hr) as [Hp Hrest].
    destruct (relayCheck m) eqn:Hrc; [|done].
    destruct Hrest as [Hlen ->]. split_and!; [done| |done|].
    + apply sum_list_with_zero in Hp. eapply Forall_impl; [exact Hp|].
      intros [| | | | |c e]; simpl; try done. eauto.
    + intros Hn. split; [|by apply (status_reply_ok_iff m s)].
      destruct (status_verdict m s _ Hs Hrc Hn Hr) as [_ [(? & _ & ?)|(Hz & _ & Hall)]].
      * done.
      * split; [lia|]. intros [i Hi]. rewrite Forall_forall in Hall.
        destruct (Hall (SDone true None)) as [e He]; [|done].
        apply list_elem_of_lookup. eauto.
Qed.

(** C10. [CheckRelays] asks the relays one after the other and answers true
    exactly when every request returns without error; at the first error it
    answers false and asks no further relay.  The status handler instead
    (with [relay_check] on and fewer than [2^32] relays) answers 200 exactly
    when the request of some relay returned without error. *)
Theorem CheckRelays_conjunctive m net :
  ((CheckRelays m net).1 = true
   ↔ ∀ i, (i < length (m_relays m))%nat → net i = None) ∧
  (if (CheckRelays m net).1
   then (CheckRelays m net).2 = (λ r, GetURI r pathStatus) <$> m_relays m
   else ∃ k, (k < length (m_relays m))%nat ∧ net k ≠ None ∧
             (∀ j, (j < k)%nat → net j = None) ∧
             (CheckRelays m net).2
             = (λ r, GetURI r pathStatus) <$> take (S k) (m_relays m)) ∧
  (∀ s r, reachable (status_step m) status_init s →
          relayCheck m = true →
          Z.of_nat (length (m_relays m)) < 2 ^ 32 →
          st_reply s = Some r →
          r = respondOK BodyNil ↔ ∃ i, st_tasks s !! i = Some (SDone true None)).
Proof.
  unfold CheckRelays.
  pose proof (CheckRelays_from_spec (m_relays m) 0 net) as Hspec.
  destruct (CheckRelays_from 0 (m_relays m) net) as [[] urls]; simpl in *.
  - destruct Hspec as [Hall ->]. split_and!; [done|done|].
    intros. by apply (status_reply_ok_iff m s).
  - destruct Hspec as (k & Hk & Hfail & Hbefore & ->). split_and!.
    + split; [done|]. intros Hall. destruct Hfail. by apply Hall.
    + eauto.
    + intros. by apply (status_reply_ok_iff m s).
Qed.

(** ** [handleRegisterValidator]: the invariant *)

Ltac reg_weigh Hi pc' :=
  pose proof (sum_list_with_lookup rg_pushed _ _ _ Hi);
  pose proof (sum_list_with_insert rg_pushed _ _ _ pc' Hi);
  pose proof (sum_list_with_insert rg_pushedNil _ _ _ pc' Hi);
  pose proof (sum_list_with_insert rg_remaining _ _ _ pc' Hi).

Ltac reg_field :=
  match goal with
  | |- (_ <= _)%nat => lia
  | Hrej : ?d ≠ None → rg_tasks ?s = [] ∧ _, Hi : rg_tasks ?s !! _ = Some _
    |- ?d ≠ None → _ =>
      let Hd := fresh in
      intros Hd; destruct (Hrej Hd) as [Hd' _]; rewrite Hd' in Hi; done
  | |- _ = _ :> nat => simpl in *; lia
  | |- _ = None → Forall _ _ => done
  | |- ∀ r, _ = Some r → _ => done
  end.

Lemma reg_init_inv m decodeErr : reg_inv m decodeErr reg_init.
Proof. split; simpl; try done; lia. Qed.

Lemma reg_step_inv m decodeErr s e s' :
  reg_inv m decodeErr s → reg_step m decodeErr s e = Some s' →
  reg_inv m decodeErr s'.
Proof.
  intros [Hsp Hrej Hsent Hnil Herr Hreply] Hstep.
  destruct e as [| |i err|i|i| |]; simpl in Hstep.
  - (* bad request *)
    destruct decodeErr as [msg|]; [|done].
    destruct (rg_reply s) eqn:Hr; [done|]. injection Hstep as <-.
    split; simpl; try done. by intros r [= <-].
  - (* spawn *)
    case_bool_decide as Hd; [|done]. case_bool_decide as Hr; [|done].
    case_bool_decide as Hlen; [|done]. simpl in Hstep. injection Hstep as <-.
    subst decodeErr.
    split; simpl; rewrite ?length_app, ?sum_list_with_app; simpl;
      rewrite ?Nat.add_0_r; try done; try lia.
    intros r Hr'. congruence.
  - (* SendHTTPRequest returns *)
    destruct (rg_tasks s !! i) as [[]|] eqn:Hi; try done.
    injection Hstep as <-. reg_weigh Hi (GReturned err).
    split; simpl in *; rewrite ?length_insert; reg_field.
  - (* the send on the channel *)
    destruct (rg_tasks s !! i) as [[|err| |]|] eqn:Hi; try done.
    case_bool_decide as Hcap; [|done]. injection Hstep as <-.
    reg_weigh Hi (GPushed err).
    split; simpl in *; rewrite ?length_insert, ?length_app, ?sum_list_with_app;
      simpl; try reg_field.
    destruct err; simpl in *; lia.
  - (* the task returns *)
    destruct (rg_tasks s !! i) as [[| |err|]|] eqn:Hi; try done.
    injection Hstep as <-. reg_weigh Hi (GDone err).
    destruct err; split; simpl in *; rewrite ?length_insert; reg_field.
  - (* the receive *)
    case_bool_decide as Hd; [|done]. case_bool_decide as Hr; [|done].
    case_bool_decide as Hlen; [|done]. case_bool_decide as Hi; [|done].
    simpl in Hstep. destruct (rg_chan s) as [|respErr rest] eqn:Hch; [done|].
    injection Hstep as <-. subst decodeErr. specialize (Herr Hr).
    split; simpl in *; rewrite ?length_app, ?sum_list_with_app; simpl; try done.
    + lia.
    + lia.
    + destruct respErr; [|done]. intros _. apply Forall_app. split; [done|].
      by apply Forall_singleton.
    + destruct respErr; [done|]. intros r [= <-]. split; [done|]. left. eauto.
  - (* the loop is over *)
    case_bool_decide as Hd; [|done]. case_bool_decide as Hr; [|done].
    case_bool_decide as Hlen; [|done]. case_bool_decide as Hi; [|done].
    simpl in Hstep. injection Hstep as <-. subst decodeErr. specialize (Herr Hr).
    split; simpl in *; try done.
    intros r [= <-]. split; [done|]. by right.
Qed.

Lemma reg_reachable_inv m decodeErr s :
  reachable (reg_step m decodeErr) reg_init s → reg_inv m decodeErr s.
Proof.
  apply reachable_inv; [apply reg_init_inv|].
  intros ???. apply reg_step_inv.
Qed.

Lemma reg_step_measure m decodeErr s e s' :
  reg_step m decodeErr s e = Some s' → (reg_measure m s' < reg_measure m s)%nat.
Proof.
  intros Hstep. unfold reg_measure.
  destruct e as [| |i err|i|i| |]; simpl in Hstep.
  - destruct decodeErr; [|done]. destruct (rg_reply s); [done|].
    injection Hstep as <-. simpl. lia.
  - case_bool_decide; [|done]. case_bool_decide as Hr; [|done].
    case_bool_decide; [|done]. simpl in Hstep. injection Hstep as <-. simpl.
    rewrite length_app, sum_list_with_app, Hr. simpl. lia.
  - destruct (rg_tasks s !! i) as [[]|] eqn:Hi; try done.
    injection Hstep as <-. reg_weigh Hi (GReturned err).
    simpl in *. rewrite length_insert. destruct (rg_reply s); lia.
  - destruct (rg_tasks s !! i) as [[|err| |]|] eqn:Hi; try done.
    case_bool_decide; [|done]. injection Hstep as <-. reg_weigh Hi (GPushed err).
    simpl in *. rewrite length_insert. destruct (rg_reply s); lia.
  - destruct (rg_tasks s !! i) as [[| |err|]|] eqn:Hi; try done.
    injection Hstep as <-. reg_weigh Hi (GDone err).
    simpl in *. rewrite length_insert. destruct (rg_reply s); lia.
  - case_bool_decide; [|done]. case_bool_decide as Hr; [|done].
    case_bool_decide; [|done]. case_bool_decide; [|done]. simpl in Hstep.
    destruct (rg_chan s) as [|respErr rest]; [done|]. injection Hstep as <-.
    simpl. rewrite Hr, length_app. simpl. destruct respErr; lia.
  - case_bool_decide; [|done]. case_bool_decide as Hr; [|done].
    case_bool_decide; [|done]. case_bool_decide; [|done]. simpl in Hstep.
    injection Hstep as <-. simpl. rewrite Hr. lia.
Qed.

(** A table in which fewer entries have weight one than there are entries
    has an entry of weight zero. *)
Lemma sum_list_with_gap {A} (w : A → nat) (l : list A) :
  (sum_list_with w l < length l)%nat → ∃ i x, l !! i = Some x ∧ w x = 0%nat.
Proof.
  induction l as [|a l IH]; simpl; [lia|]. intros Hlt.
  destruct (decide (w a = 0%nat)) as [Ha|Ha].
  - by exists 0%nat, a.
  - destruct IH as (i & x & Hi & Hx); [lia|]. by exists (S i), x.
Qed.

(** The send on the channel never blocks: the buffer has room for every
    task. *)
Lemma reg_push_enabled m decodeErr s i err :
  reachable (reg_step m decodeErr) reg_init s →
  rg_tasks s !! i = Some (GReturned err) →
  is_Some (reg_step m decodeErr s (GEPush i)).
Proof.
  intros [Hsp Hrej Hsent Hnil Herr Hreply]%reg_reachable_inv Hi.
  simpl. rewrite Hi.
  assert (length (rg_chan s) < length (m_relays m))%nat.
  { assert (sum_list_with rg_pushed (rg_tasks s) < length (rg_tasks s))%nat; [|lia].
    pose proof (sum_list_with_insert rg_pushed _ _ _ (GPushed err) Hi) as Hins.
    pose proof (sum_list_with_bound rg_pushed (<[i:=GPushed err]> (rg_tasks s))
                  ltac:(by intros []; simpl; lia)) as Hb.
    rewrite length_insert in Hb. simpl in Hins. lia. }
  rewrite bool_decide_eq_true_2 by done. eauto.
Qed.

Lemma reg_progress m decodeErr s :
  reachable (reg_step m decodeErr) reg_init s →
  is_Some (rg_reply s) ∨ ∃ e s', reg_step m decodeErr s e = Some s'.
Proof.
  intros Hs. pose proof (reg_reachable_inv _ _ _ Hs)
    as [Hsp Hrej Hsent Hnil Herr Hreply].
  destruct (rg_reply s) as [r|] eqn:Hr; [left; eauto|right].
  destruct decodeErr as [msg|] eqn:Hd.
  { exists GEBadRequest. simpl. rewrite Hr. eauto. }
  destruct (decide (length (rg_tasks s) < length (m_relays m))%nat) as [Hlt|Hge].
  { exists GESpawn. simpl. rewrite Hr. simpl.
    rewrite bool_decide_eq_true_2 by done. eauto. }
  pose proof (sum_list_with_bound rg_pushed (rg_tasks s)
                ltac:(by intros []; simpl; lia)) as Hb.
  destruct (rg_chan s) as [|respErr rest] eqn:Hch.
  - simpl in Hsent. destruct (decide (length (rg_got s) = length (m_relays m))) as [Hall|Hnot].
    + exists GEGiveUp. simpl. rewrite Hr. simpl.
      rewrite bool_decide_eq_true_2 by lia.
      rewrite bool_decide_eq_true_2 by lia. eauto.
    + destruct (sum_list_with_gap rg_pushed (rg_tasks s)) as (i & pc & Hi & Hpc); [lia|].
      destruct pc as [|err|err|err]; simpl in Hpc; try lia.
      * exists (GEReturn i None). simpl. rewrite Hi. eauto.
      * destruct (reg_push_enabled m None s i err Hs Hi) as [s' Hs']. eauto.
  - exists GERecv. simpl. rewrite Hr, Hch. simpl in *.
    rewrite bool_decide_eq_true_2 by lia.
    rewrite bool_decide_eq_true_2 by lia. eauto.
Qed.

Lemma reg_eventually_replies m decodeErr s :
  reachable (reg_step m decodeErr) reg_init s →
  ∃ tr s', run (reg_step m decodeErr) s tr = Some s' ∧ is_Some (rg_reply s').
Proof.
  apply (eventually_final (reg_step m decodeErr) (λ s, is_Some (rg_reply s))
           (reg_measure m)).
  - intros ???. apply reg_step_measure.
  - apply reg_progress.
Qed.

(** C8. One task per relay sends its error, or nil, on a channel whose
    capacity is the number of relays, so that no send ever blocks.  The
    handler answers 200 in the step in which it receives the first nil (all
    it received before were errors), and 502 once it has received an error
    from every relay.  Nothing cancels a request: a task still waiting for
    its relay can get any answer, and go on to the end, after the reply as
    before it.  And in every interleaving the handler does reply. *)
Theorem register_validator m s :
  reachable (reg_step m None) reg_init s →
  (is_Some (rg_reply s) ∨ ∃ e s', reg_step m None s e = Some s') ∧
  (∀ tr s', run (reg_step m None) s tr = Some s' →
            (length tr <= reg_measure m s)%nat) ∧
  (∃ tr s', run (reg_step m None) s tr = Some s' ∧ is_Some (rg_reply s')) ∧
  (length (rg_tasks s) <= length (m_relays m))%nat ∧
  (length (rg_chan s) <= length (m_relays m))%nat ∧
  (∀ i err, rg_tasks s !! i = Some GSending →
            reg_step m None s (GEReturn i err)
            = Some (rg_setTask s i (GReturned err))) ∧
  (∀ i err, rg_tasks s !! i = Some (GReturned err) →
            is_Some (reg_step m None s (GEPush i))) ∧
  (∀ i err, rg_tasks s !! i = Some (GPushed err) →
            reg_step m None s (GEFinish i) = Some (rg_setTask s i (GDone err))) ∧
  ∀ r, rg_reply s = Some r →
    length (rg_tasks s) = length (m_relays m) ∧
    ((r = respondOK BodyNil ∧
      (∃ errs, rg_got s = errs ++ [None] ∧ Forall is_Some errs) ∧
      (∃ i pc, rg_tasks s !! i = Some pc ∧ (0 < rg_pushedNil pc)%nat)) ∨
     (r = respondError StatusBadGateway errNoSuccessfulRelayResponse ∧
      Forall (λ pc, ∃ e, pc = GPushed (Some e) ∨ pc = GDone (Some e)) (rg_tasks s))).
Proof.
  intros Hs. pose proof (reg_reachable_inv _ _ _ Hs)
    as [Hsp Hrej Hsent Hnil Herr Hreply].
  pose proof (sum_list_with_bound rg_pushed (rg_tasks s)
                ltac:(by intros []; simpl; lia)) as Hb.
  split_and!.
  - by apply reg_progress.
  - intros tr s' Hrun.
    pose proof (run_bounded (reg_step m None) (reg_measure m)
                  (reg_step_measure m None) tr s s' Hrun). lia.
  - by apply reg_eventually_replies.
  - done.
  - lia.
  - intros i err Hi. simpl. by rewrite Hi.
  - intros i err Hi. by eapply reg_push_enabled.
  - intros i err Hi. simpl. by rewrite Hi.
  - intros r Hr. destruct (Hreply r Hr) as [Hlen [(-> & errs & Hgot & Herrs)|(-> & Hn & Hall)]].
    + split; [done|]. left. split_and!; [done|eauto|].
      apply sum_list_with_pos. rewrite <- Hnil, Hgot, sum_list_with_app. simpl. lia.
    + split; [done|]. right. split; [done|].
      assert (Hfull : sum_list_with rg_pushed (rg_tasks s) = length (rg_tasks s)) by lia.
      assert (Hch : rg_chan s = []) by (apply length_zero_iff_nil; lia).
      assert (Hz : sum_list_with rg_pushedNil (rg_tasks s) = 0%nat).
      { rewrite <- Hnil, Hch. simpl. rewrite Nat.add_0_r.
        apply sum_list_with_zero. eapply Forall_impl; [exact Hall|].
        by intros [e|] [? ?]. }
      apply sum_list_with_zero in Hz. rewrite Forall_forall in Hz.
      apply Forall_forall. intros pc Hin. specialize (Hz pc Hin).
      destruct pc as [|err|[e|]|[e|]]; simpl in Hz; try lia; eauto.
      * exfalso. apply list_elem_of_lookup in Hin as [i Hi].
        pose proof (sum_list_with_insert rg_pushed _ _ _ (GDone None) Hi) as Hins.
        pose proof (sum_list_with_bound rg_pushed (<[i:=GDone None]> (rg_tasks s))
                      ltac:(by intros []; simpl; lia)) as Hb'.
        rewrite length_insert in Hb'. simpl in Hins. lia.
      * exfalso. apply list_elem_of_lookup in Hin as [i Hi].
        pose proof (sum_list_with_insert rg_pushed _ _ _ (GDone None) Hi) as Hins.
        pose proof (sum_list_with_bound rg_pushed (<[i:=GDone None]> (rg_tasks s))
                      ltac:(by intros []; simpl; lia)) as Hb'.
        rewrite length_insert in Hb'. simpl in Hins. lia.
Qed.

(** ** [handleGetPayload]: the race *)

Lemma race_task_ok_mono payload s s' pc k :
  rs_result s' = rs_result s →
  lockOrder payload (rs_arrivals s')
  = lockOrder payload (rs_arrivals s) ++ k →
  race_task_ok payload s pc → race_task_ok payload s' pc.
Proof.
  intros Hres Hord (Hv & Hl & Hw & Hr). unfold race_task_ok.
  rewrite Hres, Hord. split_and!; [done| | |done].
  - intros r Hpc. apply elem_of_app. left. by apply Hl.
  - intros r Hpc. specialize (Hw r Hpc).
    by destruct (lockOrder payload (rs_arrivals s)).
Qed.

Lemma race_tasks_same payload s s' :
  rs_result s' = rs_result s → rs_arrivals s' = rs_arrivals s →
  Forall (race_task_ok payload s) (rs_tasks s) →
  Forall (race_task_ok payload s') (rs_tasks s).
Proof.
  intros Hres Harr Hall. eapply Forall_impl; [exact Hall|]. intros pc.
  apply (race_task_ok_mono payload s s' pc []); [done|].
  by rewrite Harr, app_nil_r.
Qed.

Ltac race_weigh Hi pc' :=
  pose proof (sum_list_with_lookup rs_atUnlockingWinner _ _ _ Hi);
  pose proof (sum_list_with_lookup rs_atUnlockingLoser _ _ _ Hi);
  pose proof (sum_list_with_lookup rs_pending _ _ _ Hi);
  pose proof (sum_list_with_lookup rs_atLocked _ _ _ Hi);
  pose proof (sum_list_with_lookup rs_atPassed _ _ _ Hi);
  pose proof (sum_list_with_lookup rs_atCancelled _ _ _ Hi);
  pose proof (sum_list_with_insert rs_pending _ _ _ pc' Hi);
  pose proof (sum_list_with_insert rs_recorded _ _ _ pc' Hi);
  pose proof (sum_list_with_insert rs_atLocked _ _ _ pc' Hi);
  pose proof (sum_list_with_insert rs_atPassed _ _ _ pc' Hi);
  pose proof (sum_list_with_insert rs_atCancelled _ _ _ pc' Hi);
  pose proof (sum_list_with_insert rs_atUnlockingWinner _ _ _ pc' Hi);
  pose proof (sum_list_with_insert rs_atUnlockingLoser _ _ _ pc' Hi);
  pose proof (sum_list_with_insert rs_winnerGone _ _ _ pc' Hi);
  pose proof (sum_list_with_insert rs_remaining _ _ _ pc' Hi).

Lemma race_start_inv m payload : race_inv m payload race_start.
Proof.
  split; simpl; try done; try lia.
Qed.

(** No task has written yet when none is or was a winner past the write. *)
Lemma rs_wrote_weight pc r :
  rs_wrote pc = Some r → (rs_atUnlockingWinner pc + rs_winnerGone pc = 1)%nat.
Proof. by destruct pc as [| | | | |[]|[]|[]]. Qed.

Lemma rs_won_weight pc r :
  rs_won pc = Some r →
  (rs_atPassed pc + rs_atCancelled pc + rs_atUnlockingWinner pc
   + rs_winnerGone pc = 1)%nat.
Proof. by destruct pc as [| | | | |[]|[]|[]]. Qed.

Lemma sum_list_with_add {A} (w v : A → nat) (l : list A) :
  sum_list_with (λ x, w x + v x)%nat l
  = (sum_list_with w l + sum_list_with v l)%nat.
Proof. induction l as [|a l IH]; simpl; [done|]. rewrite IH. lia. Qed.

Lemma race_none_wrote (s : raceState) pc r :
  (sum_list_with rs_atUnlockingWinner (rs_tasks s)
   + sum_list_with rs_winnerGone (rs_tasks s) = 0)%nat →
  pc ∈ rs_tasks s → rs_wrote pc = Some r → False.
Proof.
  intros Hz Hin Hw. apply rs_wrote_weight in Hw.
  pose proof (sum_list_with_in _ rs_atUnlockingWinner _ Hin).
  pose proof (sum_list_with_in _ rs_winnerGone _ Hin). lia.
Qed.

Lemma race_none_won (s : raceState) pc r :
  (sum_list_with rs_atPassed (rs_tasks s)
   + sum_list_with rs_atCancelled (rs_tasks s)
   + sum_list_with rs_atUnlockingWinner (rs_tasks s)
   + sum_list_with rs_winnerGone (rs_tasks s) = 0)%nat →
  pc ∈ rs_tasks s → rs_won pc = Some r → False.
Proof.
  intros Hz Hin Hw. apply rs_won_weight in Hw.
  pose proof (sum_list_with_in _ rs_atPassed _ Hin).
  pose proof (sum_list_with_in _ rs_atCancelled _ Hin).
  pose proof (sum_list_with_in _ rs_atUnlockingWinner _ Hin).
  pose proof (sum_list_with_in _ rs_winnerGone _ Hin). lia.
Qed.

(** The fields of the invariant that follow from the old ones by counting. *)
Ltac race_unc Hunc :=
  let Hc := fresh in intros Hc; destruct (Hunc Hc); split; [done|simpl in *; lia].
Ltac race_can Hcan :=
  let Hc := fresh in
  intros Hc; destruct (Hcan Hc); [by left|right; simpl in *; lia].
Ltac race_unw Hunw :=
  let Hz := fresh in intros Hz; apply Hunw; simpl in *; lia.
Ltac race_fst Hfirst :=
  let Hne := fresh in
  intros Hne; destruct (Hfirst Hne) as [?|[? ?]];
  [left; simpl in *; lia|right; split; [simpl in *; lia|done]].
Ltac race_rep Hreply :=
  let out := fresh in let Hout := fresh in
  intros out Hout; destruct (Hreply out Hout) as (? & ? & ?); simpl in *; lia.

Lemma race_step_inv m payload s e s' :
  race_inv m payload s → race_step m payload s e = Some s' →
  race_inv m payload s'.
Proof.
  intros [Hsp Hwg Hrec Hmu Hone Hunc Hcan Hunw Hfirst Htasks Hreply] Hstep.
  destruct e as [|i a|i|i|i|i|i|i|]; simpl in Hstep.
  - (* spawn *)
    case_bool_decide as Hr; [|done]. case_bool_decide as Hlen; [|done].
    simpl in Hstep. injection Hstep as <-.
    split; simpl; rewrite ?length_app, ?sum_list_with_app; simpl;
      rewrite ?Nat.add_0_r; try done; try lia.
    + apply Forall_app. split; [done|]. apply Forall_singleton.
      by split_and!.
    + intros out Hout. congruence.
  - (* SendHTTPRequest returns *)
    destruct (rs_tasks s !! i) as [[]|] eqn:Hi; try done.
    destruct (checkPayload payload a) as [d|r] eqn:Ha; injection Hstep as <-.
    + race_weigh Hi (PExiting None).
      assert (Hord : lockOrder payload (rs_arrivals s ++ [a])
                     = lockOrder payload (rs_arrivals s)).
      { by rewrite lockOrder_app, (lockOrder_dropped _ _ _ Ha), app_nil_r. }
      split; simpl in *; rewrite ?length_insert, ?length_app, ?Hord; simpl;
        [lia|lia|lia|lia|lia|race_unc Hunc|race_can Hcan|race_unw Hunw
        |race_fst Hfirst| |race_rep Hreply].
      apply Forall_insert; [|by split_and!].
      eapply Forall_impl; [exact Htasks|]. intros pc.
      apply (race_task_ok_mono payload s _ pc []); [done|].
      simpl. by rewrite Hord, app_nil_r.
    + race_weigh Hi (PValidated a).
      split; simpl in *; rewrite ?length_insert; simpl;
        [lia|lia|lia|lia|lia|race_unc Hunc|race_can Hcan|race_unw Hunw
        |race_fst Hfirst| |race_rep Hreply].
      apply Forall_insert; [by apply (race_tasks_same payload s)|].
      split_and!; try done. intros a' [= <-].
      by destruct (validated_inr _ _ _ Ha) as [? _].
  - (* mu.Lock() *)
    destruct (rs_tasks s !! i) as [[|a| | | | | |]|] eqn:Hi; try done.
    destruct (rs_mu s) eqn:Hm; [done|]. injection Hstep as <-.
    race_weigh Hi (PLocked (http_dst a)).
    assert (Hval : validated payload a).
    { rewrite Forall_forall in Htasks.
      destruct (Htasks (PValidated a)) as [Hv _]; [|by apply Hv].
      apply list_elem_of_lookup. eauto. }
    assert (Hord : lockOrder payload (rs_arrivals s ++ [a])
                   = lockOrder payload (rs_arrivals s) ++ [http_dst a]).
    { by rewrite lockOrder_app, (lockOrder_validated _ _ Hval). }
    split; simpl in *; rewrite ?length_insert, ?length_app, ?Hord; simpl;
      [lia|lia|lia|lia|lia|race_unc Hunc|race_can Hcan|race_unw Hunw
      | | |race_rep Hreply].
    + intros _. destruct (lockOrder payload (rs_arrivals s)) as [|r0 rest] eqn:Ho.
      * right. split; [lia|done].
      * destruct Hfirst as [?|[? ?]]; [done|left; lia|lia].
    + apply Forall_insert.
      * eapply Forall_impl; [exact Htasks|]. intros pc.
        by apply (race_task_ok_mono payload s _ pc [http_dst a]).
      * split_and!; try done. intros r [= <-]. simpl. rewrite Hord.
        apply elem_of_app. right. by apply list_elem_of_singleton.
  - (* the test of requestCtx.Err() *)
    destruct (rs_tasks s !! i) as [[| |r| | | | |]|] eqn:Hi; try done.
    assert (Hok : race_task_ok payload s (PLocked r)).
    { rewrite Forall_forall in Htasks. apply Htasks, list_elem_of_lookup. eauto. }
    destruct (rs_ctx s) eqn:Hc; injection Hstep as <-.
    + race_weigh Hi (PUnlocking None).
      split; simpl in *; rewrite ?length_insert; simpl;
        [lia|lia|lia|destruct (rs_mu s); lia|lia|(intros ?; congruence)|
        |race_unw Hunw| | |race_rep Hreply].
      * intros _. destruct (Hcan eq_refl); [by left|right; lia].
      * intros Hne. left. destruct (Hcan eq_refl) as [Hr|?]; [|lia].
        destruct (rs_reply s) as [out|] eqn:Hout; [|done].
        destruct (Hreply out eq_refl) as (? & _). lia.
      * apply Forall_insert; [by apply (race_tasks_same payload s)|].
        by split_and!.
    + race_weigh Hi (PPassed r). destruct (Hunc eq_refl) as [Hnr Hz].
      assert (Hnone : (sum_list_with rs_atPassed (rs_tasks s) = 0)%nat)
        by (simpl in *; destruct (rs_mu s); lia).
      split; simpl in *; rewrite ?length_insert; simpl;
        [lia|lia|lia|destruct (rs_mu s); lia|lia| |(intros ?; congruence)
        |race_unw Hunw| | |race_rep Hreply].
      * intros _. split; [done|lia].
      * intros _. left. lia.
      * apply Forall_insert; [by apply (race_tasks_same payload s)|].
        split_and!; try done. intros r' [= <-]. simpl.
        destruct Hok as (_ & Hin & _). specialize (Hin r eq_refl).
        destruct Hfirst as [?|[_ Hlen]]; [by intros Heq; rewrite Heq in Hin; inversion Hin|lia|].
        destruct (lockOrder payload (rs_arrivals s)) as [|r0 [|? ?]]; try done.
        apply list_elem_of_singleton in Hin. by subst.
  - (* requestCtxCancel() *)
    destruct (rs_tasks s !! i) as [[| | |r| | | |]|] eqn:Hi; try done.
    assert (Hok : race_task_ok payload s (PPassed r)).
    { rewrite Forall_forall in Htasks. apply Htasks, list_elem_of_lookup. eauto. }
    injection Hstep as <-. race_weigh Hi (PCancelled r).
    split; simpl in *; rewrite ?length_insert; simpl;
      [lia|lia|lia|destruct (rs_mu s); lia|lia|done| |race_unw Hunw
      |race_fst Hfirst| |race_rep Hreply].
    + intros _. right. lia.
    + apply Forall_insert; [by apply (race_tasks_same payload s)|].
      destruct Hok as (_ & _ & Hw & _).
      split_and!; first [done | intros r' [= <-]; by apply Hw].
  - (* the write to *result *)
    destruct (rs_tasks s !! i) as [[| | | |r| | |]|] eqn:Hi; try done.
    assert (Hok : race_task_ok payload s (PCancelled r)).
    { rewrite Forall_forall in Htasks. apply Htasks, list_elem_of_lookup. eauto. }
    injection Hstep as <-. race_weigh Hi (PUnlocking (Some r)).
    assert (Hz : (sum_list_with rs_atUnlockingWinner (rs_tasks s)
                  + sum_list_with rs_winnerGone (rs_tasks s) = 0)%nat)
      by (simpl in *; lia).
    split; simpl in *; rewrite ?length_insert; simpl;
      [lia|lia|lia|destruct (rs_mu s); lia|lia|race_unc Hunc|race_can Hcan
      | |race_fst Hfirst| |race_rep Hreply].
    + intros ?. lia.
    + apply Forall_insert.
      * rewrite Forall_forall in Htasks. apply Forall_forall. intros pc Hin.
        destruct (Htasks pc Hin) as (? & ? & ? & ?). split_and!; try done.
        intros r' Hw. exfalso. by eapply race_none_wrote.
      * destruct Hok as (_ & _ & Hw & _).
        split_and!; first [done | intros r' [= <-]; by apply Hw | by intros r' [= <-]].
  - (* mu.Unlock() *)
    destruct (rs_tasks s !! i) as [[| | | | |w| |]|] eqn:Hi; try done.
    assert (Hok : race_task_ok payload s (PUnlocking w)).
    { rewrite Forall_forall in Htasks. apply Htasks, list_elem_of_lookup. eauto. }
    injection Hstep as <-. race_weigh Hi (PExiting w).
    destruct w; (split; simpl in *; rewrite ?length_insert; simpl;
      [lia|lia|lia|destruct (rs_mu s); lia|lia|race_unc Hunc|race_can Hcan
      |race_unw Hunw|race_fst Hfirst| |race_rep Hreply]).
    all: apply Forall_insert; [by apply (race_tasks_same payload s)|].
    all: destruct Hok as (? & ? & ? & ?); by split_and!.
  - (* wg.Done() *)
    destruct (rs_tasks s !! i) as [[| | | | | |w|]|] eqn:Hi; try done.
    assert (Hok : race_task_ok payload s (PExiting w)).
    { rewrite Forall_forall in Htasks. apply Htasks, list_elem_of_lookup. eauto. }
    injection Hstep as <-. race_weigh Hi (PDone w).
    destruct w; (split; simpl in *; rewrite ?length_insert; simpl;
      [lia|lia|lia|destruct (rs_mu s); lia|lia|race_unc Hunc|race_can Hcan
      |race_unw Hunw|race_fst Hfirst| |race_rep Hreply]).
    all: apply Forall_insert; [by apply (race_tasks_same payload s)|].
    all: destruct Hok as (? & ? & ? & ?); by split_and!.
  - (* the reply *)
    destruct (rs_reply s) eqn:Hr; [done|].
    case_bool_decide as Hlen; [|done]. case_bool_decide as Hz; [|done].
    simpl in Hstep. injection Hstep as <-.
    split; simpl; try done.
    + intros _. by left.
    + intros out [= <-]. split_and!; [lia|done|done].
Qed.

Lemma race_reachable_inv m payload s :
  reachable (race_step m payload) race_start s → race_inv m payload s.
Proof.
  apply reachable_inv; [apply race_start_inv|].
  intros ???. apply race_step_inv.
Qed.

Lemma race_step_measure m payload s e s' :
  race_step m payload s e = Some s' → (race_measure m s' < race_measure m s)%nat.
Proof.
  intros Hstep. unfold race_measure.
  destruct e as [|i a|i|i|i|i|i|i|]; simpl in Hstep.
  - case_bool_decide as Hr; [|done]. case_bool_decide as Hlen; [|done].
    simpl in Hstep. injection Hstep as <-. simpl.
    rewrite length_app, sum_list_with_app, Hr. simpl. lia.
  - destruct (rs_tasks s !! i) as [[]|] eqn:Hi; try done.
    destruct (checkPayload payload a); injection Hstep as <-.
    + race_weigh Hi (PExiting None). simpl in *. rewrite length_insert. lia.
    + race_weigh Hi (PValidated a). simpl in *. rewrite length_insert. lia.
  - destruct (rs_tasks s !! i) as [[|a| | | | | |]|] eqn:Hi; try done.
    destruct (rs_mu s); [done|]. injection Hstep as <-.
    race_weigh Hi (PLocked (http_dst a)). simpl in *. rewrite length_insert. lia.
  - destruct (rs_tasks s !! i) as [[| |r| | | | |]|] eqn:Hi; try done.
    destruct (rs_ctx s); injection Hstep as <-.
    + race_weigh Hi (PUnlocking None). simpl in *. rewrite length_insert. lia.
    + race_weigh Hi (PPassed r). simpl in *. rewrite length_insert. lia.
  - destruct (rs_tasks s !! i) as [[| | |r| | | |]|] eqn:Hi; try done.
    injection Hstep as <-. race_weigh Hi (PCancelled r).
    simpl in *. rewrite length_insert. lia.
  - destruct (rs_tasks s !! i) as [[| | | |r| | |]|] eqn:Hi; try done.
    injection Hstep as <-. race_weigh Hi (PUnlocking (Some r)).
    simpl in *. rewrite length_insert. lia.
  - destruct (rs_tasks s !! i) as [[| | | | |w| |]|] eqn:Hi; try done.
    injection Hstep as <-. race_weigh Hi (PExiting w).
    simpl in *. rewrite length_insert. lia.
  - destruct (rs_tasks s !! i) as [[| | | | | |w|]|] eqn:Hi; try done.
    injection Hstep as <-. race_weigh Hi (PDone w).
    simpl in *. rewrite length_insert. lia.
  - destruct (rs_reply s) eqn:Hr; [done|].
    destruct (_ && _); [|done]. injection Hstep as <-. simpl. lia.
Qed.

Lemma rs_holdsMu_sum l :
  sum_list_with rs_holdsMu l
  = (sum_list_with rs_atLocked l + sum_list_with rs_atPassed l
     + sum_list_with rs_atCancelled l + sum_list_with rs_atUnlockingWinner l
     + sum_list_with rs_atUnlockingLoser l)%nat.
Proof.
  induction l as [|pc l IH]; simpl; [done|]. rewrite IH.
  destruct pc as [| | | | |[]| |]; simpl; lia.
Qed.

Lemma rs_wonWeight_sum l :
  sum_list_with rs_wonWeight l
  = (sum_list_with rs_atPassed l + sum_list_with rs_atCancelled l
     + sum_list_with rs_atUnlockingWinner l + sum_list_with rs_winnerGone l)%nat.
Proof.
  induction l as [|pc l IH]; simpl; [done|]. rewrite IH.
  destruct pc as [| | | | |[]|[]|[]]; simpl; lia.
Qed.

(** No deadlock: while the handler has not replied, some goroutine can move. *)
Lemma race_progress m payload s :
  reachable (race_step m payload) race_start s →
  is_Some (rs_reply s) ∨ ∃ e s', race_step m payload s e = Some s'.
Proof.
  intros [Hsp Hwg Hrec Hmu Hone Hunc Hcan Hunw Hfirst Htasks Hreply]%race_reachable_inv.
  destruct (rs_reply s) as [out|] eqn:Hr; [left; eauto|right].
  destruct (decide (length (rs_tasks s) < length (m_relays m))%nat) as [Hlt|Hge].
  { exists RESpawn. simpl. rewrite Hr. simpl.
    rewrite bool_decide_eq_true_2 by done. eauto. }
  destruct (decide (sum_list_with rs_pending (rs_tasks s) = 0)%nat) as [Hz|Hnz].
  { exists REReply. simpl. rewrite Hr.
    rewrite bool_decide_eq_true_2 by lia.
    rewrite bool_decide_eq_true_2 by lia. simpl. eauto. }
  rewrite <- rs_holdsMu_sum in Hmu.
  destruct (decide (0 < sum_list_with rs_holdsMu (rs_tasks s))%nat) as [Hh|Hfree].
  - apply sum_list_with_pos in Hh as (i & pc & Hi & Hpc).
    destruct pc as [|a|r|r|r|w|w|w]; simpl in Hpc; try lia.
    + exists (RETest i). simpl. rewrite Hi. destruct (rs_ctx s); eauto.
    + exists (RECancel i). simpl. rewrite Hi. eauto.
    + exists (REWrite i). simpl. rewrite Hi. eauto.
    + exists (REUnlock i). simpl. rewrite Hi. eauto.
  - assert (rs_mu s = false) as Hm by (destruct (rs_mu s); [lia|done]).
    assert (0 < sum_list_with rs_pending (rs_tasks s))%nat as Hpos by lia.
    apply sum_list_with_pos in Hpos as (i & pc & Hi & Hpc).
    pose proof (sum_list_with_lookup rs_holdsMu _ _ _ Hi) as Hle.
    destruct pc as [|a|r|r|r|w|w|w]; simpl in Hpc, Hle; try lia.
    + exists (REReturn i (HttpResult 0 (Some "") GetPayloadResponse_zero)).
      simpl. rewrite Hi. simpl. eauto.
    + exists (RELock i). simpl. rewrite Hi, Hm. eauto.
    + exists (REWgDone i). simpl. rewrite Hi. eauto.
Qed.

Lemma race_eventually_replies m payload s :
  reachable (race_step m payload) race_start s →
  ∃ tr s', run (race_step m payload) s tr = Some s' ∧ is_Some (rs_reply s').
Proof.
  apply (eventually_final (race_step m payload) (λ s, is_Some (rs_reply s))
           (race_measure m)).
  - intros ???. apply race_step_measure.
  - apply race_progress.
Qed.

(** Once a task has written [*result], no step changes it. *)
Lemma race_result_stable_step m payload s e s' r :
  race_inv m payload s →
  (∃ i pc, rs_tasks s !! i = Some pc ∧ rs_wrote pc = Some r) →
  race_step m payload s e = Some s' →
  rs_result s' = rs_result s ∧
  ∃ i pc, rs_tasks s' !! i = Some pc ∧ rs_wrote pc = Some r.
Proof.
  intros Hinv (j & pcj & Hj & Hwj) Hstep.
  assert (Hkeep : ∀ i pc pc', rs_tasks s !! i = Some pc →
            (rs_wrote pc = Some r → rs_wrote pc' = Some r) →
            ∃ i0 pc0, <[i:=pc']> (rs_tasks s) !! i0 = Some pc0 ∧ rs_wrote pc0 = Some r).
  { intros i pc pc' Hi Himp. destruct (decide (i = j)) as [->|Hne].
    - exists j, pc'. rewrite list_lookup_insert_eq by (by eapply lookup_lt_Some).
      split; [done|]. apply Himp. congruence.
    - exists j, pcj. by rewrite list_lookup_insert_ne. }
  destruct e as [|i a|i|i|i|i|i|i|]; simpl in Hstep.
  - case_bool_decide; [|done]. case_bool_decide; [|done]. simpl in Hstep.
    injection Hstep as <-. simpl. split; [done|].
    exists j, pcj. split; [|done]. apply lookup_app_l_Some. done.
  - destruct (rs_tasks s !! i) as [[]|] eqn:Hi; try done.
    destruct (checkPayload payload a); injection Hstep as <-; simpl;
      (split; [done|]); by eapply Hkeep.
  - destruct (rs_tasks s !! i) as [[|a| | | | | |]|] eqn:Hi; try done.
    destruct (rs_mu s); [done|]. injection Hstep as <-. simpl.
    split; [done|]. by eapply Hkeep.
  - destruct (rs_tasks s !! i) as [[| |r0| | | | |]|] eqn:Hi; try done.
    destruct (rs_ctx s); injection Hstep as <-; simpl;
      (split; [done|]); by eapply Hkeep.
  - destruct (rs_tasks s !! i) as [[| | |r0| | | |]|] eqn:Hi; try done.
    injection Hstep as <-. simpl. split; [done|]. by eapply Hkeep.
  - (* a second write is impossible *)
    destruct (rs_tasks s !! i) as [[| | | |r0| | |]|] eqn:Hi; try done.
    exfalso. destruct Hinv as [_ _ _ _ Hone _ _ _ _ _ _].
    pose proof (sum_list_with_lookup rs_atCancelled _ _ _ Hi) as Hc.
    apply rs_wrote_weight in Hwj.
    pose proof (sum_list_with_lookup rs_atUnlockingWinner _ _ _ Hj).
    pose proof (sum_list_with_lookup rs_winnerGone _ _ _ Hj).
    simpl in Hc. lia.
  - destruct (rs_tasks s !! i) as [[| | | | |w| |]|] eqn:Hi; try done.
    injection Hstep as <-. simpl. split; [done|]. by eapply Hkeep.
  - destruct (rs_tasks s !! i) as [[| | | | | |w|]|] eqn:Hi; try done.
    injection Hstep as <-. simpl. split; [done|]. by eapply Hkeep.
  - destruct (rs_reply s); [done|]. destruct (_ && _); [|done].
    injection Hstep as <-. simpl. split; [done|]. eauto.
Qed.

Lemma race_result_stable m payload s tr s' i pc r :
  reachable (race_step m payload) race_start s →
  rs_tasks s !! i = Some pc → rs_wrote pc = Some r →
  run (race_step m payload) s tr = Some s' →
  rs_result s' = r.
Proof.
  intros Hs Hi Hw Hrun.
  pose proof (race_reachable_inv _ _ _ Hs) as Hinv.
  assert (Hr : rs_result s = r).
  { destruct Hinv as [_ _ _ _ _ _ _ _ _ Htasks _].
    rewrite Forall_forall in Htasks.
    destruct (Htasks pc) as (_ & _ & _ & Hres); [|by apply Hres].
    apply list_elem_of_lookup. eauto. }
  pose (P := λ s0, race_inv m payload s0 ∧ rs_result s0 = r
                    ∧ ∃ i pc, rs_tasks s0 !! i = Some pc ∧ rs_wrote pc = Some r).
  assert (HP : P s') ; [|by destruct HP as (_ & ? & _)].
  apply (run_inv (race_step m payload) P) with tr s; [|by split_and!; eauto|done].
  intros s0 e s1 (Hinv0 & Hr0 & Hex0) Hstep.
  destruct (race_result_stable_step _ _ _ _ _ _ Hinv0 Hex0 Hstep) as [Hres Hex1].
  split_and!; [by eapply race_step_inv|congruence|done].
Qed.

Lemma race_all_done (s : raceState) :
  sum_list_with rs_pending (rs_tasks s) = 0%nat →
  Forall (λ pc, ∃ w, pc = PDone w) (rs_tasks s).
Proof.
  intros Hz. apply sum_list_with_zero in Hz.
  eapply Forall_impl; [exact Hz|]. intros []; simpl; try done. eauto.
Qed.

(** When every task is done, [*result] is the response of the first task
    that took the mutex, or still the zero value if none did. *)
Lemma race_final_result m payload s :
  race_inv m payload s →
  sum_list_with rs_pending (rs_tasks s) = 0%nat →
  rs_result s
  = default GetPayloadResponse_zero (head (lockOrder payload (rs_arrivals s))).
Proof.
  intros [Hsp Hwg Hrec Hmu Hone Hunc Hcan Hunw Hfirst Htasks Hreply] Hz.
  pose proof (race_all_done s Hz) as Hdone.
  rewrite Forall_forall in Hdone, Htasks.
  destruct (lockOrder payload (rs_arrivals s)) as [|r0 rest] eqn:Ho; simpl.
  - apply Hunw.
    assert (Hnone : Forall (λ pc, rs_atUnlockingWinner pc + rs_winnerGone pc = 0)%nat
                      (rs_tasks s)).
    { apply Forall_forall. intros pc Hin.
      destruct (Hdone pc Hin) as [[r|] ->]; simpl; [|done].
      destruct (Htasks _ Hin) as (_ & _ & Hw & _). specialize (Hw r eq_refl).
      by rewrite Ho in Hw. }
    apply sum_list_with_zero in Hnone. by rewrite sum_list_with_add in Hnone.
  - assert (Hzero : ∀ w, (∀ pc', (∃ w', pc' = PDone w') → w pc' = 0%nat) →
                         sum_list_with w (rs_tasks s) = 0%nat).
    { intros w Hw. apply sum_list_with_zero, Forall_forall.
      intros pc Hin. apply Hw. by apply Hdone. }
    rewrite (Hzero rs_atLocked), (Hzero rs_atPassed), (Hzero rs_atCancelled),
      (Hzero rs_atUnlockingWinner) in Hfirst by (by intros ? [? ->]).
    destruct Hfirst as [Hpos|[? _]]; [done| |lia].
    simpl in Hpos. apply sum_list_with_pos in Hpos as (i & pc & Hi & Hpc).
    assert (Hin : pc ∈ rs_tasks s) by (apply list_elem_of_lookup; eauto).
    destruct (Hdone pc Hin) as [[r|] ->]; simpl in Hpc; [|lia].
    destruct (Htasks _ Hin) as (_ & _ & Hw & Hres).
    specialize (Hw r eq_refl). specialize (Hres r eq_refl).
    rewrite Ho in Hw. simpl in Hw. congruence.
Qed.

(** C5. In every interleaving of the payload race:
    - at most one task is between [mu.Lock()] and [mu.Unlock()];
    - a task that holds the mutex and finds the context uncancelled is the
      first (and so far only) task to have taken the mutex; it goes on to
      cancel the context and to write its response to the shared result;
    - a task that holds the mutex and finds the context cancelled leaves
      without writing;
    - at most one task ever finds the context uncancelled, and once it has
      written the shared result no later step changes it;
    - the handler replies only when every task of every relay is done, with
      what the sequential race yields on the answers in the order in which
      the tasks took the mutex; and it does reply. *)
Theorem payload_race m payload s :
  reachable (race_step m payload) race_start s →
  (is_Some (rs_reply s) ∨ ∃ e s', race_step m payload s e = Some s') ∧
  (∀ tr s', run (race_step m payload) s tr = Some s' →
            (length tr <= race_measure m s)%nat) ∧
  (∃ tr s', run (race_step m payload) s tr = Some s' ∧ is_Some (rs_reply s')) ∧
  sum_list_with rs_holdsMu (rs_tasks s) = (if rs_mu s then 1 else 0)%nat ∧
  (∀ i r, rs_tasks s !! i = Some (PLocked r) →
     if rs_ctx s
     then race_step m payload s (RETest i) = Some (rs_setTask s i (PUnlocking None))
     else lockOrder payload (rs_arrivals s) = [r] ∧
          ∃ s', run (race_step m payload) s [RETest i; RECancel i; REWrite i]
                = Some s'
                ∧ rs_ctx s' = true ∧ rs_result s' = r
                ∧ rs_tasks s' !! i = Some (PUnlocking (Some r))) ∧
  (∀ i j pc pc', rs_tasks s !! i = Some pc → rs_tasks s !! j = Some pc' →
     is_Some (rs_won pc) → is_Some (rs_won pc') → i = j) ∧
  (∀ i pc r, rs_tasks s !! i = Some pc → rs_won pc = Some r →
     head (lockOrder payload (rs_arrivals s)) = Some r) ∧
  (∀ i pc r tr s', rs_tasks s !! i = Some pc → rs_wrote pc = Some r →
     run (race_step m payload) s tr = Some s' → rs_result s' = r) ∧
  (∀ out, rs_reply s = Some out →
     length (rs_tasks s) = length (m_relays m) ∧
     Forall (λ pc, ∃ w, pc = PDone w) (rs_tasks s) ∧
     length (rs_arrivals s) = length (m_relays m) ∧
     rs_result s
     = default GetPayloadResponse_zero (head (lockOrder payload (rs_arrivals s))) ∧
     out = handleGetPayload m (inr payload) (rs_arrivals s)).
Proof.
  intros Hs. pose proof (race_reachable_inv _ _ _ Hs) as Hinv.
  pose proof Hinv as [Hsp Hwg Hrec Hmu Hone Hunc Hcan Hunw Hfirst Htasks Hreply].
  split_and!.
  - by apply race_progress.
  - intros tr s' Hrun.
    pose proof (run_bounded (race_step m payload) (race_measure m)
                  (race_step_measure m payload) tr s s' Hrun). lia.
  - by apply race_eventually_replies.
  - by rewrite rs_holdsMu_sum.
  - intros i r Hi. destruct (rs_ctx s) eqn:Hc.
    + simpl. by rewrite Hi, Hc.
    + assert (Hlen : (i < length (rs_tasks s))%nat) by (by eapply lookup_lt_Some).
      assert (Hord : lockOrder payload (rs_arrivals s) = [r]).
      { rewrite Forall_forall in Htasks.
        destruct (Htasks (PLocked r)) as (_ & Hin & _);
          [apply list_elem_of_lookup; eauto|].
        specialize (Hin r eq_refl). destruct (Hunc eq_refl) as [_ Hz].
        pose proof (sum_list_with_lookup rs_atLocked _ _ _ Hi) as Hl. simpl in Hl.
        destruct Hfirst as [?|[_ Hone']].
        - intros Heq. rewrite Heq in Hin. inversion Hin.
        - destruct (rs_mu s); lia.
        - destruct (lockOrder payload (rs_arrivals s)) as [|r0 [|? ?]]; try done.
          apply list_elem_of_singleton in Hin. by subst. }
      split; [done|]. eexists. simpl. rewrite Hi, Hc. simpl.
      rewrite list_lookup_insert_eq by done. simpl.
      rewrite list_lookup_insert_eq by (by rewrite length_insert). simpl.
      split_and!; [done|done|done|]. simpl.
      rewrite list_lookup_insert_eq; [done|]. by rewrite !length_insert.
  - intros i j pc pc' Hi Hj [r Hr] [r' Hr'].
    apply (sum_list_with_unique rs_wonWeight (rs_tasks s) i j pc pc');
      try done; unfold rs_wonWeight; rewrite ?Hr, ?Hr'; try lia.
    fold rs_wonWeight. rewrite rs_wonWeight_sum. lia.
  - intros i pc r Hi Hw. rewrite Forall_forall in Htasks.
    destruct (Htasks pc) as (_ & _ & Hhead & _); [|by apply Hhead].
    apply list_elem_of_lookup. eauto.
  - intros i pc r tr s' Hi Hw Hrun. by eapply race_result_stable.
  - intros out Hout. destruct (Hreply out Hout) as (Hz & Hlen & ->).
    pose proof (race_final_result _ _ _ Hinv Hz) as Hres.
    pose proof (race_all_done s Hz) as Hdone.
    assert (Harr : length (rs_arrivals s) = length (m_relays m)).
    { rewrite Hrec, <- Hlen. clear -Hdone.
      induction Hdone as [|pc l [w ->] _ IH]; simpl; [done|]. by rewrite IH. }
    split_and!; try done.
    simpl. by rewrite runRace_result, <- Hres.
Qed.

(** ** The sweeper and the lock *)

Lemma Since_gt now t0 d :
  minDuration <= d < maxDuration → d < Since now t0 ↔ d < now - t0.
Proof.
  unfold Since, Sub, maxDuration, minDuration. intros Hd.
  destruct (_ <? now - t0) eqn:H1; [apply Z.ltb_lt in H1; lia|].
  apply Z.ltb_ge in H1.
  destruct (now - t0 <? _) eqn:H2; [apply Z.ltb_lt in H2; lia|]. done.
Qed.

Lemma sweep_lookup (clock : bidRespKey → Time) (bids : bidCache) k :
  sweep clock bids !! k
  = v ← bids !! k; if 3 * Minute <? Since (clock k) (t v) then None else Some v.
Proof.
  unfold sweep.
  set (f := λ (k : bidRespKey) (bidResp : bidResp) (acc : bidCache),
              if 3 * Minute <? Since (clock k) (t bidResp) then delete k acc else acc).
  assert (Hgen : ∀ (all m : bidCache) k,
    map_fold f all m !! k
    = match m !! k with
      | Some v => if 3 * Minute <? Since (clock k) (t v) then None else all !! k
      | None => all !! k
      end).
  { intros all m.
    apply (map_fold_weak_ind (λ (r m' : bidCache), ∀ k, r !! k
      = match m' !! k with
        | Some v => if 3 * Minute <? Since (clock k) (t v) then None else all !! k
        | None => all !! k
        end)).
    - intros k0. by rewrite lookup_empty.
    - intros i x m0 r Hi IH k0. unfold f at 1.
      destruct (decide (i = k0)) as [->|Hne].
      + rewrite lookup_insert_eq.
        destruct (3 * Minute <? Since (clock k0) (t x)).
        * by rewrite lookup_delete_eq.
        * by rewrite IH, Hi.
      + rewrite lookup_insert_ne by done.
        destruct (3 * Minute <? Since (clock i) (t x)).
        * rewrite lookup_delete_ne by done. apply IH.
        * apply IH. }
  rewrite Hgen. destruct (bids !! k) as [v|] eqn:Hk; simpl; [|done].
  by destruct (_ <? _).
Qed.

Lemma cache_lock_inv bids s :
  reachable cache_step (cache_init bids) s →
  sum_list_with cs_inside (cs_ops s) = (if cs_lock s then 1 else 0)%nat ∧
  cs_bids s = foldl (λ b op, applyOp op b) bids (cs_done s).
Proof.
  apply (reachable_inv cache_step
    (λ s, sum_list_with cs_inside (cs_ops s) = (if cs_lock s then 1 else 0)%nat
          ∧ cs_bids s = foldl (λ b op, applyOp op b) bids (cs_done s))); [done|].
  clear s. intros s e s' [Hmu Hbids] Hstep.
  destruct e as [op|i|i|i]; simpl in Hstep.
  - injection Hstep as <-. simpl. rewrite sum_list_with_app. simpl.
    split; [lia|done].
  - destruct (cs_ops s !! i) as [[op| | |]|] eqn:Hi; try done.
    destruct (cs_lock s); [done|]. injection Hstep as <-. simpl.
    pose proof (sum_list_with_insert cs_inside _ _ _ (CHolding op) Hi).
    simpl in *. split; [lia|done].
  - destruct (cs_ops s !! i) as [[|op| |]|] eqn:Hi; try done.
    injection Hstep as <-. simpl.
    pose proof (sum_list_with_insert cs_inside _ _ _
                  (CAccessed (readOp op (cs_bids s))) Hi).
    simpl in *. split; [lia|]. by rewrite foldl_app, <- Hbids.
  - destruct (cs_ops s !! i) as [[| |read|]|] eqn:Hi; try done.
    injection Hstep as <-. simpl.
    pose proof (sum_list_with_insert cs_inside _ _ _ CReleased Hi).
    pose proof (sum_list_with_lookup cs_inside _ _ _ Hi).
    simpl in *. split; [destruct (cs_lock s); lia|done].
Qed.

(** C6. Every iteration of the sweeper sleeps for one minute (the clock
    moves on by at least [1 * Minute = 60 s]) and then, under the lock,
    removes exactly the entries whose [t] is more than three minutes before
    the moment the loop looks at them, leaving the others as they are; so no
    entry that is older than three minutes when the sweeper wakes up
    survives.  The store, the load and the sweep all stand between
    [bidsLock.Lock()] and [bidsLock.Unlock()]: in every interleaving at most
    one of them is under way, and the map is what the accesses made
    one after the other give. *)
Theorem sweeper_and_lock :
  1 * Minute = 60000000000 ∧ 3 * Minute = 180000000000 ∧
  (∀ tk now (bids : bidCache),
     let woke := Sleep (1 * Minute) (tk_late tk) now in
     let after := cleanupIteration tk (now, bids) in
     now + 1 * Minute <= woke ∧ woke <= after.1 ∧
     ∀ k,
       after.2 !! k
       = v ← bids !! k;
         if decide (3 * Minute < woke + Z.of_N (tk_visit tk k) - t v)
         then None else Some v) ∧
  (∀ tk now (bids : bidCache) k v,
     bids !! k = Some v →
     3 * Minute < Sleep (1 * Minute) (tk_late tk) now - t v →
     (cleanupIteration tk (now, bids)).2 !! k = None) ∧
  (∀ bids s,
     reachable cache_step (cache_init bids) s →
     (sum_list_with cs_inside (cs_ops s) <= 1)%nat ∧
     sum_list_with cs_inside (cs_ops s) = (if cs_lock s then 1 else 0)%nat ∧
     (∀ i op, cs_ops s !! i = Some (CHolding op) →
        cs_lock s = true ∧
        ∀ j pc, cs_ops s !! j = Some pc → (0 < cs_inside pc)%nat → j = i) ∧
     cs_bids s = foldl (λ b op, applyOp op b) bids (cs_done s)).
Proof.
  assert (Hiter : ∀ tk now (bids : bidCache) k,
    (cleanupIteration tk (now, bids)).2 !! k
    = v ← bids !! k;
      if decide (3 * Minute < Sleep (1 * Minute) (tk_late tk) now
                                + Z.of_N (tk_visit tk k) - t v)
      then None else Some v).
  { intros tk now bids k. unfold cleanupIteration. simpl. rewrite sweep_lookup.
    destruct (bids !! k) as [v|]; simpl; [|done].
    destruct (decide _) as [Hold|Hyoung].
    - apply (Since_gt _ _ (3 * Minute)) in Hold; [|by vm_compute].
      by apply Z.ltb_lt in Hold as ->.
    - destruct (_ <? _) eqn:Hlt; [|done]. apply Z.ltb_lt in Hlt.
      apply Since_gt in Hlt; [done|by vm_compute]. }
  split_and!; [done|done| | |].
  - intros tk now bids woke after. subst woke after. split_and!.
    + unfold Sleep. lia.
    + unfold cleanupIteration. simpl. lia.
    + intros k. apply Hiter.
  - intros tk now bids k v Hk Hold. rewrite Hiter, Hk. simpl.
    rewrite decide_True; [done|]. lia.
  - intros bids s Hs. destruct (cache_lock_inv bids s Hs) as [Hmu Hbids].
    split_and!; [destruct (cs_lock s); lia|done| |done].
    intros i op Hi.
    pose proof (sum_list_with_lookup cs_inside _ _ _ Hi) as Hle. simpl in Hle.
    split; [destruct (cs_lock s); [done|lia]|].
    intros j pc Hj Hpc.
    apply (sum_list_with_unique cs_inside (cs_ops s) j i pc (CHolding op));
      try done; [destruct (cs_lock s); lia|simpl; lia].
Qed.

(** ** The theorems at work on the fixtures *)

Lemma best_bid_is_first_highest_witness :
  validVars Fixture.vars 42 ∧
  acceptedBids Fixture.verify Fixture.service (parent_hash Fixture.vars) Fixture.tie ≠ [] ∧
  ∃ out a,
    handleGetHeader Fixture.verify Fixture.service Fixture.vars Fixture.tie = Some out ∧
    out_reply out = respondOK (BodyHeader (http_dst (ar_http a))) ∧
    firstHighest
      (acceptedBids Fixture.verify Fixture.service (parent_hash Fixture.vars) Fixture.tie) a ∧
    (∀ b, b ∈ acceptedBids Fixture.verify Fixture.service (parent_hash Fixture.vars)
                Fixture.tie →
          (bidValue b <= bidValue a)%N).
Proof.
  assert (Hv : validVars Fixture.vars 42) by (repeat split; vm_compute; reflexivity).
  assert (Hne : acceptedBids Fixture.verify Fixture.service
                  (parent_hash Fixture.vars) Fixture.tie ≠ [])
    by (vm_compute; discriminate).
  split; [exact Hv|]. split; [exact Hne|].
  exact (proj1 (best_bid_is_first_highest Fixture.verify Fixture.service
                  Fixture.vars 42 Hv) Fixture.tie Hne).
Defined.

Lemma critical_section_only_after_checks_witness :
  reachable (auction_step Fixture.verify Fixture.service
               (Hash_String Fixture.parent) 42) auction_start Fixture.auctionMid ∧
  as_tasks Fixture.auctionMid !! 0%nat
  = Some (ALocked Fixture.R1
            (HttpResult StatusOK None
               (Fixture.bidOf Fixture.key1 Fixture.blockA 5%N Fixture.goodSig))
            (Hash_String Fixture.blockA)) ∧
  passedChecks Fixture.verify Fixture.service (Hash_String Fixture.parent)
    (Fixture.arrive Fixture.R1
       (Fixture.bidOf Fixture.key1 Fixture.blockA 5%N Fixture.goodSig) 1000)
    (Hash_String Fixture.blockA).
Proof.
  assert (Hs : reachable (auction_step Fixture.verify Fixture.service
                            (Hash_String Fixture.parent) 42) auction_start
                 Fixture.auctionMid)
    by (exists Fixture.auctionRun; vm_compute; reflexivity).
  split; [exact Hs|]. split; [reflexivity|].
  destruct (critical_section_only_after_checks Fixture.verify Fixture.service
              (Hash_String Fixture.parent) 42 [] auction_init) as (_ & _ & Hall).
  specialize (Hall Fixture.auctionMid Hs).
  apply (Forall_lookup_1 _ _ 0%nat _ Hall eq_refl Fixture.R1); by right; left.
Defined.

Lemma auction_fills_bid_cache_witness :
  validVars Fixture.vars 42 ∧
  ∃ out,
    handleGetHeader Fixture.verify Fixture.service Fixture.vars Fixture.oneGood = Some out ∧
    out_reply out
    = respondOK (BodyHeader (Fixture.bidOf Fixture.key2 Fixture.blockB 1%N Fixture.goodSig)) ∧
    out_bids out !! (42, Hash_String Fixture.blockB) = Some Fixture.stored.
Proof.
  assert (Hv : validVars Fixture.vars 42) by (repeat split; vm_compute; reflexivity).
  split; [exact Hv|].
  destruct (proj1 (auction_fills_bid_cache Fixture.verify Fixture.service
                     Fixture.vars 42 Hv) Fixture.oneGood) as (out & Hout & _ & Hacc).
  exists out. split; [exact Hout|].
  assert (Hc : handleGetHeader Fixture.verify Fixture.service Fixture.vars Fixture.oneGood
               = Some {| out_reply := respondOK (BodyHeader
                           (Fixture.bidOf Fixture.key2 Fixture.blockB 1%N Fixture.goodSig));
                         out_bids := <[(42, Hash_String Fixture.blockB) := Fixture.stored]> ∅;
                         out_contacted := [Fixture.R1; Fixture.R2] |})
    by (vm_compute; reflexivity).
  assert (out = {| out_reply := respondOK (BodyHeader
                     (Fixture.bidOf Fixture.key2 Fixture.blockB 1%N Fixture.goodSig));
                   out_bids := <[(42, Hash_String Fixture.blockB) := Fixture.stored]> ∅;
                   out_contacted := [Fixture.R1; Fixture.R2] |}) as -> by congruence.
  simpl. split; [reflexivity|]. apply lookup_insert_eq.
Defined.

Lemma header_request_rejected_witness :
  (¬ ∃ n, isUint64Decimal (slot Fixture.badVars) n) ∧
  handleGetHeader Fixture.verify Fixture.service Fixture.badVars Fixture.tie
  = Some {| out_reply := respondError StatusBadRequest errInvalidSlot;
            out_bids := ∅; out_contacted := [] |}.
Proof.
  assert (Hbad : ¬ ∃ n, isUint64Decimal (slot Fixture.badVars) n).
  { apply ParseUint_error. eexists. vm_compute. reflexivity. }
  split; [exact Hbad|].
  exact (proj1 (header_request_rejected Fixture.verify Fixture.service
                  Fixture.badVars Fixture.tie) Hbad).
Defined.

(** The request [badVars] has a pubkey of four characters, and is rejected
    as [invalid slot]: the claim that every request with a malformed pubkey
    is rejected as [invalid pubkey] fails on it. *)
Lemma pubkey_error_hidden_by_slot_error :
  ¬ (∀ vars, len (pubkey vars) ≠ 98 →
       out_reply <$> handleGetHeader Fixture.verify Fixture.service vars Fixture.tie
       = Some (respondError StatusBadRequest errInvalidPubkey)).
Proof.
  intros Hclaim. specialize (Hclaim Fixture.badVars).
  assert (Hlen : len (pubkey Fixture.badVars) ≠ 98) by (vm_compute; discriminate).
  specialize (Hclaim Hlen). vm_compute in Hclaim. discriminate Hclaim.
Qed.

Lemma status_check_witness :
  reachable (status_step Fixture.service) status_init Fixture.statusEnd ∧
  st_reply Fixture.statusEnd = Some (respondOK BodyNil) ∧
  ∃ i, st_tasks Fixture.statusEnd !! i = Some (SDone true None).
Proof.
  assert (Hs : reachable (status_step Fixture.service) status_init Fixture.statusEnd)
    by (exists Fixture.statusRunToEnd; vm_compute; reflexivity).
  split; [exact Hs|]. split; [reflexivity|].
  destruct (status_check Fixture.service Fixture.statusEnd Hs)
    as (_ & _ & _ & _ & _ & _ & _ & Hreply).
  specialize (Hreply (respondOK BodyNil) eq_refl). simpl in Hreply.
  destruct Hreply as (_ & _ & _ & Hiff).
  apply Hiff; [vm_compute; reflexivity|reflexivity].
Defined.

(** The guard of a status task also lets through a task whose request
    failed once the context was cancelled: here the task of relay 2 has
    incremented the counter although its request returned an error. *)
Lemma status_counts_cancelled_request :
  ∃ s, run (status_step Fixture.service) status_init Fixture.statusRunCancelled
       = Some s
       ∧ st_num s = 2
       ∧ st_tasks s = [SExiting true None; SCancelling (Some "context canceled")].
Proof. eexists. split; [vm_compute; reflexivity|]. done. Qed.

(** The counter is neither incremented by the first successful answer only
    nor by successful answers only.  In [statusMid] both relays have
    answered 200 and both tasks have incremented the counter, which is 2;
    and after [statusRunCancelled] a task stands just after its increment
    with a failed request. *)
Lemma status_counter_counts_more :
  ¬ ((∀ s, reachable (status_step Fixture.service) status_init s → st_num s <= 1)
     ∨ (∀ s, reachable (status_step Fixture.service) status_init s →
             ∀ i err, st_tasks s !! i = Some (SCancelling err) → err = None)).
Proof.
  intros [Hfirst|Hsucc].
  - assert (Hs : reachable (status_step Fixture.service) status_init
                   Fixture.statusMid)
      by (exists Fixture.statusRun; vm_compute; reflexivity).
    specialize (Hfirst _ Hs). vm_compute in Hfirst. by apply Hfirst.
  - destruct status_counts_cancelled_request as (s & Hrun & _ & Htasks).
    assert (Hs : reachable (status_step Fixture.service) status_init s)
      by (by exists Fixture.statusRunCancelled).
    specialize (Hsucc _ Hs 1%nat (Some "context canceled")).
    rewrite Htasks in Hsucc. by specialize (Hsucc eq_refl).
Qed.


Lemma register_validator_witness :
  reachable (reg_step Fixture.service None) reg_init Fixture.registerEnd ∧
  rg_reply Fixture.registerEnd = Some (respondOK BodyNil) ∧
  rg_tasks Fixture.registerEnd = [GDone (Some "timeout"); GDone None] ∧
  ∃ errs, rg_got Fixture.registerEnd = errs ++ [None] ∧ Forall is_Some errs.
Proof.
  assert (Hs : reachable (reg_step Fixture.service None) reg_init Fixture.registerEnd)
    by (exists Fixture.registerRun; vm_compute; reflexivity).
  split; [exact Hs|]. split; [reflexivity|]. split; [reflexivity|].
  destruct (register_validator Fixture.service Fixture.registerEnd Hs)
    as (_ & _ & _ & _ & _ & _ & _ & _ & Hreply).
  destruct (Hreply (respondOK BodyNil) eq_refl) as [_ [(_ & Hgot & _)|(Hno & _)]].
  - exact Hgot.
  - discriminate Hno.
Defined.

Lemma payload_race_witness :
  reachable (race_step Fixture.service Fixture.blinded) race_start Fixture.raceEnd ∧
  rs_reply Fixture.raceEnd
  = Some (handleGetPayload Fixture.service (inr Fixture.blinded)
            (rs_arrivals Fixture.raceEnd)) ∧
  rs_result Fixture.raceEnd = http_dst (Fixture.payloadOf Fixture.blockA).
Proof.
  assert (Hs : reachable (race_step Fixture.service Fixture.blinded) race_start
                 Fixture.raceEnd)
    by (exists Fixture.raceRun; vm_compute; reflexivity).
  split; [exact Hs|].
  destruct (payload_race Fixture.service Fixture.blinded Fixture.raceEnd Hs)
    as (_ & _ & _ & _ & _ & _ & _ & _ & Hreply).
  destruct (Hreply _ eq_refl) as (_ & _ & _ & Hres & Hout).
  split; [by rewrite <- Hout|]. rewrite Hres. reflexivity.
Defined.

Lemma sweeper_and_lock_witness :
  (cleanupIteration {| tk_late := 0; tk_visit := λ _, 0%N; tk_busy := 0 |}
     (2000 + 3 * Minute, {[ (42, Hash_String Fixture.blockB) := Fixture.stored ]})).2
    !! (42, Hash_String Fixture.blockB) = None ∧
  reachable cache_step (cache_init ∅) Fixture.cacheMid ∧
  (sum_list_with cs_inside (cs_ops Fixture.cacheMid) <= 1)%nat.
Proof.
  destruct sweeper_and_lock as (_ & _ & _ & Hold & Hlock).
  assert (Hs : reachable cache_step (cache_init ∅) Fixture.cacheMid)
    by (exists Fixture.cacheRun; vm_compute; reflexivity).
  split_and!.
  - apply (Hold _ _ _ _ Fixture.stored).
    + apply lookup_singleton_eq.
    + vm_compute. reflexivity.
  - exact Hs.
  - exact (proj1 (Hlock ∅ Fixture.cacheMid Hs)).
Defined.

Lemma CheckRelays_conjunctive_witness :
  CheckRelays Fixture.service Fixture.secondFails
  = (false, ["https://relay1.example/eth/v1/builder/status";
             "https://relay2.example/eth/v1/builder/status"]) ∧
  reachable (status_step Fixture.service) status_init Fixture.statusEnd ∧
  (respondOK BodyNil = respondOK BodyNil
   ↔ ∃ i, st_tasks Fixture.statusEnd !! i = Some (SDone true None)).
Proof.
  assert (Hs : reachable (status_step Fixture.service) status_init Fixture.statusEnd)
    by (exists Fixture.statusRunToEnd; vm_compute; reflexivity).
  split; [reflexivity|]. split; [exact Hs|].
  destruct (CheckRelays_conjunctive Fixture.service Fixture.secondFails)
    as (_ & _ & Hstatus).
  apply (Hstatus Fixture.statusEnd (respondOK BodyNil) Hs);
    [reflexivity|vm_compute; reflexivity|reflexivity].
Defined.

(* ===================================================================== *)
(** * Further properties *)
(* ===================================================================== *)

Lemma filter_nil_Forall {A} (P : A → Prop) `{∀ x, Decision (P x)} (l : list A) :
  Forall (λ x, ¬ P x) l → filter P l = [].
Proof.
  induction 1 as [|x l Hx _ IH]; [done|]. by rewrite filter_cons_False.
Qed.

(** The two ways [handleGetPayload] ends for a decoded request. *)
Lemma handleGetPayload_cases m payload arrivals :
  match filter (λ a, validated payload a) arrivals with
  | [] =>
      handleGetPayload m (inr payload) arrivals
      = {| po_reply := respondError StatusBadGateway errNoSuccessfulRelayResponse;
           po_withholding :=
             Some (Join (relays (bids_load (bids m)
                       (sbb_Slot payload, Hash_String (sbb_BlockHash payload)))) ", ");
           po_contacted := m_relays m |}
  | a :: _ =>
      validated payload a ∧
      handleGetPayload m (inr payload) arrivals
      = {| po_reply := respondOK (BodyPayload (http_dst a));
           po_withholding := None; po_contacted := m_relays m |}
  end.
Proof.
  unfold handleGetPayload. rewrite runRace_result. unfold lockOrder.
  destruct (filter _ arrivals) as [|a rest] eqn:Hf; simpl; [done|].
  assert (Ha : validated payload a).
  { assert (a ∈ filter (λ a, validated payload a) arrivals) as Hin
      by (rewrite Hf; left).
    by apply list_elem_of_filter in Hin as [? _]. }
  split; [done|]. unfold validated in Ha.
  destruct (checkPayload payload a) as [d|r] eqn:Hc; [done|].
  destruct (validated_inr _ _ _ Hc) as (_ & -> & data & Hd & Hz & Hh).
  unfold finishGetPayload. rewrite Hd. by rewrite bool_decide_eq_false_2.
Qed.

(** ** The auction: what does not depend on the schedule *)

Section FurtherAuction.

Variable VerifySignature :
  BuilderBid -> Domain -> PublicKey -> Signature -> bool * error.
Variable m : BoostService.

Lemma handleGetHeader_no_bid vars _slot arrivals :
  validVars vars _slot →
  acceptedBids VerifySignature m (parent_hash vars) arrivals = [] →
  handleGetHeader VerifySignature m vars arrivals
  = Some {| out_reply := Reply StatusNoContent BodyNone;
            out_bids := bids m; out_contacted := m_relays m |}.
Proof.
  intros Hvalid Hnil.
  destruct (handleGetHeader_outcome VerifySignature m vars _slot arrivals Hvalid)
    as (out & -> & Hcont & Hacc).
  rewrite Hnil in Hacc. destruct Hacc as [Hr Hb].
  destruct out as [r b c]. simpl in *. by subst.
Qed.

(** The accepted bids of a permuted schedule are the same bids. *)
Lemma acceptedBids_Permutation p l l' :
  l ≡ₚ l' →
  acceptedBids VerifySignature m p l ≡ₚ acceptedBids VerifySignature m p l'.
Proof. intros Hp. unfold acceptedBids. by rewrite Hp. Qed.

Lemma firstHighest_value_le p l a b :
  firstHighest (acceptedBids VerifySignature m p l) a →
  b ∈ acceptedBids VerifySignature m p l →
  (bidValue b <= bidValue a)%N.
Proof.
  intros Hfh Hb.
  destruct (firstHighest_accepted VerifySignature m p l a Hfh) as [_ Hmax].
  by apply Hmax.
Qed.

Lemma firstHighest_elem acc a : firstHighest acc a → a ∈ acc.
Proof. intros (pre & post & -> & _). apply elem_of_app. right. left. Qed.

(** X1. The status of the reply to a header request and the value of the
    bid it carries do not depend on the order in which the tasks of the
    relays take the mutex: two schedules of the same answers give both 204,
    or both 200 with bids of the same value (the bids themselves may differ
    when several relays offer that value). *)
Theorem best_value_independent_of_schedule vars _slot arrivals arrivals' :
  validVars vars _slot →
  arrivals ≡ₚ arrivals' →
  ∃ out out',
    handleGetHeader VerifySignature m vars arrivals = Some out ∧
    handleGetHeader VerifySignature m vars arrivals' = Some out' ∧
    status (out_reply out) = status (out_reply out') ∧
    replyValue (out_reply out) = replyValue (out_reply out').
Proof.
  intros Hvalid Hperm.
  destruct (handleGetHeader_outcome VerifySignature m vars _slot arrivals Hvalid)
    as (out & Hout & _ & Hacc).
  destruct (handleGetHeader_outcome VerifySignature m vars _slot arrivals' Hvalid)
    as (out' & Hout' & _ & Hacc').
  exists out, out'. split; [done|]. split; [done|].
  pose proof (acceptedBids_Permutation (parent_hash vars) _ _ Hperm) as Hp.
  pose proof (firstHighest_value_le (parent_hash vars) arrivals) as Hmax.
  pose proof (firstHighest_value_le (parent_hash vars) arrivals') as Hmax'.
  pose proof (acceptedBids_all VerifySignature m (parent_hash vars) arrivals) as Hall.
  pose proof (acceptedBids_all VerifySignature m (parent_hash vars) arrivals') as Hall'.
  destruct (acceptedBids _ _ _ arrivals) as [|a0 acc0] eqn:Ha;
    destruct (acceptedBids _ _ _ arrivals') as [|a0' acc0'] eqn:Ha'.
  - destruct Hacc as [-> _], Hacc' as [-> _]. done.
  - by apply Permutation_nil_cons in Hp.
  - symmetry in Hp. by apply Permutation_nil_cons in Hp.
  - destruct Hacc as (a & Hfh & -> & _), Hacc' as (a' & Hfh' & -> & _).
    split; [done|]. unfold replyValue. simpl.
    pose proof (firstHighest_elem _ _ Hfh) as Hin.
    pose proof (firstHighest_elem _ _ Hfh') as Hin'.
    rewrite Forall_forall in Hall, Hall'.
    destruct (accepted_value VerifySignature m _ a (Hall _ Hin)) as (-> & _).
    destruct (accepted_value VerifySignature m _ a' (Hall' _ Hin')) as (-> & _).
    f_equal. apply N.le_antisymm.
    + apply Hmax'; [done|]. by rewrite <- Hp.
    + apply Hmax; [done|]. by rewrite Hp.
Qed.

(** X2. The parent hash of a bid is compared with the request's as text,
    against the lower-case [0x] rendering of the bid's hash: when the
    [parent_hash] of a request is not such a rendering (upper-case digits,
    say), every bid is dropped, the reply is 204 and the cache is left as it
    is, whatever the relays answer. *)
Theorem parent_hash_is_compared_as_text vars _slot arrivals :
  validVars vars _slot →
  (∀ h : Hash, parent_hash vars ≠ Hash_String h) →
  handleGetHeader VerifySignature m vars arrivals
  = Some {| out_reply := Reply StatusNoContent BodyNone;
            out_bids := bids m; out_contacted := m_relays m |}.
Proof.
  intros Hvalid Hno. apply (handleGetHeader_no_bid _ _slot); [done|].
  unfold acceptedBids. apply filter_nil_Forall, Forall_forall.
  intros a _ [h Hh]%accepted_inr.
  apply checkBid_inr in Hh
    as (data & msg & header & _ & _ & _ & _ & _ & _ & _ & _ & _ & Hp & _).
  by apply (Hno (ParentHash header)).
Qed.

(** The header request that was answered 200: the bid it answered with and
    the record it left in the cache. *)
Lemma handleGetHeader_best vars _slot arrivals out r :
  validVars vars _slot →
  handleGetHeader VerifySignature m vars arrivals = Some out →
  out_reply out = respondOK (BodyHeader r) →
  ∃ a h,
    firstHighest (acceptedBids VerifySignature m (parent_hash vars) arrivals) a ∧
    checkBid VerifySignature m (parent_hash vars) (ar_relay a) (ar_http a) = inr h ∧
    r = http_dst (ar_http a) ∧
    out_bids out
    = <[(_slot, h) :=
          {| t := ar_now a; response := r; blockHash := h;
             relays := deliveredBy VerifySignature m (parent_hash vars)
                         (acceptedBids VerifySignature m (parent_hash vars) arrivals)
                         h |}]> (bids m).
Proof.
  intros Hvalid Hout Hreply.
  destruct (handleGetHeader_outcome VerifySignature m vars _slot arrivals Hvalid)
    as (out0 & Hout0 & _ & Hacc).
  rewrite Hout in Hout0. injection Hout0 as <-.
  pose proof (firstHighest_accepted VerifySignature m (parent_hash vars) arrivals)
    as Hfa.
  destruct (acceptedBids _ _ _ _) as [|a0 acc0] eqn:Ha.
  - destruct Hacc as [Hr _]. rewrite Hr in Hreply. discriminate Hreply.
  - destruct Hacc as (a & Hfh & Hr & Hb). rewrite Hr in Hreply.
    injection Hreply as <-.
    destruct (Hfa a Hfh) as [[h Hh]%accepted_inr _].
    exists a, h. split_and!; [done|done|done|].
    rewrite Hb. unfold bidHash. by rewrite Hh.
Qed.

(** X3. The cache carries the bidders from the header request to the
    payload request.  After a header request for slot [_slot] was answered
    200 with a bid for the block of hash [BlockHash header], a payload
    request for that slot and block that no relay answers with a valid
    payload is answered 502, and the withholding line of its log names
    exactly the relays whose accepted bids were for that block, in the
    order in which they arrived, the relay of the winning bid among them.
    If the sweeper has been over the cache in between, the line still names
    them when it visited the entry no more than three minutes after the
    winning bid was taken, and names nobody otherwise. *)
Theorem withheld_payload_names_the_bidders
    vars _slot arrivals out r header payload answers :
  validVars vars _slot →
  handleGetHeader VerifySignature m vars arrivals = Some out →
  out_reply out = respondOK (BodyHeader r) →
  (data ← ghr_Data r; msg ← Message data; Header msg) = Some header →
  sbb_Slot payload = _slot →
  sbb_BlockHash payload = BlockHash header →
  filter (λ a, validated payload a) answers = [] →
  let acc := acceptedBids VerifySignature m (parent_hash vars) arrivals in
  let key := (_slot, Hash_String (BlockHash header)) in
  let bidders :=
    deliveredBy VerifySignature m (parent_hash vars) acc
      (Hash_String (BlockHash header)) in
  let withheld (b : bidCache) :=
    handleGetPayload (withBids m b) (inr payload) answers in
  (∃ a, a ∈ acc ∧ http_dst (ar_http a) = r ∧
        t (bids_load (out_bids out) key) = ar_now a ∧
        RelayEntry_String (ar_relay a) ∈ bidders) ∧
  po_reply (withheld (out_bids out))
  = respondError StatusBadGateway errNoSuccessfulRelayResponse ∧
  po_withholding (withheld (out_bids out)) = Some (Join bidders ", ") ∧
  ∀ clock : bidRespKey → Time,
    po_reply (withheld (sweep clock (out_bids out)))
    = respondError StatusBadGateway errNoSuccessfulRelayResponse ∧
    po_withholding (withheld (sweep clock (out_bids out)))
    = Some (if 3 * Minute <? Since (clock key) (t (bids_load (out_bids out) key))
            then "" else Join bidders ", ").
Proof.
  intros Hvalid Hout Hreply Hheader Hslot Hhash Hnone acc key bidders withheld.
  destruct (handleGetHeader_best vars _slot arrivals out r Hvalid Hout Hreply)
    as (a & h & Hfh & Hh & Hr & Hbids).
  assert (Hkey : h = Hash_String (BlockHash header)).
  { apply checkBid_inr in Hh
      as (data & msg & header' & _ & _ & Hd & Hm & Hhd & _ & -> & _).
    rewrite Hr, Hd in Hheader. simpl in Hheader. rewrite Hm in Hheader.
    simpl in Hheader. congruence. }
  subst h. fold key acc bidders in Hbids.
  assert (Hload : bids_load (out_bids out) key
                  = {| t := ar_now a; response := r;
                       blockHash := Hash_String (BlockHash header);
                       relays := bidders |}).
  { unfold bids_load. by rewrite Hbids, lookup_insert_eq. }
  assert (Hwith : ∀ b, withheld b
    = {| po_reply := respondError StatusBadGateway errNoSuccessfulRelayResponse;
         po_withholding := Some (Join (relays (bids_load b key)) ", ");
         po_contacted := m_relays m |}).
  { intros b. unfold withheld.
    pose proof (handleGetPayload_cases (withBids m b) payload answers) as Hc.
    rewrite Hnone in Hc. rewrite Hc. simpl. by rewrite Hslot, Hhash. }
  split_and!.
  - exists a. split_and!.
    + by apply firstHighest_elem.
    + done.
    + by rewrite Hload.
    + subst bidders. unfold deliveredBy. apply list_elem_of_fmap.
      exists a. split; [done|]. apply list_elem_of_filter. split.
      * unfold bidHash. by rewrite Hh.
      * by apply firstHighest_elem.
  - by rewrite Hwith.
  - by rewrite Hwith, Hload.
  - intros clock. rewrite Hwith. simpl. split; [done|]. f_equal.
    rewrite Hload. simpl. unfold bids_load. rewrite sweep_lookup.
    rewrite Hbids, lookup_insert_eq. simpl. by destruct (_ <? _).
Qed.

End FurtherAuction.

(** ** The payload request: edge cases and schedules *)

(** X4. A payload request for the all-zero block hash is never served:
    whatever the relays answer, and in whatever order, every answer is
    dropped (one that carries the zero hash as empty, any other as a
    mismatch) and the reply is 502. *)
Theorem zero_block_hash_never_served m payload arrivals :
  sbb_BlockHash payload = nilHash →
  Forall (λ a, checkPayload payload a = inl PayloadRequestError
               ∨ checkPayload payload a = inl PayloadEmpty
               ∨ checkPayload payload a = inl PayloadHashMismatch) arrivals ∧
  po_reply (handleGetPayload m (inr payload) arrivals)
  = respondError StatusBadGateway errNoSuccessfulRelayResponse.
Proof.
  intros Hz.
  assert (Hall : Forall (λ a, checkPayload payload a = inl PayloadRequestError
               ∨ checkPayload payload a = inl PayloadEmpty
               ∨ checkPayload payload a = inl PayloadHashMismatch) arrivals).
  { apply Forall_forall. intros a _. unfold checkPayload.
    destruct (http_err a); [by left|].
    destruct (gpr_Data (http_dst a)) as [data|]; [|by right; left].
    case_bool_decide as Hd; [by right; left|].
    rewrite bool_decide_eq_true_2; [by right; right|].
    rewrite Hz. congruence. }
  split; [done|].
  pose proof (handleGetPayload_cases m payload arrivals) as Hc.
  rewrite filter_nil_Forall in Hc; [by rewrite Hc|].
  eapply Forall_impl; [exact Hall|]. intros a Ha. unfold validated.
  destruct Ha as [-> | [-> | ->]]; simpl; tauto.
Qed.

(** X5. Whether a payload request is served does not depend on the order
    in which the tasks of the relays take the mutex: two schedules of the
    same answers give the same status and the same withholding line, and
    the status is 200 exactly when some answer passes the checks.  (Which
    of several valid answers is sent back does depend on it.) *)
Theorem payload_status_independent_of_schedule m payload arrivals arrivals' :
  arrivals ≡ₚ arrivals' →
  let out := handleGetPayload m (inr payload) arrivals in
  let out' := handleGetPayload m (inr payload) arrivals' in
  status (po_reply out) = status (po_reply out') ∧
  po_withholding out = po_withholding out' ∧
  (status (po_reply out) = StatusOK ↔ ∃ a, a ∈ arrivals ∧ validated payload a).
Proof.
  intros Hperm out out'. subst out out'.
  pose proof (handleGetPayload_cases m payload arrivals) as Hc.
  pose proof (handleGetPayload_cases m payload arrivals') as Hc'.
  assert (Hp : filter (λ a, validated payload a) arrivals
               ≡ₚ filter (λ a, validated payload a) arrivals') by (by rewrite Hperm).
  destruct (filter _ arrivals) as [|a rest] eqn:Hf;
    destruct (filter _ arrivals') as [|a' rest'].
  - rewrite Hc, Hc'. simpl. split_and!; [done|done|].
    split; [done|]. intros (a & Ha & Hv).
    assert (a ∈ filter (λ a, validated payload a) arrivals) as Hno
      by (by apply list_elem_of_filter).
    rewrite Hf in Hno. by apply elem_of_nil in Hno.
  - by apply Permutation_nil_cons in Hp.
  - symmetry in Hp. by apply Permutation_nil_cons in Hp.
  - destruct Hc as [Hv ->], Hc' as [_ ->]. simpl. split_and!; [done|done|].
    split; [|done]. intros _. exists a. split; [|done].
    assert (a ∈ filter (λ a, validated payload a) arrivals) as Hin
      by (rewrite Hf; left).
    by apply list_elem_of_filter in Hin as [_ ?].
Qed.

(** ** The sweeper: how sweeps and stores compose *)

Lemma Since_mono (now now' t0 : Time) : now <= now' → Since now t0 <= Since now' t0.
Proof.
  unfold Since, Sub, maxDuration, minDuration. intros Hle.
  repeat (destruct (_ <? _) eqn:?;
          [match goal with H : (_ <? _) = true |- _ => apply Z.ltb_lt in H end
          |match goal with H : (_ <? _) = false |- _ => apply Z.ltb_ge in H end]);
    lia.
Qed.

Lemma sweep_subseteq (clock : bidRespKey → Time) (bids : bidCache) :
  sweep clock bids ⊆ bids.
Proof.
  apply map_subseteq_spec. intros k v. rewrite sweep_lookup.
  destruct (bids !! k) as [v'|]; simpl; [|done]. by destruct (_ <? _).
Qed.

(** X6. A sweep only removes entries, and sweeps and stores compose: a
    second sweep made no earlier than the first leaves what it alone would
    have left (so sweeping twice at the same instants changes nothing
    more), and sweeping after a store is storing after the sweep when the
    new entry is no older than three minutes, and removing the key when it
    is older. *)
Theorem sweep_composition (clock clock' : bidRespKey → Time) (bids : bidCache) :
  sweep clock bids ⊆ bids ∧
  sweep clock (sweep clock bids) = sweep clock bids ∧
  ((∀ k, clock k <= clock' k) →
   sweep clock' (sweep clock bids) = sweep clock' bids) ∧
  ∀ k r,
    sweep clock (bids_store bids k r)
    = if 3 * Minute <? Since (clock k) (t r)
      then delete k (sweep clock bids)
      else bids_store (sweep clock bids) k r.
Proof.
  assert (Hlater : ∀ c c' : bidRespKey → Time, (∀ k, c k <= c' k) →
            sweep c' (sweep c bids) = sweep c' bids).
  { intros c c' Hle. apply map_eq. intros k. rewrite !sweep_lookup.
    destruct (bids !! k) as [v|]; simpl; [|done].
    destruct (3 * Minute <? Since (c k) (t v)) eqn:H1; simpl; [|done].
    apply Z.ltb_lt in H1. pose proof (Since_mono _ _ (t v) (Hle k)).
    replace (3 * Minute <? Since (c' k) (t v)) with true; [done|].
    symmetry. apply Z.ltb_lt. lia. }
  split_and!.
  - apply sweep_subseteq.
  - apply Hlater. intros; lia.
  - apply Hlater.
  - intros k r. apply map_eq. intros k'. rewrite sweep_lookup. unfold bids_store.
    destruct (decide (k = k')) as [<-|Hne].
    + rewrite lookup_insert_eq. simpl.
      destruct (_ <? _); [by rewrite lookup_delete_eq|by rewrite lookup_insert_eq].
    + rewrite lookup_insert_ne by done.
      destruct (3 * Minute <? Since (clock k) (t r)).
      * rewrite lookup_delete_ne by done. by rewrite sweep_lookup.
      * rewrite lookup_insert_ne by done. by rewrite sweep_lookup.
Qed.

(** The sweeper's loop, one iteration further. *)
Lemma startBidCacheCleanupTask_cons tk ticks st :
  startBidCacheCleanupTask (tk :: ticks) st
  = startBidCacheCleanupTask ticks (cleanupIteration tk st).
Proof. done. Qed.

Lemma cleanupIteration_clock (tk : tick) (now : Time) (bids : bidCache) :
  now + Minute <= (cleanupIteration tk (now, bids)).1.
Proof. unfold cleanupIteration, Sleep. simpl. lia. Qed.

Lemma startBidCacheCleanupTask_subseteq (ticks : list tick) (now : Time) (bids : bidCache) :
  (startBidCacheCleanupTask ticks (now, bids)).2 ⊆ bids.
Proof.
  revert now bids. induction ticks as [|tk ticks IH]; intros now bids; [done|].
  rewrite startBidCacheCleanupTask_cons.
  destruct (cleanupIteration tk (now, bids)) as [now1 bids1] eqn:Hit.
  etrans; [apply IH|].
  replace bids1 with (cleanupIteration tk (now, bids)).2 by (by rewrite Hit).
  apply sweep_subseteq.
Qed.

(** X7. How long the cache keeps a bid.  After [n] iterations of the
    sweeper the clock has moved on by at least [n] minutes and the cache
    has only lost entries; an entry is gone for good once the sweeper has
    completed an iteration that began less than a minute before the entry
    turned three minutes old, or later, whatever the scheduling delays: an
    entry as old as the task is gone after four iterations.  With a
    sweeper that is never late the entry is still there until then, so
    only the fourth iteration removes a bid stored as the task starts. *)
Theorem sweeper_retention (ticks : list tick) (now : Time) (bids : bidCache)
    (k : bidRespKey) (v : bidResp) :
  bids !! k = Some v →
  let after := startBidCacheCleanupTask ticks (now, bids) in
  now + Z.of_nat (length ticks) * Minute <= after.1 ∧
  after.2 ⊆ bids ∧
  (ticks ≠ [] → t v + 3 * Minute < now + Z.of_nat (length ticks) * Minute →
   after.2 !! k = None) ∧
  (t v <= now → (4 <= length ticks)%nat → after.2 !! k = None) ∧
  (Forall punctual ticks →
   now + Z.of_nat (length ticks) * Minute <= t v + 3 * Minute →
   after.2 !! k = Some v).
Proof.
  intros Hk after. subst after.
  assert (Hclock : ∀ (ticks : list tick) (now : Time) (bids : bidCache),
    now + Z.of_nat (length ticks) * Minute
    <= (startBidCacheCleanupTask ticks (now, bids)).1).
  { clear. induction ticks as [|tk ticks IH]; intros now bids; [simpl; lia|].
    rewrite startBidCacheCleanupTask_cons.
    pose proof (cleanupIteration_clock tk now bids) as H1.
    destruct (cleanupIteration tk (now, bids)) as [now1 bids1].
    specialize (IH now1 bids1). simpl in *. lia. }
  assert (Hgone : ∀ (ticks : list tick) (now : Time) (bids : bidCache),
    ticks ≠ [] →
    (∀ v, bids !! k = Some v →
          t v + 3 * Minute < now + Z.of_nat (length ticks) * Minute) →
    (startBidCacheCleanupTask ticks (now, bids)).2 !! k = None).
  { clear. induction ticks as [|tk ticks IH]; intros now bids Hne Hold; [done|].
    rewrite startBidCacheCleanupTask_cons.
    pose proof (cleanupIteration_clock tk now bids) as H1.
    assert (Hsub : (cleanupIteration tk (now, bids)).2 ⊆ bids)
      by apply sweep_subseteq.
    assert (Hlook : ∀ v, bids !! k = Some v →
      3 * Minute < Sleep (1 * Minute) (tk_late tk) now + Z.of_N (tk_visit tk k) - t v →
      (cleanupIteration tk (now, bids)).2 !! k = None).
    { intros v Hv Hage. unfold cleanupIteration. simpl. rewrite sweep_lookup, Hv.
      simpl. apply (Since_gt _ _ (3 * Minute)) in Hage; [|by vm_compute].
      by apply Z.ltb_lt in Hage as ->. }
    destruct (cleanupIteration tk (now, bids)) as [now1 bids1]. simpl in *.
    destruct ticks as [|tk' ticks'].
    - simpl. destruct (bids !! k) as [v|] eqn:Hv.
      + apply (Hlook v eq_refl). specialize (Hold v eq_refl).
        unfold Sleep. simpl in Hold. lia.
      + destruct (bids1 !! k) as [v1|] eqn:Hv1; [|done].
        eapply lookup_weaken in Hv1; [|exact Hsub]. congruence.
    - apply IH; [done|]. intros v1 Hv1.
      eapply lookup_weaken in Hv1; [|exact Hsub]. specialize (Hold v1 Hv1).
      simpl length in *. lia. }
  split_and!.
  - apply Hclock.
  - apply startBidCacheCleanupTask_subseteq.
  - intros Hne Hold. apply Hgone; [done|]. intros v' Hv'. congruence.
  - intros Hpast Hfour. apply Hgone.
    + intros ->. simpl in Hfour. lia.
    + intros v' Hv'. assert (v' = v) as -> by congruence.
      unfold Minute. lia.
  - revert now bids Hk. induction ticks as [|tk ticks IH];
      intros now bids Hk Hall Hyoung; [done|].
    apply Forall_cons in Hall as [(Hlate & Hbusy & Hvisit) Hall].
    rewrite startBidCacheCleanupTask_cons. unfold cleanupIteration.
    rewrite Hlate, Hbusy. simpl fst. simpl snd.
    apply IH; [|done|].
    + rewrite sweep_lookup, Hk. simpl. rewrite Hvisit.
      replace (3 * Minute <? _) with false; [done|].
      symmetry. apply Z.ltb_ge.
      destruct (decide (3 * Minute < Since (Sleep (1 * Minute) 0 now + Z.of_N 0) (t v)))
        as [Hgt|]; [|lia].
      apply Since_gt in Hgt; [|by vm_compute].
      unfold Sleep in Hgt. simpl length in Hyoung. unfold Minute in *. lia.
    + unfold Sleep. simpl length in Hyoung. unfold Minute in *. lia.
Qed.

(** ** [handleStatus]: who cancels, and who is counted *)

Ltac status_cancel_weigh Hi pc' :=
  pose proof (sum_list_with_insert st_cancelledOk _ _ _ pc' Hi);
  pose proof (sum_list_with_insert st_passedErr _ _ _ pc' Hi);
  pose proof (sum_list_with_lookup st_passedErr _ _ _ Hi);
  simpl in *.

Ltac status_cancel_keep Hctx Herr :=
  split;
  [ let Hc := fresh in let Hr := fresh in
    intros Hc Hr; specialize (Hctx Hc Hr); lia
  | let Hp := fresh in let H := fresh in
    intros Hp; assert (H := Herr ltac:(lia)); lia ].

Lemma status_cancel_step m s e s' :
  status_inv m s ∧ status_cancel_inv s →
  status_step m s e = Some s' →
  status_inv m s' ∧ status_cancel_inv s'.
Proof.
  intros [Hinv [Hctx Herr]] Hstep.
  split; [by eapply status_step_inv|].
  destruct Hinv as [_ _ _ _ _ _ _ Hreply].
  assert (Hnone : ∀ i pc, st_tasks s !! i = Some pc → (0 < st_pending pc)%nat →
                          st_reply s = None).
  { intros i pc Hi Hpc. destruct (st_reply s) as [r|] eqn:Hr; [|done].
    destruct (Hreply r eq_refl) as [Hz _].
    pose proof (sum_list_with_lookup st_pending _ _ _ Hi). lia. }
  unfold status_cancel_inv.
  destruct e as [|i err|i|i|i|i|]; simpl in Hstep.
  - destruct (_ && _); [|done]. injection Hstep as <-. simpl.
    rewrite !sum_list_with_app. simpl. rewrite !Nat.add_0_r. done.
  - destruct (st_tasks s !! i) as [[| | | | |]|] eqn:Hi; try done.
    injection Hstep as <-.
    status_cancel_weigh Hi (SReturned err). status_cancel_keep Hctx Herr.
  - destruct (st_tasks s !! i) as [[|err| | | |]|] eqn:Hi; try done.
    specialize (Hnone _ _ Hi ltac:(simpl; lia)).
    destruct (bool_decide (err ≠ None) && negb (st_ctx s)) eqn:Hguard;
      injection Hstep as <-.
    + status_cancel_weigh Hi (SExiting false err). status_cancel_keep Hctx Herr.
    + assert (Hok : err ≠ None →
                    (0 < sum_list_with st_cancelledOk (st_tasks s))%nat).
      { intros Hne. apply Hctx; [|done].
        apply andb_false_iff in Hguard as [Hg|Hg].
        - by apply bool_decide_eq_false in Hg.
        - by apply negb_false_iff in Hg. }
      status_cancel_weigh Hi (SAdding err).
      destruct err as [e|].
      * specialize (Hok ltac:(done)). split; intros; lia.
      * status_cancel_keep Hctx Herr.
  - destruct (st_tasks s !! i) as [[| |err| | |]|] eqn:Hi; try done.
    injection Hstep as <-.
    status_cancel_weigh Hi (SCancelling err).
    destruct err; status_cancel_keep Hctx Herr.
  - destruct (st_tasks s !! i) as [[| | |err| |]|] eqn:Hi; try done.
    injection Hstep as <-.
    status_cancel_weigh Hi (SExiting true err).
    destruct err as [e|].
    + assert (0 < sum_list_with st_cancelledOk (st_tasks s))%nat
        by (apply Herr; lia).
      split; intros; lia.
    + split; intros; lia.
  - destruct (st_tasks s !! i) as [[| | | |c err|]|] eqn:Hi; try done.
    injection Hstep as <-.
    status_cancel_weigh Hi (SDone c err).
    destruct c, err; status_cancel_keep Hctx Herr.
  - destruct (st_reply s); [done|].
    destruct (negb (relayCheck m)).
    + injection Hstep as <-. simpl. split; [done|exact Herr].
    + destruct (_ && _); [|done]. injection Hstep as <-. simpl.
      split; [done|exact Herr].
Qed.

Lemma status_cancel_reachable m s :
  reachable (status_step m) status_init s → status_cancel_inv s.
Proof.
  intros Hs.
  apply (reachable_inv (status_step m)
           (λ s, status_inv m s ∧ status_cancel_inv s) status_init); [| |done].
  - split; [apply status_init_inv|]. split; simpl; [done|lia].
  - intros s0 e s1. apply status_cancel_step.
Qed.

(** X8. A status check never cancels the requests to the other relays
    before a relay has answered: while the check is under way, the context
    is cancelled only if a task whose request returned without error has
    executed [cancel()]; and a task whose request failed is only ever on
    the success path (counted, or about to be) when another task, whose
    request returned without error, has already cancelled. *)
Theorem status_cancels_only_after_success m s :
  reachable (status_step m) status_init s →
  (st_ctx s = true → st_reply s = None →
   ∃ j c, st_tasks s !! j = Some c ∧ (c = SExiting true None ∨ c = SDone true None)) ∧
  (∀ i pc e, st_tasks s !! i = Some pc →
     pc = SAdding (Some e) ∨ pc = SCancelling (Some e)
     ∨ pc = SExiting true (Some e) ∨ pc = SDone true (Some e) →
     ∃ j c, j ≠ i ∧ st_tasks s !! j = Some c
            ∧ (c = SExiting true None ∨ c = SDone true None)).
Proof.
  intros [Hctx Herr]%status_cancel_reachable.
  assert (Hex : (0 < sum_list_with st_cancelledOk (st_tasks s))%nat →
    ∃ j c, st_tasks s !! j = Some c ∧ (c = SExiting true None ∨ c = SDone true None)).
  { intros (j & c & Hj & Hc)%sum_list_with_pos. exists j, c. split; [done|].
    destruct c as [| | | |[] []|[] []]; simpl in Hc; try lia; auto. }
  split.
  - intros Hc Hr. by apply Hex, Hctx.
  - intros i pc e Hi Hpc.
    destruct Hex as (j & c & Hj & Hc).
    { apply Herr, sum_list_with_pos. exists i, pc. split; [done|].
      destruct Hpc as [-> | [-> | [-> | ->]]]; simpl; lia. }
    exists j, c. split_and!; [|done|done].
    intros ->. rewrite Hi in Hj. injection Hj as <-.
    destruct Hpc as [-> | [-> | [-> | ->]]]; by destruct Hc.
Qed.

(** ** A service without relays, and a body that does not decode *)

(** X9. With an empty relay list every handler answers at once and
    without a request: the status check (with [relay_check] on) 503, the
    registration 502, the header request 204 with the cache as it was, the
    payload request 502; and these replies are made.  [CheckRelays], on
    the other hand, answers true. *)
Theorem no_relays VerifySignature m :
  m_relays m = [] →
  (∀ net, CheckRelays m net = (true, [])) ∧
  (relayCheck m = true →
   (∃ s, run (status_step m) status_init [SEReply] = Some s ∧
         st_reply s = Some (respondError StatusServiceUnavailable
                              "all relays are unavailable")) ∧
   ∀ s r, reachable (status_step m) status_init s → st_reply s = Some r →
          st_tasks s = [] ∧
          r = respondError StatusServiceUnavailable "all relays are unavailable") ∧
  ((∃ s, run (reg_step m None) reg_init [GEGiveUp] = Some s ∧
         rg_reply s = Some (respondError StatusBadGateway
                              errNoSuccessfulRelayResponse)) ∧
   ∀ s r, reachable (reg_step m None) reg_init s → rg_reply s = Some r →
          rg_tasks s = [] ∧
          r = respondError StatusBadGateway errNoSuccessfulRelayResponse) ∧
  (∀ vars _slot, validVars vars _slot →
   let no_bid := {| out_reply := Reply StatusNoContent BodyNone;
                    out_bids := bids m; out_contacted := [] |} in
   run (auction_step VerifySignature m (parent_hash vars) _slot) auction_start
     [AEReply]
   = Some {| as_tasks := []; as_wg := 0; as_mu := false; as_au := auction_init;
             as_arrivals := []; as_reply := Some no_bid |} ∧
   ∀ s out,
     reachable (auction_step VerifySignature m (parent_hash vars) _slot)
       auction_start s →
     as_reply s = Some out → as_tasks s = [] ∧ out = no_bid) ∧
  (∀ payload,
   (∃ s, run (race_step m payload) race_start [REReply] = Some s ∧
         is_Some (rs_reply s)) ∧
   ∀ s out, reachable (race_step m payload) race_start s →
     rs_reply s = Some out →
     rs_tasks s = [] ∧
     po_reply out = respondError StatusBadGateway errNoSuccessfulRelayResponse ∧
     po_contacted out = []).
Proof.
  intros Hrel. split; [|split; [|split; [|split]]].
  - intros net. unfold CheckRelays. by rewrite Hrel.
  - intros Hrc. split.
    + eexists. simpl. rewrite Hrc, Hrel. simpl. done.
    + intros s r Hs Hr.
      pose proof (status_reachable_inv m s Hs) as [Hsp _ _ _ _ _ _ _].
      rewrite Hrel in Hsp. simpl in Hsp.
      assert (Ht : st_tasks s = []) by (apply length_zero_iff_nil; lia).
      split; [done|].
      destruct (status_verdict m s r Hs Hrc) as [_ [(_ & _ & i & Hi)|(_ & -> & _)]];
        [by rewrite Hrel|done| |done].
      by rewrite Ht in Hi.
  - split.
    + eexists. simpl. rewrite Hrel. simpl. done.
    + intros s r Hs Hr.
      pose proof (reg_reachable_inv m None s Hs) as [Hsp _ Hsent _ _ Hreply].
      rewrite Hrel in Hsp. simpl in Hsp.
      assert (Ht : rg_tasks s = []) by (apply length_zero_iff_nil; lia).
      split; [done|]. rewrite Ht in Hsent. simpl in Hsent.
      destruct (Hreply r Hr) as [_ [(_ & errs & Hgot & _)|(-> & _)]]; [|done].
      rewrite Hgot, length_app in Hsent. simpl in Hsent. lia.
  - intros vars _slot Hvalid no_bid. split.
    + simpl. rewrite Hrel. simpl. unfold finishGetHeader. simpl. by rewrite ?Hrel.
    + intros s out Hs Hout.
      destruct (auction_refines VerifySignature m (parent_hash vars) _slot vars s out
                  Hvalid eq_refl Hs Hout) as (Hdone & Hlen & Hrun).
      pose proof (auction_reachable_inv VerifySignature m (parent_hash vars) _slot s Hs)
        as [Hsp _ _ _ _ _ _].
      rewrite Hrel in Hsp, Hlen. simpl in Hsp, Hlen.
      split; [apply length_zero_iff_nil; lia|].
      apply length_zero_iff_nil in Hlen. rewrite Hlen in Hrun.
      rewrite (handleGetHeader_no_bid VerifySignature m vars _slot []) in Hrun;
        [|done|done].
      injection Hrun as <-. subst no_bid. by rewrite Hrel.
  - intros payload. split.
    + eexists. simpl. rewrite Hrel. simpl. eauto.
    + intros s out Hs Hout.
      pose proof (race_reachable_inv m payload s Hs)
        as [Hsp _ _ _ _ _ _ Hunw _ _ Hreply].
      rewrite Hrel in Hsp. simpl in Hsp.
      assert (Ht : rs_tasks s = []) by (apply length_zero_iff_nil; lia).
      split; [done|]. rewrite Ht in Hunw. simpl in Hunw.
      destruct (Hreply out Hout) as (_ & _ & ->).
      rewrite Hunw by done. rewrite Hrel. done.
Qed.

(** X10. A request body that does not decode is answered 400 with the
    decoder's message and nothing else happens: the registration handler
    spawns no task, sends and receives nothing on the channel, and does
    reply, in every interleaving; the payload handler contacts no relay and
    writes no withholding line. *)
Theorem undecodable_body m msg :
  (∀ s, reachable (reg_step m (Some msg)) reg_init s →
     rg_tasks s = [] ∧ rg_chan s = [] ∧ rg_got s = [] ∧
     (∀ r, rg_reply s = Some r → r = respondError StatusBadRequest msg) ∧
     ∃ tr s', run (reg_step m (Some msg)) s tr = Some s' ∧
              rg_reply s' = Some (respondError StatusBadRequest msg)) ∧
  ∀ arrivals,
    handleGetPayload m (inl msg) arrivals
    = {| po_reply := respondError StatusBadRequest msg;
         po_withholding := None; po_contacted := [] |}.
Proof.
  split; [|done].
  intros s Hs.
  pose proof (reg_reachable_inv m (Some msg) s Hs) as [_ Hrej Hsent _ _ Hreply].
  destruct (Hrej ltac:(done)) as [Ht Hg].
  rewrite Ht, Hg in Hsent. simpl in Hsent.
  split_and!; [done|by apply length_zero_iff_nil|done|exact Hreply|].
  destruct (reg_eventually_replies m (Some msg) s Hs) as (tr & s' & Hrun & [r Hr]).
  exists tr, s'. split; [done|].
  pose proof (reachable_run _ _ _ _ _ Hs Hrun) as Hs'.
  pose proof (reg_reachable_inv m (Some msg) s' Hs') as [_ _ _ _ _ Hreply'].
  by rewrite Hr, (Hreply' r Hr).
Qed.

(** ** The auction under way *)

Lemma auction_le_refl au : auction_le au au.
Proof. split; [lia|]. intros h l Hl. exists []. by rewrite app_nil_r. Qed.

Lemma auction_le_trans au1 au2 au3 :
  auction_le au1 au2 → auction_le au2 au3 → auction_le au1 au3.
Proof.
  intros [Hv1 Hr1] [Hv2 Hr2]. split; [lia|]. intros h l Hl.
  destruct (Hr1 h l Hl) as [l1 Hl1]. destruct (Hr2 h _ Hl1) as [l2 Hl2].
  exists (l1 ++ l2). by rewrite app_assoc.
Qed.

Lemma recordRelay_le relay h au : auction_le au (recordRelay relay h au).
Proof.
  split; [unfold resultValue; simpl; lia|]. intros h' l Hl. simpl.
  destruct (decide (h = h')) as [<-|Hne].
  - rewrite Hl. exists [RelayEntry_String relay]. by rewrite lookup_insert_eq.
  - exists []. rewrite app_nil_r.
    destruct (au_relays au !! h); by rewrite lookup_insert_ne.
Qed.

Lemma selectBid_le r h now au au' :
  selectBid r h now au = Some au' → auction_le au au'.
Proof.
  unfold selectBid, auction_le, resultValue.
  destruct (ghr_Data (response (au_result au))) as [d|] eqn:Hd.
  - destruct (valueOf r) as [v|] eqn:Hv; [|done]. simpl.
    destruct (valueOf (response (au_result au))) as [cur|] eqn:Hcur; [|done]. simpl.
    destruct (U256Str_Cmp v cur <? 1) eqn:Hcmp; intros [= <-]; simpl.
    + rewrite Hcur. split; [simpl; lia|]. intros h' l ->. exists [].
      by rewrite app_nil_r.
    + rewrite Hv. split.
      * simpl. destruct (N.le_gt_cases v cur) as [Hle|Hgt]; [|lia].
        apply U256Str_Cmp_lt1 in Hle. congruence.
      * intros h' l ->. exists []. by rewrite app_nil_r.
  - intros [= <-]. simpl.
    assert (Hnone : valueOf (response (au_result au)) = None)
      by (unfold valueOf; by rewrite Hd).
    rewrite Hnone. simpl. split; [lia|].
    intros h' l ->. exists []. by rewrite app_nil_r.
Qed.

Section FurtherAuctionMachine.

Variable VerifySignature :
  BuilderBid -> Domain -> PublicKey -> Signature -> bool * error.
Variable m : BoostService.
Variable p : string.
Variable _slot : Z.

Lemma auction_step_le s e s' :
  auction_step VerifySignature m p _slot s e = Some s' →
  auction_le (as_au s) (as_au s').
Proof.
  intros Hstep. destruct e as [|i a|i|i|i now|i|i|]; simpl in Hstep.
  - destruct (_ && _); [|done]. injection Hstep as <-. apply auction_le_refl.
  - destruct (as_tasks s !! i) as [[]|]; try done.
    destruct (m_relays m !! i); [|done].
    destruct (checkBid _ _ _ _ _); injection Hstep as <-; apply auction_le_refl.
  - destruct (as_tasks s !! i) as [[]|]; try done.
    destruct (as_mu s); [done|]. injection Hstep as <-. apply auction_le_refl.
  - destruct (as_tasks s !! i) as [[]|]; try done.
    injection Hstep as <-. apply recordRelay_le.
  - destruct (as_tasks s !! i) as [[]|]; try done.
    destruct (selectBid _ _ _ _) as [au|] eqn:Hsel; [|done].
    injection Hstep as <-. simpl. by eapply selectBid_le.
  - destruct (as_tasks s !! i) as [[]|]; try done.
    injection Hstep as <-. apply auction_le_refl.
  - destruct (as_tasks s !! i) as [[]|]; try done.
    injection Hstep as <-. apply auction_le_refl.
  - destruct (as_reply s); [done|]. destruct (_ && _); [|done].
    injection Hstep as <-. apply auction_le_refl.
Qed.

(** X11. In every interleaving of a header request at most one task is
    between [mu.Lock()] and [mu.Unlock()], and the state the mutex guards
    only grows: from any state on, the value of the bid held in [result]
    never goes down, and no relay recorded for a block hash is ever
    dropped or reordered. *)
Theorem auction_state_only_grows s :
  reachable (auction_step VerifySignature m p _slot) auction_start s →
  sum_list_with as_holdsMu (as_tasks s) = (if as_mu s then 1 else 0)%nat ∧
  (∀ i j pc pc', as_tasks s !! i = Some pc → as_tasks s !! j = Some pc' →
     (0 < as_holdsMu pc)%nat → (0 < as_holdsMu pc')%nat → i = j) ∧
  ∀ tr s', run (auction_step VerifySignature m p _slot) s tr = Some s' →
    (resultValue (as_au s) <= resultValue (as_au s'))%N ∧
    ∀ h l, au_relays (as_au s) !! h = Some l →
           ∃ l', au_relays (as_au s') !! h = Some (l ++ l').
Proof.
  intros Hs.
  pose proof (auction_reachable_inv VerifySignature m p _slot s Hs)
    as [_ _ _ Hmu _ _ _].
  rewrite <- as_holdsMu_sum in Hmu. split_and!; [done| |].
  - intros i j pc pc' Hi Hj Hpc Hpc'.
    apply (sum_list_with_unique as_holdsMu (as_tasks s) i j pc pc'); try done.
    rewrite Hmu. destruct (as_mu s); lia.
  - intros tr. clear Hs Hmu. revert s.
    induction tr as [|e tr IH]; intros s s' Hrun; simpl in Hrun.
    + injection Hrun as <-. apply auction_le_refl.
    + destruct (auction_step _ _ _ _ s e) as [s1|] eqn:H1; [|done]. simpl in Hrun.
      apply (auction_le_trans _ (as_au s1)); [by eapply auction_step_le|by apply IH].
Qed.

End FurtherAuctionMachine.

(** ** [StartHTTPServer] *)

Lemma start_step_inv listenAddr s e s' :
  start_step listenAddr s e = Some s' →
  (ss_sweepers s = sum_list_with ss_started (ss_calls s) ∧
   (ss_srv s = None ∨ ss_srv s = Some {| Addr := listenAddr |}) ∧
   (ss_srv s = None ↔ sum_list_with ss_assigned (ss_calls s) = 0%nat) ∧
   Forall (λ pc, ∀ l err, pc = HReturned l err →
             if l then err ≠ Some ErrServerClosed
             else err = Some errServerAlreadyRunning) (ss_calls s)) →
  ss_sweepers s' = sum_list_with ss_started (ss_calls s') ∧
  (ss_srv s' = None ∨ ss_srv s' = Some {| Addr := listenAddr |}) ∧
  (ss_srv s' = None ↔ sum_list_with ss_assigned (ss_calls s') = 0%nat) ∧
  Forall (λ pc, ∀ l err, pc = HReturned l err →
            if l then err ≠ Some ErrServerClosed
            else err = Some errServerAlreadyRunning) (ss_calls s').
Proof.
  intros Hstep (Hsw & Haddr & Hnil & Hret).
  destruct e as [|i|i|i|i err]; simpl in Hstep.
  - injection Hstep as <-. simpl. rewrite !sum_list_with_app. simpl.
    rewrite !Nat.add_0_r. split_and!; [done|done|done|].
    apply Forall_app. split; [done|]. by apply Forall_singleton.
  - destruct (ss_calls s !! i) as [[]|] eqn:Hi; try done.
    destruct (ss_srv s) as [sv|] eqn:Hsrv; injection Hstep as <-; simpl.
    + pose proof (sum_list_with_insert ss_started _ _ _
                    (HReturned false (Some errServerAlreadyRunning)) Hi).
      pose proof (sum_list_with_insert ss_assigned _ _ _
                    (HReturned false (Some errServerAlreadyRunning)) Hi).
      simpl in *. rewrite Hsrv. split_and!; [lia|done| |].
      * split; [done|]. intros Hz. apply Hnil. lia.
      * apply Forall_insert; [done|]. by intros l err [= <- <-].
    + pose proof (sum_list_with_insert ss_started _ _ _ HSpawning Hi).
      pose proof (sum_list_with_insert ss_assigned _ _ _ HSpawning Hi).
      simpl in *. rewrite Hsrv. split_and!; [lia|done| |].
      * split; [|done]. intros _. destruct Hnil as [Hnil _].
        specialize (Hnil eq_refl). lia.
      * by apply Forall_insert.
  - destruct (ss_calls s !! i) as [[]|] eqn:Hi; try done.
    injection Hstep as <-. simpl.
    pose proof (sum_list_with_insert ss_started _ _ _ HAssigning Hi).
    pose proof (sum_list_with_insert ss_assigned _ _ _ HAssigning Hi).
    simpl in *. split_and!; [lia|done| |by apply Forall_insert].
    rewrite Hnil. split; lia.
  - destruct (ss_calls s !! i) as [[]|] eqn:Hi; try done.
    injection Hstep as <-. simpl.
    pose proof (sum_list_with_insert ss_started _ _ _ HListening Hi).
    pose proof (sum_list_with_insert ss_assigned _ _ _ HListening Hi).
    simpl in *. split_and!; [lia|by right| |by apply Forall_insert].
    split; [done|lia].
  - destruct (ss_calls s !! i) as [[]|] eqn:Hi; try done.
    pose proof (sum_list_with_lookup ss_assigned _ _ _ Hi) as Hle. simpl in Hle.
    case_bool_decide as Hclosed; injection Hstep as <-; simpl.
    + pose proof (sum_list_with_insert ss_started _ _ _ (HReturned true None) Hi).
      pose proof (sum_list_with_insert ss_assigned _ _ _ (HReturned true None) Hi).
      simpl in *. split_and!; [lia|done| |].
      * rewrite Hnil. split; lia.
      * apply Forall_insert; [done|]. by intros l e [= <- <-].
    + pose proof (sum_list_with_insert ss_started _ _ _ (HReturned true err) Hi).
      pose proof (sum_list_with_insert ss_assigned _ _ _ (HReturned true err) Hi).
      simpl in *. split_and!; [lia|done| |].
      * rewrite Hnil. split; lia.
      * apply Forall_insert; [done|]. by intros l e [= <- <-].
Qed.

(** Once [m.srv] is set and no call is between its test and its
    assignment, nothing starts a sweeper any more. *)
Lemma start_step_closed listenAddr (n : nat) (srv0 : httpServer) (k : nat) s e s' :
  start_step listenAddr s e = Some s' →
  (ss_srv s = Some srv0 ∧ ss_sweepers s = k ∧
   sum_list_with ss_window (ss_calls s) = 0%nat ∧
   (n <= length (ss_calls s))%nat ∧
   ∀ j pc, (n <= j)%nat → ss_calls s !! j = Some pc → ss_refused pc) →
  ss_srv s' = Some srv0 ∧ ss_sweepers s' = k ∧
  sum_list_with ss_window (ss_calls s') = 0%nat ∧
  (n <= length (ss_calls s'))%nat ∧
  ∀ j pc, (n <= j)%nat → ss_calls s' !! j = Some pc → ss_refused pc.
Proof.
  intros Hstep (Hsrv & Hsw & Hwin & Hlen & Hnew).
  assert (Hins : ∀ i old pc', ss_calls s !! i = Some old →
    (ss_refused old → ss_refused pc') →
    ∀ j pc, (n <= j)%nat → <[i:=pc']> (ss_calls s) !! j = Some pc → ss_refused pc).
  { intros i old pc' Hi Himp j pc Hj Hlook.
    apply list_lookup_insert_Some in Hlook as [(<- & <- & _)|(Hne & Hlook)].
    - apply Himp. by apply (Hnew i).
    - by apply (Hnew j). }
  destruct e as [|i|i|i|i err]; simpl in Hstep.
  - injection Hstep as <-. simpl. rewrite sum_list_with_app, length_app. simpl.
    split_and!; [done|done|lia|lia|].
    intros j pc Hj Hlook. apply lookup_app_Some in Hlook as [Hlook|[_ Hlook]].
    + by apply (Hnew j).
    + apply list_lookup_singleton_Some in Hlook as [_ <-]. by left.
  - destruct (ss_calls s !! i) as [[]|] eqn:Hi; try done.
    rewrite Hsrv in Hstep. injection Hstep as <-. simpl.
    pose proof (sum_list_with_insert ss_window _ _ _
                  (HReturned false (Some errServerAlreadyRunning)) Hi).
    simpl in *. rewrite length_insert. split_and!; [done|done|lia|done|].
    apply (Hins i HTesting); [done|]. intros _. by right.
  - destruct (ss_calls s !! i) as [[]|] eqn:Hi; try done.
    pose proof (sum_list_with_lookup ss_window _ _ _ Hi). simpl in *. lia.
  - destruct (ss_calls s !! i) as [[]|] eqn:Hi; try done.
    pose proof (sum_list_with_lookup ss_window _ _ _ Hi). simpl in *. lia.
  - destruct (ss_calls s !! i) as [[]|] eqn:Hi; try done.
    assert (Hold : ss_refused HListening → ∀ pc', ss_refused pc').
    { by intros [?|?]. }
    case_bool_decide; injection Hstep as <-; simpl.
    + pose proof (sum_list_with_insert ss_window _ _ _ (HReturned true None) Hi).
      simpl in *. rewrite length_insert. split_and!; [done|done|lia|done|].
      apply (Hins i HListening); [done|]. intros ?. by apply Hold.
    + pose proof (sum_list_with_insert ss_window _ _ _ (HReturned true err) Hi).
      simpl in *. rewrite length_insert. split_and!; [done|done|lia|done|].
      apply (Hins i HListening); [done|]. intros ?. by apply Hold.
Qed.

(** X12. [StartHTTPServer] starts one sweeper per call that finds [m.srv]
    nil, and [m.srv], once assigned, is never nil again, whether the server
    is still listening, has been closed or could not listen at all.  A call
    that finds it set returns [errServerAlreadyRunning]; a call that
    listened returns the error of [ListenAndServe], or nil when that error
    is [http.ErrServerClosed].  So from any state in which [m.srv] is set
    and no call is between its test and its assignment, no later step
    changes [m.srv] or starts a sweeper, however many calls follow: each
    new call is at its test or has been turned away. *)
Theorem StartHTTPServer_once listenAddr s :
  reachable (start_step listenAddr) start_init s →
  ss_sweepers s = sum_list_with ss_started (ss_calls s) ∧
  (ss_srv s = None ∨ ss_srv s = Some {| Addr := listenAddr |}) ∧
  (ss_srv s = None ↔ sum_list_with ss_assigned (ss_calls s) = 0%nat) ∧
  (∀ i err, ss_calls s !! i = Some (HReturned false err) →
            err = Some errServerAlreadyRunning) ∧
  (∀ i err, ss_calls s !! i = Some (HReturned true err) →
            err ≠ Some ErrServerClosed) ∧
  (ss_srv s ≠ None → sum_list_with ss_window (ss_calls s) = 0%nat →
   ∀ tr s', run (start_step listenAddr) s tr = Some s' →
     ss_srv s' = ss_srv s ∧ ss_sweepers s' = ss_sweepers s ∧
     (length (ss_calls s) <= length (ss_calls s'))%nat ∧
     ∀ j pc, (length (ss_calls s) <= j)%nat → ss_calls s' !! j = Some pc →
             ss_refused pc).
Proof.
  intros Hs.
  assert (Hinv :
    ss_sweepers s = sum_list_with ss_started (ss_calls s) ∧
    (ss_srv s = None ∨ ss_srv s = Some {| Addr := listenAddr |}) ∧
    (ss_srv s = None ↔ sum_list_with ss_assigned (ss_calls s) = 0%nat) ∧
    Forall (λ pc, ∀ l err, pc = HReturned l err →
              if l then err ≠ Some ErrServerClosed
              else err = Some errServerAlreadyRunning) (ss_calls s)).
  { revert s Hs. apply reachable_inv.
    - simpl. split_and!; [done|by left|done|constructor].
    - intros s e s' Hinv Hstep. by eapply start_step_inv. }
  destruct Hinv as (Hsw & Haddr & Hnil & Hret).
  rewrite Forall_lookup in Hret.
  split_and!; [done|done|done| | |].
  - intros i err Hi. by apply (Hret i _ Hi false err).
  - intros i err Hi. by apply (Hret i _ Hi true err).
  - intros Hset Hwin tr s' Hrun.
    destruct (ss_srv s) as [srv0|] eqn:Hsrv; [|done].
    pose proof (run_inv (start_step listenAddr)
      (λ s', ss_srv s' = Some srv0 ∧ ss_sweepers s' = ss_sweepers s ∧
             sum_list_with ss_window (ss_calls s') = 0%nat ∧
             (length (ss_calls s) <= length (ss_calls s'))%nat ∧
             ∀ j pc, (length (ss_calls s) <= j)%nat →
                     ss_calls s' !! j = Some pc → ss_refused pc)) as Hrun_inv.
    assert (Hstart : ss_srv s = Some srv0 ∧ ss_sweepers s = ss_sweepers s ∧
             sum_list_with ss_window (ss_calls s) = 0%nat ∧
             (length (ss_calls s) <= length (ss_calls s))%nat ∧
             ∀ j pc, (length (ss_calls s) <= j)%nat →
                     ss_calls s !! j = Some pc → ss_refused pc).
    { split_and!; [done|done|done|done|].
      intros j pc Hj Hlook. apply lookup_lt_Some in Hlook. lia. }
    destruct (Hrun_inv
      ltac:(intros s0 e s1 H0 H1;
            by apply (start_step_closed listenAddr _ _ _ s0 e s1 H1))
      tr s s' Hstart Hrun) as (? & ? & _ & ? & ?).
    done.
Qed.

(** ** [NewBoostService] *)

(** X13. [NewBoostService] refuses an empty relay list with [no relays]
    before it computes the signing domain, and otherwise fails exactly when
    [ComputeDomain] does, with its error.  The service it returns has the
    relays and the relay-check flag of the options, the domain computed for
    the builder domain type, the genesis fork version of the options and
    the zero root, no server yet, and an empty bid cache.  So [CheckRelays]
    on a new service makes at least one request, and a payload request
    that ends in 502 names no relay in its withholding line. *)
Theorem NewBoostService_result
    (ComputeDomain : DomainType → string → string → Domain * error) opts :
  let computed :=
    ComputeDomain DomainTypeAppBuilder (GenesisForkVersionHex opts)
      ("0x" +:+ String.concat "" (replicate 64 "0"))%string in
  match NewBoostService ComputeDomain opts with
  | inl e =>
      if decide (Relays opts = []) then e = "no relays"
      else computed.2 = Some e
  | inr s =>
      Relays opts ≠ [] ∧ computed = (builderSigningDomain (svc s), None) ∧
      m_relays (svc s) = Relays opts ∧
      relayCheck (svc s) = RelayCheck opts ∧
      listenAddr s = ListenAddr opts ∧
      httpClient_Timeout s = RelayRequestTimeout opts ∧
      srv s = None ∧
      bids (svc s) = ∅ ∧
      (∀ k, bids_load (bids (svc s)) k = bidResp_zero) ∧
      (∀ net, (CheckRelays (svc s) net).2 ≠ []) ∧
      (∀ payload arrivals,
         status (po_reply (handleGetPayload (svc s) (inr payload) arrivals))
         = StatusBadGateway →
         po_withholding (handleGetPayload (svc s) (inr payload) arrivals)
         = Some "")
  end.
Proof.
  intros computed. unfold NewBoostService.
  change (Hash_String (replicate 32 x00))
    with ("0x" +:+ String.concat "" (replicate 64 "0"))%string.
  fold computed.
  destruct (Relays opts) as [|relay rest] eqn:Hrel; [done|].
  cbn -[handleGetPayload CheckRelays bids_load].
  destruct computed as [domain [e|]] eqn:Hc;
    cbn -[handleGetPayload CheckRelays bids_load]; [done|].
  split_and!; try done.
  - intros net. unfold CheckRelays. simpl. destruct (net 0%nat); [done|].
    by destruct (CheckRelays_from 1 rest net).
  - intros payload arrivals.
    set (m := {| m_relays := relay :: rest; relayCheck := RelayCheck opts;
                 builderSigningDomain := domain; bids := ∅ |}).
    pose proof (handleGetPayload_cases m payload arrivals) as Hcases.
    cbn [svc]. destruct (filter _ arrivals) as [|a ?].
    + by rewrite Hcases.
    + destruct Hcases as [_ ->]. intros Hcode. by vm_compute in Hcode.
Qed.

(** ** The slot of a header request *)

Lemma decimalValue_app cs cs' n :
  decimalValue (cs ++ cs') n = decimalValue cs' (decimalValue cs n).
Proof. revert n. induction cs as [|c cs IH]; intros n; simpl; [done|apply IH]. Qed.

Lemma pretty_N_char_digit x :
  (x < 10)%N → digitOf (pretty_N_char x) = Some (Z.of_N x).
Proof.
  intros Hx. destruct x as [|q]; [reflexivity|].
  do 4 (destruct q as [q|q|]; try reflexivity); lia.
Qed.

(** The digits [pretty] puts in front of what is already written. *)
Lemma pretty_N_go_digits x s :
  ∃ cs,
    String.list_ascii_of_string (pretty_N_go x s)
    = cs ++ String.list_ascii_of_string s ∧
    Forall (λ c, is_Some (digitOf c)) cs ∧
    (∀ n, decimalValue cs n = n * 10 ^ Z.of_nat (length cs) + Z.of_N x) ∧
    ((0 < x)%N → cs ≠ []).
Proof.
  revert s. induction (N.lt_wf_0 x) as [x _ IH]. intros s.
  destruct (decide (0 < x)%N) as [Hpos|Hzero].
  - rewrite pretty_N_go_step by done.
    destruct (IH (x `div` 10)%N ltac:(by apply N.div_lt)
                 (String (pretty_N_char (x `mod` 10)) s))
      as (cs & Heq & Hdig & Hval & _).
    assert (Hd : digitOf (pretty_N_char (x `mod` 10)) = Some (Z.of_N (x `mod` 10)))
      by (apply pretty_N_char_digit, N.mod_lt; lia).
    exists (cs ++ [pretty_N_char (x `mod` 10)]). split_and!.
    + rewrite Heq. simpl. by rewrite <- app_assoc.
    + apply Forall_app. split; [done|]. apply Forall_singleton. by rewrite Hd.
    + intros n. rewrite decimalValue_app, Hval. simpl. rewrite Hd. simpl.
      rewrite length_app. simpl length.
      replace (Z.of_nat (length cs + 1)) with (Z.succ (Z.of_nat (length cs))) by lia.
      rewrite Z.pow_succ_r by lia.
      pose proof (N.div_mod x 10 ltac:(lia)) as Hdm.
      assert (Z.of_N x = 10 * Z.of_N (x `div` 10) + Z.of_N (x `mod` 10)) by lia.
      lia.
    + intros _. by destruct cs.
  - assert (x = 0%N) as -> by lia. rewrite pretty_N_go_0. exists [].
    split_and!; [done|constructor|intros n; simpl; lia|lia].
Qed.

Lemma pretty_N_decimal (n : N) :
  pretty n ≠ "" ∧
  Forall (λ c, is_Some (digitOf c)) (String.list_ascii_of_string (pretty n)) ∧
  decimalValue (String.list_ascii_of_string (pretty n)) 0 = Z.of_N n.
Proof.
  unfold pretty, pretty_N. destruct (decide (n = 0%N)) as [->|Hn].
  - split_and!; [done|by repeat constructor|done].
  - destruct (pretty_N_go_digits n "") as (cs & Heq & Hdig & Hval & Hne).
    simpl in Heq. rewrite app_nil_r in Heq. split_and!.
    + intros Hempty. rewrite Hempty in Heq. simpl in Heq.
      apply Hne; [lia|done].
    + by rewrite Heq.
    + rewrite Heq, Hval. lia.
Qed.

(** X14. The slot of a header request is read as a number.  The decimal
    notation of any number up to [2^64 - 1] is accepted and stands for
    that number; the notation of a larger number is rejected with 400
    [invalid slot]; and a slot written with one more leading zero gives
    the same outcome, cache key included. *)
Theorem slot_is_a_number VerifySignature m (n : N) vars arrivals :
  slot vars = pretty n →
  (Z.of_N n <= maxUint64 → ParseUint (slot vars) = inr (Z.of_N n)) ∧
  (maxUint64 < Z.of_N n →
   handleGetHeader VerifySignature m vars arrivals
   = Some {| out_reply := respondError StatusBadRequest errInvalidSlot;
             out_bids := bids m; out_contacted := [] |}) ∧
  handleGetHeader VerifySignature m
    {| slot := String "0" (slot vars); parent_hash := parent_hash vars;
       pubkey := pubkey vars |} arrivals
  = handleGetHeader VerifySignature m vars arrivals.
Proof.
  intros Hslot.
  destruct (pretty_N_decimal n) as (Hne & Hdig & Hval). rewrite <- Hslot in *.
  split_and!.
  - intros Hle. apply ParseUint_spec. by split_and!.
  - intros Hgt. unfold handleGetHeader.
    destruct (ParseUint (slot vars)) as [e|v] eqn:Hp; [done|].
    apply ParseUint_spec in Hp as (_ & _ & -> & Hle). lia.
  - assert (Hsame : ∀ v, ParseUint (String "0" (slot vars)) = inr v
                         ↔ ParseUint (slot vars) = inr v).
    { intros v. rewrite !ParseUint_spec. unfold isUint64Decimal. simpl.
      rewrite Forall_cons. change (digitOf "0") with (Some 0). simpl.
      split; [intros (_ & (_ & ?) & ? & ?)|intros (_ & ? & ? & ?)]; split_and!;
        done || eauto. }
    unfold handleGetHeader. simpl.
    destruct (ParseUint (slot vars)) as [e'|v'].
    + destruct (ParseUint (String "0" (slot vars))) as [e|v]; [done|].
      by destruct (Hsame v) as [Hv _]; specialize (Hv eq_refl).
    + destruct (Hsame v') as [_ Hv]. by rewrite (Hv eq_refl).
Qed.

(** ** Every relay is asked once *)

Lemma accounted_snoc tasks pc relays :
  as_finished pc = 0%nat → accounted (tasks ++ [pc]) relays = accounted tasks relays.
Proof.
  intros Hpc. revert relays.
  induction tasks as [|pc0 tasks IH]; intros [|relay relays]; simpl; try done.
  - by rewrite Hpc.
  - by rewrite IH.
Qed.

Lemma accounted_insert_same tasks relays i pc pc' :
  tasks !! i = Some pc → as_finished pc = as_finished pc' →
  accounted (<[i:=pc']> tasks) relays = accounted tasks relays.
Proof.
  revert relays i.
  induction tasks as [|pc0 tasks IH]; intros [|relay relays] [|i] Hi Heq;
    simpl in *; try done.
  - injection Hi as ->. by rewrite Heq.
  - by rewrite (IH relays i Hi Heq).
Qed.

Lemma accounted_insert_finish tasks relays i pc pc' relay :
  tasks !! i = Some pc → relays !! i = Some relay →
  as_finished pc = 0%nat → as_finished pc' = 1%nat →
  accounted (<[i:=pc']> tasks) relays ≡ₚ accounted tasks relays ++ [relay].
Proof.
  revert relays i.
  induction tasks as [|pc0 tasks IH]; intros [|relay0 relays] [|i] Hi Hr H0 H1;
    simpl in *; try done.
  - injection Hi as ->. injection Hr as ->. rewrite H0, H1. simpl.
    by rewrite Permutation_cons_append.
  - specialize (IH relays i Hi Hr H0 H1).
    destruct (bool_decide (as_finished pc0 = 1%nat)); simpl; by rewrite IH.
Qed.

Lemma accounted_all tasks relays :
  Forall (λ pc, pc = ADone) tasks → length tasks = length relays →
  accounted tasks relays = relays.
Proof.
  intros Hall. revert relays.
  induction Hall as [|pc tasks -> _ IH]; intros [|relay relays] Hlen;
    simpl in *; try done.
  f_equal. apply IH. lia.
Qed.

Section EveryRelayOnce.

Variable VerifySignature :
  BuilderBid -> Domain -> PublicKey -> Signature -> bool * error.
Variable m : BoostService.
Variable p : string.
Variable _slot : Z.

Lemma relays_inv_insert (s : auctionState) i pc pc' :
  (∀ i pc relay, as_tasks s !! i = Some pc → taskRelay pc = Some relay →
                 m_relays m !! i = Some relay) →
  as_tasks s !! i = Some pc →
  (∀ relay, taskRelay pc' = Some relay → m_relays m !! i = Some relay) →
  ∀ j pc0 relay, <[i:=pc']> (as_tasks s) !! j = Some pc0 →
                 taskRelay pc0 = Some relay → m_relays m !! j = Some relay.
Proof.
  intros Hcarry Hi Hnew j pc0 relay Hj Hr.
  apply list_lookup_insert_Some in Hj as [(<- & <- & _)|(Hne & Hj)].
  - by apply Hnew.
  - by apply (Hcarry j pc0).
Qed.

Lemma relays_step_inv s e s' :
  relays_inv m s → auction_step VerifySignature m p _slot s e = Some s' →
  relays_inv m s'.
Proof.
  intros [Hcarry Hperm] Hstep. unfold relays_inv.
  destruct e as [|i a|i|i|i now|i|i|]; simpl in Hstep.
  - destruct (_ && _); [|done]. injection Hstep as <-. simpl. split.
    + intros i pc relay Hi Hr. apply lookup_app_Some in Hi as [Hi|[_ Hi]].
      * by apply (Hcarry i pc).
      * apply list_lookup_singleton_Some in Hi as [_ <-]. done.
    + by rewrite accounted_snoc.
  - destruct (as_tasks s !! i) as [[]|] eqn:Hi; try done.
    destruct (m_relays m !! i) as [relay|] eqn:Hrel; [|done].
    destruct (checkBid _ _ _ _ _) as [d|h]; injection Hstep as <-; simpl.
    + split; [by apply (relays_inv_insert s i ASending)|].
      rewrite fmap_app, Hperm. simpl.
      by rewrite (accounted_insert_finish _ _ i ASending AExiting relay).
    + split.
      * apply (relays_inv_insert s i ASending); [done|done|].
        intros relay' [= <-]. done.
      * by rewrite (accounted_insert_same _ _ i ASending).
  - destruct (as_tasks s !! i) as [[|relay a h| | | | |]|] eqn:Hi; try done.
    destruct (as_mu s); [done|]. injection Hstep as <-. simpl. split.
    + apply (relays_inv_insert s i (AChecked relay a h)); [done|done|].
      intros relay' [= <-]. by apply (Hcarry i (AChecked relay a h)).
    + by rewrite (accounted_insert_same _ _ i (AChecked relay a h)).
  - destruct (as_tasks s !! i) as [[| |relay a h| | | |]|] eqn:Hi; try done.
    injection Hstep as <-. simpl. split.
    + apply (relays_inv_insert s i (ALocked relay a h)); [done|done|].
      intros relay' [= <-]. by apply (Hcarry i (ALocked relay a h)).
    + by rewrite (accounted_insert_same _ _ i (ALocked relay a h)).
  - destruct (as_tasks s !! i) as [[| | |relay a h| | |]|] eqn:Hi; try done.
    destruct (selectBid _ _ _ _) as [au|]; [|done].
    injection Hstep as <-. simpl. split.
    + by apply (relays_inv_insert s i (ARecorded relay a h)).
    + rewrite fmap_app, Hperm. simpl.
      rewrite (accounted_insert_finish _ _ i (ARecorded relay a h) AUnlocking relay);
        try done.
      by apply (Hcarry i (ARecorded relay a h)).
  - destruct (as_tasks s !! i) as [[]|] eqn:Hi; try done.
    injection Hstep as <-. simpl. split.
    + by apply (relays_inv_insert s i AUnlocking).
    + by rewrite (accounted_insert_same _ _ i AUnlocking).
  - destruct (as_tasks s !! i) as [[]|] eqn:Hi; try done.
    injection Hstep as <-. simpl. split.
    + by apply (relays_inv_insert s i AExiting).
    + by rewrite (accounted_insert_same _ _ i AExiting).
  - destruct (as_reply s); [done|]. destruct (_ && _); [|done].
    by injection Hstep as <-.
Qed.

Lemma deliveredBy_subseteq acc h :
  deliveredBy VerifySignature m p acc h
  ⊆ (λ a, RelayEntry_String (ar_relay a)) <$> acc.
Proof.
  unfold deliveredBy. intros x (a & -> & Ha)%list_elem_of_fmap.
  apply list_elem_of_filter in Ha as [_ Ha].
  apply list_elem_of_fmap. eauto.
Qed.

Lemma relays_reachable_inv s :
  reachable (auction_step VerifySignature m p _slot) auction_start s →
  relays_inv m s.
Proof.
  revert s. apply reachable_inv.
  - split; [done|]. simpl. by destruct (m_relays m).
  - intros s e s' Hinv Hstep. by eapply relays_step_inv.
Qed.

(** When the handler replies, the answers it has taken into account are
    those of the relays of [m.relays]. *)
Lemma arrivals_are_relays s out :
  reachable (auction_step VerifySignature m p _slot) auction_start s →
  as_reply s = Some out →
  ar_relay <$> as_arrivals s ≡ₚ m_relays m.
Proof.
  intros Hs Hout.
  destruct (relays_reachable_inv s Hs) as [_ Hperm].
  pose proof (auction_reachable_inv VerifySignature m p _slot s Hs)
    as [_ _ _ _ _ _ Hreply].
  destruct (Hreply out Hout) as (Hz & Htasks & _).
  rewrite accounted_all in Hperm; [done| |done].
  apply sum_list_with_zero in Hz. eapply Forall_impl; [exact Hz|]. by intros [].
Qed.

(** X15. In a header request every relay of [m.relays] is asked exactly
    once and its answer is accounted for exactly once: at every moment the
    relays of the answers taken into account so far are those of the tasks
    that are through, and when the handler replies they are the relays of
    [m.relays], each as often as it is listed there.  So the record the
    request leaves in the cache names relays of [m.relays] only. *)
Theorem every_relay_asked_once vars s :
  validVars vars _slot → parent_hash vars = p →
  reachable (auction_step VerifySignature m p _slot) auction_start s →
  ar_relay <$> as_arrivals s ≡ₚ accounted (as_tasks s) (m_relays m) ∧
  (∀ i pc relay, as_tasks s !! i = Some pc → taskRelay pc = Some relay →
                 m_relays m !! i = Some relay) ∧
  ∀ out, as_reply s = Some out →
    ar_relay <$> as_arrivals s ≡ₚ m_relays m ∧
    ∀ k r, out_bids out !! k = Some r →
           bids m !! k = Some r ∨ relays r ⊆ RelayEntry_String <$> m_relays m.
Proof.
  intros Hvalid Hp Hs.
  destruct (relays_reachable_inv s Hs) as [Hcarry Hperm].
  split_and!; [done|done|].
  intros out Hout.
  pose proof (arrivals_are_relays s out Hs Hout) as Hall.
  split; [done|].
  destruct (auction_refines VerifySignature m p _slot vars s out Hvalid Hp Hs Hout)
    as (_ & _ & Hrun).
  intros k r Hk.
  destruct (handleGetHeader_outcome VerifySignature m vars _slot (as_arrivals s) Hvalid)
    as (out0 & Hout0 & _ & Hacc).
  rewrite Hrun in Hout0. injection Hout0 as <-. rewrite Hp in Hacc.
  destruct (acceptedBids VerifySignature m p (as_arrivals s)) as [|a0 acc0] eqn:Ha.
  - destruct Hacc as [_ Hb]. left. by rewrite <- Hb.
  - destruct Hacc as (a & _ & _ & Hb). rewrite Hb in Hk.
    apply lookup_insert_Some in Hk as [[_ <-]|[_ Hk]]; [right|by left].
    simpl. etrans; [apply deliveredBy_subseteq|].
    rewrite <- Ha. intros x (b & -> & Hb')%list_elem_of_fmap.
    apply list_elem_of_filter in Hb' as [_ Hb'].
    rewrite <- Hall. apply list_elem_of_fmap. exists (ar_relay b). split; [done|].
    apply list_elem_of_fmap. eauto.
Qed.

(** X17. The handler never forwards a bid that one of its relays has not
    signed.  In every interleaving, a 200 reply to a header request carries
    a bid that a relay of [m.relays] delivered and that passed every check
    against that relay and the request: the message's pubkey is the
    relay's, the signature verifies under the builder signing domain and
    the relay's key, the parent hash is the request's, the block hash is
    not zero, the value is not 0 and the transactions root is not that of
    the empty list. *)
Theorem forwarded_bid_is_verified vars s out r :
  validVars vars _slot → parent_hash vars = p →
  reachable (auction_step VerifySignature m p _slot) auction_start s →
  as_reply s = Some out →
  out_reply out = respondOK (BodyHeader r) →
  ∃ relay data msg header,
    relay ∈ m_relays m ∧
    ghr_Data r = Some data ∧ Message data = Some msg ∧ Header msg = Some header ∧
    Pubkey msg = PublicKey_of relay ∧
    VerifySignature msg (builderSigningDomain m) (PublicKey_of relay)
      (bid_Signature data) = (true, None) ∧
    Hash_String (ParentHash header) = parent_hash vars ∧
    BlockHash header ≠ nilHash ∧
    Value msg ≠ 0%N ∧
    Hash_String (TransactionsRoot header) ≠ emptyTxRoot.
Proof.
  intros Hvalid Hp Hs Hout Hreply.
  pose proof (arrivals_are_relays s out Hs Hout) as Hall.
  destruct (auction_refines VerifySignature m p _slot vars s out Hvalid Hp Hs Hout)
    as (_ & _ & Hrun).
  destruct (handleGetHeader_best VerifySignature m vars _slot (as_arrivals s) out r
              Hvalid Hrun Hreply) as (a & h & Hfh & Hh & -> & _).
  apply firstHighest_elem in Hfh.
  apply list_elem_of_filter in Hfh as [_ Hin].
  apply checkBid_inr in Hh
    as (data & msg & header & _ & _ & Hd & Hm & Hhd & Hz & _ & Hpk & Hsig & Hph
        & Hv & Htx).
  exists (ar_relay a), data, msg, header. split_and!; try done.
  rewrite <- Hall. apply list_elem_of_fmap. eauto.
Qed.

End EveryRelayOnce.

(** ** No registration task is left behind *)

(** X16. No task of a registration is left behind.  A task never waits for
    the handler: whatever the handler has done, or not done (it may have
    replied after the first answer and stopped receiving), every task that
    was started can run to its end, its send on the channel included. *)
Theorem register_tasks_terminate m s :
  reachable (reg_step m None) reg_init s →
  ∃ tr s', run (reg_step m None) s tr = Some s' ∧
           length (rg_tasks s') = length (rg_tasks s) ∧
           rg_reply s' = rg_reply s ∧ rg_got s' = rg_got s ∧
           Forall (λ pc, ∃ err, pc = GDone err) (rg_tasks s').
Proof.
  remember (sum_list_with rg_remaining (rg_tasks s)) as n eqn:Hn.
  revert s Hn. induction n as [n IH] using lt_wf_ind. intros s -> Hs.
  destruct (decide (sum_list_with rg_remaining (rg_tasks s) = 0%nat)) as [Hz|Hnz].
  - exists [], s. split_and!; try done.
    apply sum_list_with_zero in Hz. eapply Forall_impl; [exact Hz|].
    intros [|err|err|err]; simpl; try lia. eauto.
  - destruct (proj1 (sum_list_with_pos rg_remaining (rg_tasks s)) ltac:(lia))
      as (i & pc & Hi & Hpc).
    assert (Hstep : ∃ e s', reg_step m None s e = Some s' ∧
              (sum_list_with rg_remaining (rg_tasks s')
               < sum_list_with rg_remaining (rg_tasks s))%nat ∧
              length (rg_tasks s') = length (rg_tasks s) ∧
              rg_reply s' = rg_reply s ∧ rg_got s' = rg_got s).
    { pose proof (sum_list_with_lookup rg_remaining _ _ _ Hi) as Hle.
      destruct pc as [|err|err|err]; simpl in Hpc; [| | |lia].
      - exists (GEReturn i None). eexists. simpl. rewrite Hi. split; [done|].
        simpl. rewrite length_insert.
        pose proof (sum_list_with_insert rg_remaining _ _ _ (GReturned None) Hi).
        simpl in *. split_and!; [lia|done|done|done].
      - destruct (reg_push_enabled m None s i err Hs Hi) as [s' Hs'].
        exists (GEPush i), s'. split; [done|].
        simpl in Hs'. rewrite Hi in Hs'. destruct (bool_decide _); [|done].
        injection Hs' as <-. simpl. rewrite length_insert.
        pose proof (sum_list_with_insert rg_remaining _ _ _ (GPushed err) Hi).
        simpl in *. split_and!; [lia|done|done|done].
      - exists (GEFinish i). eexists. simpl. rewrite Hi. split; [done|].
        simpl. rewrite length_insert.
        pose proof (sum_list_with_insert rg_remaining _ _ _ (GDone err) Hi).
        simpl in *. split_and!; [lia|done|done|done]. }
    destruct Hstep as (e & s1 & H1 & Hlt & Hlen1 & Hr1 & Hg1).
    destruct (IH _ Hlt s1 eq_refl) as (tr & s' & Hrun & Hlen & Hr & Hg & Hdone).
    { by eapply reachable_step. }
    exists (e :: tr), s'. simpl. rewrite H1. simpl.
    split_and!; [done|congruence|congruence|congruence|done].
Qed.

(** ** The further properties at work on the scenarios *)

Lemma hexDigit_not_upper n : hexDigit n ≠ "A"%char.
Proof.
  unfold hexDigit. destruct n as [|q]; [discriminate|].
  repeat (destruct q as [q|q|]; try discriminate).
Qed.

Lemma upperVars_not_rendered h :
  parent_hash Scenario.upperVars ≠ Hash_String h.
Proof.
  unfold Hash_String. destruct h as [|b h]; simpl; [discriminate|].
  intros Heq. injection Heq as _ Hup _. symmetry in Hup.
  by apply hexDigit_not_upper in Hup.
Qed.

Lemma best_value_independent_of_schedule_witness :
  validVars Fixture.vars 42 ∧ Fixture.tie ≡ₚ Scenario.tieSwapped ∧
  ∃ out out',
    handleGetHeader Fixture.verify Fixture.service Fixture.vars Fixture.tie
    = Some out ∧
    handleGetHeader Fixture.verify Fixture.service Fixture.vars Scenario.tieSwapped
    = Some out' ∧
    status (out_reply out) = status (out_reply out') ∧
    replyValue (out_reply out) = replyValue (out_reply out').
Proof.
  assert (Hv : validVars Fixture.vars 42) by (repeat split; vm_compute; reflexivity).
  assert (Hp : Fixture.tie ≡ₚ Scenario.tieSwapped) by apply perm_swap.
  split; [exact Hv|]. split; [exact Hp|].
  exact (best_value_independent_of_schedule Fixture.verify Fixture.service
           Fixture.vars 42 Fixture.tie Scenario.tieSwapped Hv Hp).
Defined.

Lemma parent_hash_is_compared_as_text_witness :
  validVars Scenario.upperVars 42 ∧
  handleGetHeader Fixture.verify Fixture.service Scenario.upperVars Fixture.tie
  = Some {| out_reply := Reply StatusNoContent BodyNone;
            out_bids := ∅; out_contacted := [Fixture.R1; Fixture.R2] |}.
Proof.
  assert (Hv : validVars Scenario.upperVars 42)
    by (repeat split; vm_compute; reflexivity).
  split; [exact Hv|].
  exact (parent_hash_is_compared_as_text Fixture.verify Fixture.service
           Scenario.upperVars 42 Fixture.tie Hv upperVars_not_rendered).
Defined.

Lemma withheld_payload_names_the_bidders_witness :
  handleGetHeader Fixture.verify Fixture.service Fixture.vars Fixture.oneGood
  = Some Scenario.oneGoodOutcome ∧
  po_withholding
    (handleGetPayload
       (withBids Fixture.service (out_bids Scenario.oneGoodOutcome))
       (inr Scenario.blindedB) Scenario.withholding)
  = Some "https://relay2.example" ∧
  po_withholding
    (handleGetPayload
       (withBids Fixture.service
          (sweep (λ _, 2000 + 4 * Minute) (out_bids Scenario.oneGoodOutcome)))
       (inr Scenario.blindedB) Scenario.withholding)
  = Some "".
Proof.
  assert (Hv : validVars Fixture.vars 42) by (repeat split; vm_compute; reflexivity).
  assert (Hout : handleGetHeader Fixture.verify Fixture.service Fixture.vars
                   Fixture.oneGood = Some Scenario.oneGoodOutcome)
    by (vm_compute; reflexivity).
  split; [exact Hout|].
  destruct (withheld_payload_names_the_bidders Fixture.verify Fixture.service
              Fixture.vars 42 Fixture.oneGood Scenario.oneGoodOutcome
              (Fixture.bidOf Fixture.key2 Fixture.blockB 1%N Fixture.goodSig)
              {| ParentHash := Fixture.parent; BlockHash := Fixture.blockB;
                 BlockNumber := 7; TransactionsRoot := Fixture.txRoot |}
              Scenario.blindedB Scenario.withholding
              Hv Hout eq_refl eq_refl eq_refl eq_refl eq_refl)
    as (_ & _ & Hnames & Hswept).
  split.
  - rewrite Hnames. vm_compute. reflexivity.
  - destruct (Hswept (λ _, 2000 + 4 * Minute)) as [_ ->]. vm_compute. reflexivity.
Defined.

Lemma zero_block_hash_never_served_witness :
  sbb_BlockHash Scenario.blindedZero = nilHash ∧
  po_reply (handleGetPayload Fixture.service (inr Scenario.blindedZero)
              Scenario.zeroAnswers)
  = respondError StatusBadGateway errNoSuccessfulRelayResponse.
Proof.
  split; [reflexivity|].
  exact (proj2 (zero_block_hash_never_served Fixture.service Scenario.blindedZero
                  Scenario.zeroAnswers eq_refl)).
Defined.

Lemma payload_status_independent_of_schedule_witness :
  [Fixture.payloadOf Fixture.blockB; Fixture.payloadOf Fixture.blockA]
  ≡ₚ [Fixture.payloadOf Fixture.blockA; Fixture.payloadOf Fixture.blockB] ∧
  status (po_reply (handleGetPayload Fixture.service (inr Fixture.blinded)
                      [Fixture.payloadOf Fixture.blockB;
                       Fixture.payloadOf Fixture.blockA]))
  = status (po_reply (handleGetPayload Fixture.service (inr Fixture.blinded)
                        [Fixture.payloadOf Fixture.blockA;
                         Fixture.payloadOf Fixture.blockB])).
Proof.
  assert (Hp : [Fixture.payloadOf Fixture.blockB; Fixture.payloadOf Fixture.blockA]
               ≡ₚ [Fixture.payloadOf Fixture.blockA; Fixture.payloadOf Fixture.blockB])
    by apply perm_swap.
  split; [exact Hp|].
  exact (proj1 (payload_status_independent_of_schedule Fixture.service
                  Fixture.blinded _ _ Hp)).
Defined.

Lemma sweep_composition_witness :
  (∀ k : bidRespKey, (λ _, 2000 + 2 * Minute) k <= (λ _, 2000 + 4 * Minute) k) ∧
  sweep (λ _, 2000 + 4 * Minute) (sweep (λ _, 2000 + 2 * Minute) Scenario.cacheB)
  = sweep (λ _, 2000 + 4 * Minute) Scenario.cacheB.
Proof.
  assert (Hle : ∀ k : bidRespKey,
            (λ _, 2000 + 2 * Minute) k <= (λ _, 2000 + 4 * Minute) k)
    by (intros k; vm_compute; discriminate).
  split; [exact Hle|].
  destruct (sweep_composition (λ _, 2000 + 2 * Minute) (λ _, 2000 + 4 * Minute)
              Scenario.cacheB) as (_ & _ & Hlater & _).
  exact (Hlater Hle).
Defined.

Lemma sweeper_retention_witness :
  Scenario.cacheB !! (42, Hash_String Fixture.blockB) = Some Fixture.stored ∧
  (startBidCacheCleanupTask (replicate 3 Scenario.onTime) (2000, Scenario.cacheB)).2
    !! (42, Hash_String Fixture.blockB) = Some Fixture.stored ∧
  (startBidCacheCleanupTask (replicate 4 Scenario.onTime) (2000, Scenario.cacheB)).2
    !! (42, Hash_String Fixture.blockB) = None.
Proof.
  assert (Hk : Scenario.cacheB !! (42, Hash_String Fixture.blockB)
               = Some Fixture.stored) by apply lookup_singleton_eq.
  split; [exact Hk|]. split.
  - destruct (sweeper_retention (replicate 3 Scenario.onTime) 2000 Scenario.cacheB
                _ _ Hk) as (_ & _ & _ & _ & Hkept).
    apply Hkept.
    + repeat constructor.
    + vm_compute. discriminate.
  - destruct (sweeper_retention (replicate 4 Scenario.onTime) 2000 Scenario.cacheB
                _ _ Hk) as (_ & _ & _ & Hgone & _).
    apply Hgone; [vm_compute; discriminate|simpl; lia].
Defined.

Lemma status_cancels_only_after_success_witness :
  reachable (status_step Fixture.service) status_init Scenario.statusCancelled ∧
  st_tasks Scenario.statusCancelled !! 1%nat
  = Some (SCancelling (Some "context canceled")) ∧
  ∃ j c, j ≠ 1%nat ∧ st_tasks Scenario.statusCancelled !! j = Some c
         ∧ (c = SExiting true None ∨ c = SDone true None).
Proof.
  assert (Hs : reachable (status_step Fixture.service) status_init
                 Scenario.statusCancelled)
    by (exists Fixture.statusRunCancelled; vm_compute; reflexivity).
  split; [exact Hs|]. split; [reflexivity|].
  apply (proj2 (status_cancels_only_after_success Fixture.service
                  Scenario.statusCancelled Hs) 1%nat _ "context canceled" eq_refl).
  right. left. reflexivity.
Defined.

Lemma no_relays_witness :
  m_relays Scenario.noRelays = [] ∧
  CheckRelays Scenario.noRelays Fixture.secondFails = (true, []) ∧
  ∃ s, run (status_step Scenario.noRelays) status_init [SEReply] = Some s ∧
       st_reply s = Some (respondError StatusServiceUnavailable
                            "all relays are unavailable").
Proof.
  split; [reflexivity|].
  destruct (no_relays Fixture.verify Scenario.noRelays eq_refl)
    as (Hcheck & Hstatus & _).
  split; [apply Hcheck|]. exact (proj1 (Hstatus eq_refl)).
Defined.

Lemma undecodable_body_witness :
  reachable (reg_step Fixture.service (Some "unexpected end of JSON input"))
    reg_init reg_init ∧
  ∃ tr s',
    run (reg_step Fixture.service (Some "unexpected end of JSON input")) reg_init tr
    = Some s' ∧
    rg_reply s'
    = Some (respondError StatusBadRequest "unexpected end of JSON input").
Proof.
  assert (Hs : reachable (reg_step Fixture.service
                            (Some "unexpected end of JSON input")) reg_init reg_init)
    by (exists []; reflexivity).
  split; [exact Hs|].
  destruct (proj1 (undecodable_body Fixture.service "unexpected end of JSON input")
              reg_init Hs) as (_ & _ & _ & _ & Hreplies).
  exact Hreplies.
Defined.

Lemma auction_state_only_grows_witness :
  reachable (auction_step Fixture.verify Fixture.service
               (Hash_String Fixture.parent) 42) auction_start Fixture.auctionMid ∧
  sum_list_with as_holdsMu (as_tasks Fixture.auctionMid) = 1%nat.
Proof.
  assert (Hs : reachable (auction_step Fixture.verify Fixture.service
                            (Hash_String Fixture.parent) 42) auction_start
                 Fixture.auctionMid)
    by (exists Fixture.auctionRun; vm_compute; reflexivity).
  split; [exact Hs|].
  exact (proj1 (auction_state_only_grows Fixture.verify Fixture.service
                  (Hash_String Fixture.parent) 42 Fixture.auctionMid Hs)).
Defined.

Lemma StartHTTPServer_once_witness :
  reachable (start_step ":18550") start_init Scenario.startFailed ∧
  ss_srv Scenario.startFailed = Some {| Addr := ":18550" |} ∧
  ss_sweepers Scenario.startFailed = 1%nat ∧
  ∃ s', run (start_step ":18550") Scenario.startFailed Scenario.startAgain
        = Some s' ∧
        ss_sweepers s' = 1%nat ∧
        ss_calls s' !! 1%nat
        = Some (HReturned false (Some errServerAlreadyRunning)).
Proof.
  assert (Hs : reachable (start_step ":18550") start_init Scenario.startFailed)
    by (exists Scenario.startRun; vm_compute; reflexivity).
  split; [exact Hs|]. split; [reflexivity|]. split; [reflexivity|].
  destruct (StartHTTPServer_once ":18550" Scenario.startFailed Hs)
    as (_ & _ & _ & _ & _ & Hclosed).
  eexists. split; [vm_compute; reflexivity|].
  destruct (Hclosed ltac:(discriminate) eq_refl Scenario.startAgain _ eq_refl)
    as (_ & Hsw & _).
  split; [exact Hsw|reflexivity].
Defined.

Lemma NewBoostService_result_witness :
  ∃ s, NewBoostService Scenario.computeDomain Scenario.opts = inr s ∧
       m_relays (svc s) = [Fixture.R1; Fixture.R2] ∧ bids (svc s) = ∅ ∧
       srv s = None.
Proof.
  pose proof (NewBoostService_result Scenario.computeDomain Scenario.opts) as Hnew.
  destruct (NewBoostService Scenario.computeDomain Scenario.opts) as [e|s] eqn:Hs.
  - vm_compute in Hs. discriminate Hs.
  - exists s. split; [reflexivity|].
    destruct Hnew as (_ & _ & Hrel & _ & _ & _ & Hsrv & Hbids & _).
    split; [exact Hrel|]. split; [exact Hbids|exact Hsrv].
Defined.

Lemma slot_is_a_number_witness :
  slot Fixture.vars = pretty 42%N ∧
  ParseUint (slot Fixture.vars) = inr 42 ∧
  slot Scenario.lateVars = pretty 18446744073709551616%N ∧
  handleGetHeader Fixture.verify Fixture.service Scenario.lateVars Fixture.tie
  = Some {| out_reply := respondError StatusBadRequest errInvalidSlot;
            out_bids := ∅; out_contacted := [] |}.
Proof.
  assert (H42 : slot Fixture.vars = pretty 42%N) by (vm_compute; reflexivity).
  assert (Hlate : slot Scenario.lateVars = pretty 18446744073709551616%N)
    by (vm_compute; reflexivity).
  split; [exact H42|]. split.
  - apply (proj1 (slot_is_a_number Fixture.verify Fixture.service 42%N Fixture.vars
                    Fixture.tie H42)).
    vm_compute. discriminate.
  - split; [exact Hlate|].
    apply (proj1 (proj2 (slot_is_a_number Fixture.verify Fixture.service
                           18446744073709551616%N Scenario.lateVars Fixture.tie
                           Hlate))).
    vm_compute. reflexivity.
Defined.

Lemma every_relay_asked_once_witness :
  validVars Fixture.vars 42 ∧
  ∃ s out,
    run (auction_step Fixture.verify Fixture.service (Hash_String Fixture.parent) 42)
      auction_start Scenario.auctionToEnd = Some s ∧
    as_reply s = Some out ∧
    ar_relay <$> as_arrivals s ≡ₚ [Fixture.R1; Fixture.R2].
Proof.
  assert (Hv : validVars Fixture.vars 42) by (repeat split; vm_compute; reflexivity).
  split; [exact Hv|].
  destruct (run (auction_step Fixture.verify Fixture.service
                   (Hash_String Fixture.parent) 42) auction_start
              Scenario.auctionToEnd) as [s|] eqn:Hrun;
    [|vm_compute in Hrun; discriminate Hrun].
  destruct (as_reply s) as [out|] eqn:Hout.
  - exists s, out. split; [reflexivity|]. split; [exact Hout|].
    assert (Hs : reachable (auction_step Fixture.verify Fixture.service
                              (Hash_String Fixture.parent) 42) auction_start s)
      by (exists Scenario.auctionToEnd; exact Hrun).
    destruct (every_relay_asked_once Fixture.verify Fixture.service
                (Hash_String Fixture.parent) 42 Fixture.vars s Hv eq_refl Hs)
      as (_ & _ & Hreply).
    exact (proj1 (Hreply out Hout)).
  - exfalso. vm_compute in Hrun. injection Hrun as <-. discriminate Hout.
Defined.

Lemma register_tasks_terminate_witness :
  reachable (reg_step Fixture.service None) reg_init Scenario.registerReplied ∧
  rg_reply Scenario.registerReplied = Some (respondOK BodyNil) ∧
  rg_tasks Scenario.registerReplied !! 0%nat = Some GSending ∧
  ∃ tr s',
    run (reg_step Fixture.service None) Scenario.registerReplied tr = Some s' ∧
    Forall (λ pc, ∃ err, pc = GDone err) (rg_tasks s').
Proof.
  assert (Hs : reachable (reg_step Fixture.service None) reg_init
                 Scenario.registerReplied)
    by (exists Scenario.registerEarly; vm_compute; reflexivity).
  split; [exact Hs|]. split; [reflexivity|]. split; [reflexivity|].
  destruct (register_tasks_terminate Fixture.service Scenario.registerReplied Hs)
    as (tr & s' & Hrun & _ & _ & _ & Hdone).
  exists tr, s'. split; [exact Hrun|exact Hdone].
Defined.

Lemma forwarded_bid_is_verified_witness :
  validVars Fixture.vars 42 ∧
  ∃ s out relay,
    run (auction_step Fixture.verify Fixture.service (Hash_String Fixture.parent) 42)
      auction_start Scenario.auctionToEnd = Some s ∧
    as_reply s = Some out ∧
    out_reply out
    = respondOK (BodyHeader
        (Fixture.bidOf Fixture.key2 Fixture.blockB 1%N Fixture.goodSig)) ∧
    relay ∈ [Fixture.R1; Fixture.R2] ∧ PublicKey_of relay = Fixture.key2.
Proof.
  assert (Hv : validVars Fixture.vars 42) by (repeat split; vm_compute; reflexivity).
  split; [exact Hv|].
  destruct (run (auction_step Fixture.verify Fixture.service
                   (Hash_String Fixture.parent) 42) auction_start
              Scenario.auctionToEnd) as [s|] eqn:Hrun;
    [|vm_compute in Hrun; discriminate Hrun].
  assert (Hs : reachable (auction_step Fixture.verify Fixture.service
                            (Hash_String Fixture.parent) 42) auction_start s)
    by (exists Scenario.auctionToEnd; exact Hrun).
  assert (Hreply : out_reply <$> as_reply s
                   = Some (respondOK (BodyHeader
                       (Fixture.bidOf Fixture.key2 Fixture.blockB 1%N Fixture.goodSig))))
    by (vm_compute in Hrun; injection Hrun as <-; reflexivity).
  destruct (as_reply s) as [out|] eqn:Hout; [|discriminate Hreply].
  injection Hreply as Hreply.
  destruct (forwarded_bid_is_verified Fixture.verify Fixture.service
              (Hash_String Fixture.parent) 42 Fixture.vars s out _
              Hv eq_refl Hs Hout Hreply)
    as (relay & data & msg & header & Hin & Hd & Hm & _ & Hpk & _).
  exists s, out, relay. split; [reflexivity|]. split; [exact Hout|].
  split; [exact Hreply|]. split; [exact Hin|].
  injection Hd as <-. injection Hm as <-. symmetry. exact Hpk.
Defined.
